(** * Datastar core: the attribute-driven dispatch engine

    A shallow embedding of [library/src/lib/core.ts] (class [Datastar]) and
    the properties of its plugin registry, removal registry, store handle,
    attribute parser, preprocessor pipeline and tree walk.

    Conventions of the embedding.
    - JavaScript objects that are compared by identity (elements, store
      instances, preprocessors, teardown closures) carry a [nat] reference.
    - [Map] and [Set] are stdpp's [gmap] and [gset]; a [Set] whose iteration
      order is observable is a duplicate-free list in insertion order.
    - [throw], the callback's early [return] and normal completion are the
      three completions of the monad [M]; the state reached before a [throw]
      is kept, as in the source.
    - Calls that leave the core (a plugin's [onLoad], [onGlobalInit], a
      teardown closure) are recorded, in order, in the [calls] field of the
      state; [console.error] output is recorded in [console].
    - A plugin's hooks, a replacer and a teardown are known by what they
      return; what a hook does to the dispatcher through its context (a
      re-entrant [applyPlugins], a [mergeStore]) is a further operation on
      the state, and the element tree does not change during a pass.
    - Code imported from modules that are not part of [core.ts]
      ([CorePlugins], [CorePreprocessors], the merge-patch [apply], the
      host's [Function] constructor) is a [Variable] of the main section. *)

From Stdlib Require Import Ascii.
From stdpp Require Import gmap strings list fin_maps pretty sorting.

Local Open Scope string_scope.

(** ** JavaScript string primitives used by the dispatcher *)

Module JS.

(** [s.startsWith(p)] *)
Definition startsWith (s p : string) : bool := String.prefix p s.

(** [s.slice(n)] for [0 <= n] *)
Fixpoint slice (s : string) (n : nat) : string :=
  match n, s with
  | O, _ => s
  | S _, EmptyString => EmptyString
  | S n', String _ s' => slice s' n'
  end.

(** [s.split(sep)] for a one-character separator: never the empty list. *)
Fixpoint split (sep : Ascii.ascii) (s : string) : list string :=
  match s with
  | EmptyString => [EmptyString]
  | String c s' =>
      if Ascii.eqb c sep then EmptyString :: split sep s'
      else match split sep s' with
           | h :: t => String c h :: t
           | [] => [String c EmptyString]
           end
  end.

(** [parts.join(sep)] *)
Definition join (sep : string) (parts : list string) : string :=
  String.concat sep parts.

(** [c.toLowerCase()] on the ASCII range. *)
Definition lowerChar (c : Ascii.ascii) : Ascii.ascii :=
  let n := nat_of_ascii c in
  if Nat.leb 65 n && Nat.leb n 90 then ascii_of_nat (n + 32) else c.

Fixpoint toLowerCase (s : string) : string :=
  match s with
  | EmptyString => EmptyString
  | String c s' => String (lowerChar c) (toLowerCase s')
  end.

(** [s.indexOf(pat)] as the text before the first occurrence and the text
    after it. *)
Fixpoint cut (pat s : string) : option (string * string) :=
  if String.prefix pat s then Some (EmptyString, slice s (String.length pat))
  else match s with
       | EmptyString => None
       | String c s' =>
           match cut pat s' with
           | Some (before, after) => Some (String c before, after)
           | None => None
           end
       end.

(** ECMAScript [GetSubstitution] for a string pattern: there are no
    captures, so only [$$], [$&], [$`] and [$'] are special. *)
Fixpoint substitution (matched before after template : string) : string :=
  match template with
  | String "$"%char (String "$"%char t) =>
      "$" +:+ substitution matched before after t
  | String "$"%char (String "&"%char t) =>
      matched +:+ substitution matched before after t
  | String "$"%char (String "`"%char t) =>
      before +:+ substitution matched before after t
  | String "$"%char (String "'"%char t) =>
      after +:+ substitution matched before after t
  | String c t => String c (substitution matched before after t)
  | EmptyString => EmptyString
  end.

(** [s.replace(pat, replacement)] with a string pattern: the first
    occurrence only. *)
Definition replace (s pat replacement : string) : string :=
  match cut pat s with
  | Some (before, after) =>
      before +:+ substitution pat before after replacement +:+ after
  | None => s
  end.

End JS.

(** ** Data model ([types.ts] as far as the dispatcher uses it) *)

(** One entry of [expression.matchAll(regexp)]: its named groups, if any. *)
Record RegExpMatch := { groups : option (gmap string string) }.

(** A pattern of the host's regular-expression engine, known by what the
    two calls the dispatcher makes on it return: whether [tag.match(r)]
    is non-null, and the list [[...s.matchAll(r)]], which the host only
    makes for a pattern that has the [g] flag ([global]). *)
Record RegExp := {
  matches : string → bool;
  matchAll : string → list RegExpMatch;
  global : bool
}.

(** [Preprocesser]: an object (compared by identity in [appliedProcessors])
    with a pattern and a replacer. *)
Record Preprocesser := {
  pp_ref : nat;
  regexp : RegExp;
  replacer : gmap string string → string
}.

(** A teardown closure, known by its identity. *)
Definition OnRemovalFn := nat.

(** The body text a compiled [ExpressionFunction] was made from. *)
Definition ExpressionFunction := string.

(** [AttributeContext], without the fields that are the same object in every
    context ([actions], [refs], [reactivity]) and the three bound methods.
    [ctx_store] is the store instance the context captured; [expressionFn]
    is [None] for the stub that throws 'Expression function not created'. *)
Record AttributeContext := {
  ctx_store : nat;
  ctx_el : nat;
  ctx_key : string;
  ctx_expression : string;
  ctx_expressionFn : option ExpressionFunction;
  ctx_modifiers : gmap string (list string)
}.

Record AttributePlugin := {
  prefix : string;
  requiredPluginPrefixes : option (list string);
  onGlobalInit : bool;
  onLoad : AttributeContext → option OnRemovalFn;
  allowedTagRegexps : option (list RegExp);
  allowedModifiers : option (gset string);
  mustHaveEmptyKey : bool;
  mustNotEmptyKey : bool;
  mustHaveEmptyExpression : bool;
  mustNotEmptyExpression : bool;
  preprocessors : option (list Preprocesser);
  bypassExpressionFunctionCreation : option (AttributeContext → bool)
}.

(** An element of the tree: identity, whether [toHTMLorSVGElement] accepts
    it, tag name, [dataset] in enumeration order, and element children.
    Its mutable [id] lives in the state ([elementId]). *)
#[warnings="-register-all"]
Inductive Element :=
  Elem (ref : nat) (isHTMLorSVG : bool) (tagName : string)
       (dataset : list (string * string)) (children : list Element).

Definition el_ref (e : Element) : nat := let 'Elem r _ _ _ _ := e in r.
Definition isHTMLorSVG (e : Element) : bool := let 'Elem _ b _ _ _ := e in b.
Definition tagName (e : Element) : string := let 'Elem _ _ t _ _ := e in t.
Definition dataset (e : Element) : list (string * string) :=
  let 'Elem _ _ _ d _ := e in d.
Definition children (e : Element) : list Element :=
  let 'Elem _ _ _ _ c := e in c.

(** The [Error]s the dispatcher throws, by message, and what can reach it
    from outside: the host's [TypeError] for [matchAll] with a pattern that
    lacks the [g] flag, its [RangeError] when the call stack is used up,
    and a value thrown by a closure of a plugin. *)
Inductive Error :=
| NoPluginsProvided
| PluginRequires (pluginPrefix required : string)
| TagNotAllowed (tag dsKey : string)
| MustHaveEmptyKey (dsKey : string)
| MustHaveNonEmptyKey (dsKey : string)
| ModifierNotAllowed (label : string)
| MustHaveEmptyExpression (dsKey : string)
| MustHaveNonEmptyExpression (dsKey : string)
| MatchAllWithoutGlobalFlag
| MaximumCallStackSizeExceeded
| Thrown (what : string).

(** What [console.error] was given. *)
Inductive ConsoleEntry :=
| SyntaxErrorOf (fnContent : string)
| Message (text : string).

(** Calls that leave the core. *)
Inductive Call :=
| CallOnGlobalInit (pi : nat) (storeHandle : nat)
| CallOnLoad (pi : nat) (ctx : AttributeContext)
| CallRemoval (fn : OnRemovalFn).

Definition isRemoval (c : Call) : bool :=
  match c with CallRemoval _ => true | _ => false end.

Definition onLoadOf (c : Call) : option (nat * AttributeContext) :=
  match c with CallOnLoad pi ctx => Some (pi, ctx) | _ => None end.

(** Completion of a piece of the callback's body. *)
Inductive Completion (A : Type) :=
| Normal (a : A)
| Return
| Throw (e : Error).
Arguments Normal {A} a.
Arguments Return {A}.
Arguments Throw {A} e.

(** [Set.add] on a set iterated in insertion order. *)
Definition set_add (fn : OnRemovalFn) (s : list OnRemovalFn) : list OnRemovalFn :=
  if bool_decide (fn ∈ s) then s else (s ++ [fn])%list.

Section Core.

(** The store collaborator: the value a store instance holds and the
    merge-patch [apply] of [external/ts-merge-patch]. *)
Context {DeepState : Type}.
Variable apply : DeepState → DeepState → DeepState.
Variable emptyObject : DeepState.

(** [new Function('ctx', body)]: [false] when the host throws instead. *)
Variable compiles : string → bool.

(** [plugins/core.ts] *)
Variable CorePlugins : list AttributePlugin.
Variable CorePreprocessors : list Preprocesser.

(** The fields of a [Datastar] instance ([plugins] to [removals]) and the
    part of the host it reads and writes: the store instances made so far
    ([signals], a store handle is an index into it), each element's [id],
    the console and the calls made. [actions], [refs] and [reactivity] are
    never written after construction and are left out. *)
Record State := {
  plugins : list AttributePlugin;
  store : nat;
  parentID : string;
  missingIDNext : nat;
  removals : gmap nat (list OnRemovalFn);
  signals : list DeepState;
  elementId : gmap nat string;
  console : list ConsoleEntry;
  calls : list Call
}.

Definition M (A : Type) : Type := State → Completion A * State.

Definition ret {A} (a : A) : M A := λ s, (Normal a, s).

Definition bind {A B} (m : M A) (k : A → M B) : M B :=
  λ s, match m s with
       | (Normal a, s') => k a s'
       | (Return, s') => (Return, s')
       | (Throw e, s') => (Throw e, s')
       end.

#[local] Notation "x <- m ;; k" := (bind m (λ x, k))
  (at level 100, m at next level, right associativity, only parsing).
#[local] Notation "m ;;; k" := (bind m (λ _, k))
  (at level 100, right associativity, only parsing).

Definition throw {A} (e : Error) : M A := λ s, (Throw e, s).
Definition return_ {A} : M A := λ s, (Return, s).
Definition gets {A} (f : State → A) : M A := λ s, (Normal (f s), s).
Definition modify (f : State → State) : M unit := λ s, (Normal tt, f s).
Definition when (b : bool) (m : M unit) : M unit := if b then m else ret tt.

(** The end of the callback: its [return] is a normal completion for the
    walker. *)
Definition endOfFunction (m : M unit) : M unit :=
  λ s, match m s with
       | (Return, s') => (Normal tt, s')
       | r => r
       end.

(** *** Writes to single fields *)

Definition set_missingIDNext (n : nat) (s : State) : State :=
  {| plugins := plugins s; store := store s; parentID := parentID s;
     missingIDNext := n; removals := removals s; signals := signals s;
     elementId := elementId s; console := console s; calls := calls s |}.

Definition set_removals (r : gmap nat (list OnRemovalFn)) (s : State) : State :=
  {| plugins := plugins s; store := store s; parentID := parentID s;
     missingIDNext := missingIDNext s; removals := r; signals := signals s;
     elementId := elementId s; console := console s; calls := calls s |}.

Definition set_elementId (m : gmap nat string) (s : State) : State :=
  {| plugins := plugins s; store := store s; parentID := parentID s;
     missingIDNext := missingIDNext s; removals := removals s;
     signals := signals s; elementId := m; console := console s;
     calls := calls s |}.

Definition set_store (h : nat) (heap : list DeepState) (s : State) : State :=
  {| plugins := plugins s; store := h; parentID := parentID s;
     missingIDNext := missingIDNext s; removals := removals s;
     signals := heap; elementId := elementId s; console := console s;
     calls := calls s |}.

Definition console_error (e : ConsoleEntry) : M unit :=
  modify (λ s,
    {| plugins := plugins s; store := store s; parentID := parentID s;
       missingIDNext := missingIDNext s; removals := removals s;
       signals := signals s; elementId := elementId s;
       console := (console s ++ [e])%list; calls := calls s |}).

Definition add_calls (cs : list Call) (s : State) : State :=
  {| plugins := plugins s; store := store s; parentID := parentID s;
     missingIDNext := missingIDNext s; removals := removals s;
     signals := signals s; elementId := elementId s;
     console := console s; calls := (calls s ++ cs)%list |}.

Definition call (c : Call) : M unit := modify (add_calls [c]).

(** [el.id] *)
Definition id_of (s : State) (r : nat) : string := default "" (elementId s !! r).

(** [this.store.value] of the instance behind a handle. *)
Definition value_of (s : State) (h : nat) : DeepState :=
  default emptyObject (signals s !! h).

Fixpoint forEach {A} (l : list A) (f : A → M unit) : M unit :=
  match l with
  | [] => ret tt
  | x :: l' => f x ;;; forEach l' f
  end.

(** [array.forEach((x, i) => ...)], from index [i]. *)
Fixpoint forEachIndexed {A} (l : list A) (i : nat) (f : A → nat → M unit)
  : M unit :=
  match l with
  | [] => ret tt
  | x :: l' => f x i ;;; forEachIndexed l' (S i) f
  end.

(** *** [constructor] *)

(** The inner loop over [p.requiredPluginPrefixes]. *)
Fixpoint checkRequired (p : AttributePlugin) (required : list string)
    (allPluginPrefixes : gset string) : option Error :=
  match required with
  | [] => None
  | requiredPluginType :: rest =>
      if bool_decide (requiredPluginType ∈ allPluginPrefixes)
      then checkRequired p rest allPluginPrefixes
      else Some (PluginRequires (prefix p) requiredPluginType)
  end.

(** The loop over [plugins]; [registered] is [this.plugins]. *)
Fixpoint registerAll (ps : list AttributePlugin)
    (allPluginPrefixes : gset string) (registered : list AttributePlugin)
  : Error + list AttributePlugin :=
  match ps with
  | [] => inr registered
  | p :: rest =>
      match checkRequired p (default [] (requiredPluginPrefixes p))
              allPluginPrefixes with
      | Some e => inl e
      | None =>
          registerAll rest ({[prefix p]} ∪ allPluginPrefixes)
            (registered ++ [p])%list
      end
  end.

(** [new Datastar(actions, ...plugins)] in a document whose elements have
    the ids [ids]. *)
Definition constructor (ids : gmap nat string)
    (userPlugins : list AttributePlugin) : Error + State :=
  let plugins := (CorePlugins ++ userPlugins)%list in
  if bool_decide (length plugins = 0) then inl NoPluginsProvided
  else match registerAll plugins ∅ [] with
       | inl e => inl e
       | inr registered =>
           inr {| plugins := registered; store := 0; parentID := "";
                  missingIDNext := 0; removals := ∅;
                  signals := [emptyObject]; elementId := ids;
                  console := []; calls := [] |}
       end.

(** *** [cleanupElementRemovals] and [mergeStore] *)

Definition cleanupElementRemovals (element : nat) : M unit :=
  removalSet <- gets (λ s, removals s !! element) ;;
  match removalSet with
  | Some fns =>
      forEach fns (λ removal, call (CallRemoval removal)) ;;;
      modify (λ s, set_removals (delete element (removals s)) s)
  | None => ret tt
  end.

(** [deepSignal(revisedStore)] makes a new instance; [this.store] is
    pointed at it. *)
Definition mergeStore (patch : DeepState) : M unit :=
  modify (λ s,
    let revisedStore := apply (value_of s (store s)) patch in
    set_store (length (signals s)) (signals s ++ [revisedStore])%list s).

(** *** The body of [applyPlugins] *)

Definition applyMatch (processor : Preprocesser) (expression : string)
    (m : RegExpMatch) : string :=
  match groups m with
  | None => expression
  | Some g =>
      let whole := default "undefined" (g !! "whole") in
      JS.replace expression whole (replacer processor g)
  end.

(** The loop over [processors], lines 152-164. *)
Fixpoint runProcessors (processors : list Preprocesser)
    (appliedProcessors : gset nat) (expression : string)
  : gset nat * string :=
  match processors with
  | [] => (appliedProcessors, expression)
  | processor :: rest =>
      if bool_decide (pp_ref processor ∈ appliedProcessors)
      then runProcessors rest appliedProcessors expression
      else
        let appliedProcessors := {[pp_ref processor]} ∪ appliedProcessors in
        let found := matchAll (regexp processor) expression in
        runProcessors rest appliedProcessors
          (fold_left (applyMatch processor) found expression)
  end.

(** [appliedProcessors] is cleared (line 101) before every use, so each
    attribute occurrence starts from the empty set. *)
Definition preprocess (p : AttributePlugin) (expression : string) : string :=
  let processors :=
    (CorePreprocessors ++ default [] (preprocessors p))%list in
  (runProcessors processors ∅ expression).2.

Definition parseModifier (m : string) : string * list string :=
  let parts := JS.split "_" m in (hd "" parts, tl parts).

(** [key[0].toLowerCase() + key.slice(1)] *)
Definition lowerFirst (key : string) : string :=
  match key with
  | String c rest => String (JS.lowerChar c) rest
  | EmptyString => EmptyString
  end.

Definition missingID (parent : string) (n : nat) : string :=
  "ds-" +:+ parent +:+ "-" +:+ pretty n.

(** [n++] on the number held by [this.missingIDNext]. Every natural number
    up to [2^53] is a double; [2^53 + 1] is not, and the sum rounds back to
    [2^53], so from there on the field keeps its value. The field starts at
    0 and is written nowhere else, so it holds no larger number. *)
Definition increment (n : nat) : nat :=
  if (N.of_nat n <? 2 ^ 53)%N then S n else n.

(** Lines 97-99. *)
Definition assignMissingID (el : Element) : M unit :=
  id <- gets (λ s, id_of s (el_ref el)) ;;
  when (bool_decide (String.length id = 0))
    (modify (λ s,
       set_missingIDNext (increment (missingIDNext s))
         (set_elementId
            (<[el_ref el := missingID (parentID s) (missingIDNext s)]>
               (elementId s)) s))).

(** Lines 185-187. *)
Definition functionContent (expression : string) : string :=
  let lines := JS.split ";" expression in
  let last := length lines - 1 in
  JS.join ";" (<[last := "return " +:+ default "" (lines !! last)]> lines).

(** Lines 200-203. *)
Definition addRemoval (el : nat) (removal : OnRemovalFn) : M unit :=
  modify (λ s,
    set_removals
      (<[el := set_add removal (default [] (removals s !! el))]> (removals s))
      s).

(** Lines 151-204: preprocessing, the context, the expression function
    and the plugin's [onLoad], for a validated attribute occurrence. *)
Definition invokePlugin (p : AttributePlugin) (pi : nat) (el : Element)
    (key : string) (modifiers : gmap string (list string))
    (expression : string) : M unit :=
  let expression := preprocess p expression in
  store <- gets store ;;
  let ctx :=
    {| ctx_store := store; ctx_el := el_ref el; ctx_key := key;
       ctx_expression := expression; ctx_expressionFn := None;
       ctx_modifiers := modifiers |} in
  let bypass :=
    match bypassExpressionFunctionCreation p with
    | Some f => f ctx
    | None => false
    end in
  ctx <-
    (if negb bypass && negb (mustHaveEmptyExpression p)
        && negb (bool_decide (String.length expression = 0))
     then
       let fnContent := functionContent expression in
       if compiles fnContent
       then ret {| ctx_store := store; ctx_el := el_ref el;
                   ctx_key := key; ctx_expression := expression;
                   ctx_expressionFn := Some fnContent;
                   ctx_modifiers := modifiers |}
       else
         console_error (SyntaxErrorOf fnContent) ;;;
         id <- gets (λ s, id_of s (el_ref el)) ;;
         console_error
           (Message ("Error evaluating expression '" +:+ fnContent
                     +:+ "' on "
                     +:+ (if bool_decide (String.length id = 0)
                          then tagName el else "#" +:+ id))) ;;;
         return_
     else ret ctx) ;;
  call (CallOnLoad pi ctx) ;;;
  match onLoad p ctx with
  | Some removal => addRemoval (el_ref el) removal
  | None => ret tt
  end.

(** Lines 101-204: what is done with an attribute whose name starts with
    the plugin's prefix, once the element has an id. *)
Definition processAttribute (p : AttributePlugin) (pi : nat) (el : Element)
    (dsKey expression : string) : M unit :=
  match allowedTagRegexps p with
  | Some regexps =>
      let lowerCaseTag := JS.toLowerCase (tagName el) in
      let allowed := existsb (λ r, matches r lowerCaseTag) regexps in
      when (negb allowed) (throw (TagNotAllowed (tagName el) dsKey))
  | None => ret tt
  end ;;;
  let keyRaw := JS.slice dsKey (String.length (prefix p)) in
  let parts := JS.split "." keyRaw in
  let key := hd "" parts in
  let modifiersWithArgsArr := tl parts in
  when (mustHaveEmptyKey p && negb (bool_decide (String.length key = 0)))
    (throw (MustHaveEmptyKey dsKey)) ;;;
  when (mustNotEmptyKey p && bool_decide (String.length key = 0))
    (throw (MustHaveNonEmptyKey dsKey)) ;;;
  let key := lowerFirst key in
  let modifiersArr := parseModifier <$> modifiersWithArgsArr in
  match allowedModifiers p with
  | Some allowed =>
      forEach modifiersArr (λ modifier,
        when (negb (bool_decide (modifier.1 ∈ allowed)))
          (throw (ModifierNotAllowed modifier.1)))
  | None => ret tt
  end ;;;
  let modifiers : gmap string (list string) :=
    fold_left (λ acc modifier, <[modifier.1 := modifier.2]> acc)
      modifiersArr ∅ in
  when (mustHaveEmptyExpression p
        && negb (bool_decide (String.length expression = 0)))
    (throw (MustHaveEmptyExpression dsKey)) ;;;
  when (mustNotEmptyExpression p
        && bool_decide (String.length expression = 0))
    (throw (MustHaveNonEmptyExpression dsKey)) ;;;
  invokePlugin p pi el key modifiers expression.

(** One turn of [for (const dsKey in el.dataset)], lines 93-204. *)
Definition attribute (p : AttributePlugin) (pi : nat) (el : Element)
    (dsKey value : string) : M unit :=
  let expression := value in
  if negb (JS.startsWith dsKey (prefix p)) then ret tt
  else assignMissingID el ;;; processAttribute p pi el dsKey expression.

(** The callback given to [walkDownDOM], lines 89-206. *)
Definition callback (p : AttributePlugin) (pi : nat) (el : Element) : M unit :=
  endOfFunction
    (when (bool_decide (pi = 0)) (cleanupElementRemovals (el_ref el)) ;;;
     forEach (dataset el) (λ kv, attribute p pi el kv.1 kv.2)).

(** [walkDownDOM]: the element, then its element children in order. *)
Fixpoint walkDownDOM (element : Element) (cb : Element → M unit) : M unit :=
  if negb (isHTMLorSVG element) then ret tt
  else
    cb element ;;;
    (fix siblings (cs : list Element) : M unit :=
       match cs with
       | [] => ret tt
       | c :: cs' => walkDownDOM c cb ;;; siblings cs'
       end) (children element).

Definition applyPlugins (rootElement : Element) : M unit :=
  ps <- gets plugins ;;
  forEachIndexed ps 0 (λ p pi, walkDownDOM rootElement (callback p pi)).

(** [run], with [document.body] as argument. *)
Definition run (body : Element) : M unit :=
  ps <- gets plugins ;;
  forEachIndexed ps 0 (λ p pi,
    when (onGlobalInit p)
      (h <- gets store ;; call (CallOnGlobalInit pi h))) ;;;
  applyPlugins body.

End Core.

(** ** The dispatcher with closures that act

    In [Core] a handler, a hook and a teardown are known by what they
    return. A closure of a plugin can do more: every attribute context
    carries [mergeStore], [applyPlugins] and [cleanupElementRemovals] bound
    to the dispatcher (lines 168-170), [onGlobalInit] is given [mergeStore]
    (line 59), and a closure can throw. Here a closure is known, besides,
    by the calls it makes through what it was given, in order, and by
    whether it then throws. The definitions of this module are those of
    [Core] with the closures' conduct run where the source calls the
    closure, and with the host's [TypeError] for [matchAll] on a pattern
    without the [g] flag. With closures that make no call and do not throw,
    and patterns that are global, they are the definitions of [Core]
    ([quiet_applyPlugins] and the lemmas before it). A closure does not
    catch what one of its calls throws. *)

Module Reentrant.

(** A call of one of the three bound methods. *)
#[warnings="-register-all"]
Inductive Use (DeepState : Type) :=
| UseMergeStore (patch : DeepState)
| UseApplyPlugins (rootElement : Element)
| UseCleanupElementRemovals (element : nat).
Arguments UseMergeStore {DeepState} patch.
Arguments UseApplyPlugins {DeepState} rootElement.
Arguments UseCleanupElementRemovals {DeepState} element.

(** What a closure does when it is called: the calls it makes, in order,
    and the value it throws at the end instead of returning, if any. *)
Record Conduct (DeepState : Type) := {
  uses : list (Use DeepState);
  raises : option Error
}.
Arguments uses {DeepState} c.
Arguments raises {DeepState} c.

(** The conduct of the closures of the plugins: of [onLoad] and
    [bypassExpressionFunctionCreation] of the plugin at an index, for the
    context they are given; of a teardown; of [onGlobalInit] of the plugin
    at an index, for the store it is given, which can only merge; of the
    replacer of a preprocessor, for the groups it is given, which is given
    no method and can only throw. *)
Record Closures (DeepState : Type) := {
  onLoadConduct : nat → AttributeContext → Conduct DeepState;
  bypassConduct : nat → AttributeContext → Conduct DeepState;
  removalConduct : OnRemovalFn → Conduct DeepState;
  onGlobalInitMerges : nat → nat → list DeepState;
  onGlobalInitRaises : nat → nat → option Error;
  replacerRaises : Preprocesser → gmap string string → option Error
}.
Arguments onLoadConduct {DeepState} c pi ctx.
Arguments bypassConduct {DeepState} c pi ctx.
Arguments removalConduct {DeepState} c removal.
Arguments onGlobalInitMerges {DeepState} c pi storeHandle.
Arguments onGlobalInitRaises {DeepState} c pi storeHandle.
Arguments replacerRaises {DeepState} c processor groups.

Section Dispatcher.

Context {DeepState : Type}.
Variable apply : DeepState → DeepState → DeepState.
Variable emptyObject : DeepState.
Variable compiles : string → bool.
Variable CorePreprocessors : list Preprocesser.
Variable closures : Closures DeepState.

#[local] Notation "x <- m ;; k" := (bind m (λ x, k))
  (at level 100, m at next level, right associativity, only parsing).
#[local] Notation "m ;;; k" := (bind m (λ _, k))
  (at level 100, right associativity, only parsing).

(** The three methods as a closure can call them. *)
Record Methods := {
  this_mergeStore : DeepState → @M DeepState unit;
  this_applyPlugins : Element → @M DeepState unit;
  this_cleanupElementRemovals : nat → @M DeepState unit
}.

(** A call of a method: it completes normally or throws. *)
Definition act (this : Methods) (u : Use DeepState) : @M DeepState unit :=
  endOfFunction
    match u with
    | UseMergeStore patch => this_mergeStore this patch
    | UseApplyPlugins rootElement => this_applyPlugins this rootElement
    | UseCleanupElementRemovals element =>
        this_cleanupElementRemovals this element
    end.

(** A closure runs: its calls, then its [throw] if it has one. *)
Definition behave (this : Methods) (c : Conduct DeepState)
    : @M DeepState unit :=
  forEach (uses c) (act this) ;;;
  match raises c with
  | Some e => throw e
  | None => ret tt
  end.

(** [cleanupElementRemovals], lines 66-74: a teardown that throws leaves
    the loop, and the method, before [this.removals.delete(element)]. *)
Definition cleanupElementRemovals (this : Methods) (element : nat)
    : @M DeepState unit :=
  removalSet <- gets (λ s, removals s !! element) ;;
  match removalSet with
  | Some fns =>
      forEach fns (λ removal,
        call (CallRemoval removal) ;;;
        behave this (removalConduct closures removal)) ;;;
      modify (λ s, set_removals (delete element (removals s)) s)
  | None => ret tt
  end.

(** The loop over [matches], lines 157-162: the replacer can throw. *)
Fixpoint applyMatches (processor : Preprocesser) (found : list RegExpMatch)
    (expression : string) : Error + string :=
  match found with
  | [] => inr expression
  | m :: rest =>
      match groups m with
      | None => applyMatches processor rest expression
      | Some g =>
          match replacerRaises closures processor g with
          | Some e => inl e
          | None =>
              applyMatches processor rest (applyMatch processor expression m)
          end
      end
  end.

(** The loop over [processors], lines 152-164: [expression.matchAll] throws
    a [TypeError] when the pattern is not global. *)
Fixpoint runProcessors (processors : list Preprocesser)
    (appliedProcessors : gset nat) (expression : string)
  : Error + gset nat * string :=
  match processors with
  | [] => inr (appliedProcessors, expression)
  | processor :: rest =>
      if bool_decide (pp_ref processor ∈ appliedProcessors)
      then runProcessors rest appliedProcessors expression
      else
        let appliedProcessors := {[pp_ref processor]} ∪ appliedProcessors in
        if negb (global (regexp processor))
        then inl MatchAllWithoutGlobalFlag
        else
          let found := matchAll (regexp processor) expression in
          match applyMatches processor found expression with
          | inl e => inl e
          | inr expression => runProcessors rest appliedProcessors expression
          end
  end.

Definition preprocess (p : AttributePlugin) (expression : string)
    : Error + string :=
  let processors :=
    (CorePreprocessors ++ default [] (preprocessors p))%list in
  match runProcessors processors ∅ expression with
  | inl e => inl e
  | inr (_, expression) => inr expression
  end.

(** Lines 151-204. The context is made, with the store current then,
    before [bypassExpressionFunctionCreation] is called; [onLoad] runs
    between its call and the registration of what it returns. *)
Definition invokePlugin (this : Methods) (p : AttributePlugin) (pi : nat)
    (el : Element) (key : string) (modifiers : gmap string (list string))
    (expression : string) : @M DeepState unit :=
  match preprocess p expression with
  | inl e => throw e
  | inr expression =>
      store <- gets store ;;
      let ctx :=
        {| ctx_store := store; ctx_el := el_ref el; ctx_key := key;
           ctx_expression := expression; ctx_expressionFn := None;
           ctx_modifiers := modifiers |} in
      bypass <-
        match bypassExpressionFunctionCreation p with
        | Some f => behave this (bypassConduct closures pi ctx) ;;; ret (f ctx)
        | None => ret false
        end ;;
      ctx <-
        (if negb bypass && negb (mustHaveEmptyExpression p)
            && negb (bool_decide (String.length expression = 0))
         then
           let fnContent := functionContent expression in
           if compiles fnContent
           then ret {| ctx_store := store; ctx_el := el_ref el;
                       ctx_key := key; ctx_expression := expression;
                       ctx_expressionFn := Some fnContent;
                       ctx_modifiers := modifiers |}
           else
             console_error (SyntaxErrorOf fnContent) ;;;
             id <- gets (λ s, id_of s (el_ref el)) ;;
             console_error
               (Message ("Error evaluating expression '" +:+ fnContent
                         +:+ "' on "
                         +:+ (if bool_decide (String.length id = 0)
                              then tagName el else "#" +:+ id))) ;;;
             return_
         else ret ctx) ;;
      call (CallOnLoad pi ctx) ;;;
      behave this (onLoadConduct closures pi ctx) ;;;
      match onLoad p ctx with
      | Some removal => addRemoval (el_ref el) removal
      | None => ret tt
      end
  end.

(** Lines 101-204, as in [Core]. *)
Definition processAttribute (this : Methods) (p : AttributePlugin) (pi : nat)
    (el : Element) (dsKey expression : string) : @M DeepState unit :=
  match allowedTagRegexps p with
  | Some regexps =>
      let lowerCaseTag := JS.toLowerCase (tagName el) in
      let allowed := existsb (λ r, matches r lowerCaseTag) regexps in
      when (negb allowed) (throw (TagNotAllowed (tagName el) dsKey))
  | None => ret tt
  end ;;;
  let keyRaw := JS.slice dsKey (String.length (prefix p)) in
  let parts := JS.split "." keyRaw in
  let key := hd "" parts in
  let modifiersWithArgsArr := tl parts in
  when (mustHaveEmptyKey p && negb (bool_decide (String.length key = 0)))
    (throw (MustHaveEmptyKey dsKey)) ;;;
  when (mustNotEmptyKey p && bool_decide (String.length key = 0))
    (throw (MustHaveNonEmptyKey dsKey)) ;;;
  let key := lowerFirst key in
  let modifiersArr := parseModifier <$> modifiersWithArgsArr in
  match allowedModifiers p with
  | Some allowed =>
      forEach modifiersArr (λ modifier,
        when (negb (bool_decide (modifier.1 ∈ allowed)))
          (throw (ModifierNotAllowed modifier.1)))
  | None => ret tt
  end ;;;
  let modifiers : gmap string (list string) :=
    fold_left (λ acc modifier, <[modifier.1 := modifier.2]> acc)
      modifiersArr ∅ in
  when (mustHaveEmptyExpression p
        && negb (bool_decide (String.length expression = 0)))
    (throw (MustHaveEmptyExpression dsKey)) ;;;
  when (mustNotEmptyExpression p
        && bool_decide (String.length expression = 0))
    (throw (MustHaveNonEmptyExpression dsKey)) ;;;
  invokePlugin this p pi el key modifiers expression.

Definition attribute (this : Methods) (p : AttributePlugin) (pi : nat)
    (el : Element) (dsKey value : string) : @M DeepState unit :=
  let expression := value in
  if negb (JS.startsWith dsKey (prefix p)) then ret tt
  else assignMissingID el ;;; processAttribute this p pi el dsKey expression.

Definition callback (this : Methods) (p : AttributePlugin) (pi : nat)
    (el : Element) : @M DeepState unit :=
  endOfFunction
    (when (bool_decide (pi = 0)) (cleanupElementRemovals this (el_ref el)) ;;;
     forEach (dataset el) (λ kv, attribute this p pi el kv.1 kv.2)).

Definition applyPlugins (this : Methods) (rootElement : Element)
    : @M DeepState unit :=
  ps <- gets plugins ;;
  forEachIndexed ps 0 (λ p pi, walkDownDOM rootElement (callback this p pi)).

(** No stack is left: a call throws the host's [RangeError]. *)
Definition exhausted : Methods :=
  {| this_mergeStore := λ _, throw MaximumCallStackSizeExceeded;
     this_applyPlugins := λ _, throw MaximumCallStackSizeExceeded;
     this_cleanupElementRemovals := λ _, throw MaximumCallStackSizeExceeded |}.

(** The methods bound to the dispatcher, for a closure that is called with
    room for [depth] nested calls on the stack. *)
Fixpoint bound (depth : nat) : Methods :=
  match depth with
  | O => exhausted
  | S depth' =>
      {| this_mergeStore := mergeStore apply emptyObject;
         this_applyPlugins := applyPlugins (bound depth');
         this_cleanupElementRemovals :=
           cleanupElementRemovals (bound depth') |}
  end.

(** [run], with [document.body] as argument: each hook is given the store
    that is current when it is called, and can merge into it. *)
Definition run (depth : nat) (body : Element) : @M DeepState unit :=
  ps <- gets plugins ;;
  forEachIndexed ps 0 (λ p pi,
    when (onGlobalInit p)
      (h <- gets store ;;
       call (CallOnGlobalInit pi h) ;;;
       forEach (onGlobalInitMerges closures pi h)
         (mergeStore apply emptyObject) ;;;
       match onGlobalInitRaises closures pi h with
       | Some e => throw e
       | None => ret tt
       end)) ;;;
  applyPlugins (bound depth) body.

End Dispatcher.

End Reentrant.

(** ** Vocabulary of the statements *)

(** Every required prefix is the prefix of a plugin at a smaller index. *)
Definition providedEarlier (ps : list AttributePlugin) : Prop :=
  ∀ i p r, ps !! i = Some p → r ∈ default [] (requiredPluginPrefixes p) →
    ∃ j q, j < i ∧ ps !! j = Some q ∧ prefix q = r.

(** The elements [walkDownDOM] calls back on, in order. *)
Fixpoint visited (element : Element) : list Element :=
  if negb (isHTMLorSVG element) then []
  else
    element
    :: (fix siblings (cs : list Element) : list Element :=
          match cs with
          | [] => []
          | c :: cs' => (visited c ++ siblings cs')%list
          end) (children element).

(** The loop of [walkDownDOM] over the element children. *)
Definition walkSiblings {DeepState : Type} (cb : Element → @M DeepState unit)
    : list Element → M unit :=
  fix siblings (cs : list Element) : M unit :=
    match cs with
    | [] => ret tt
    | c :: cs' => bind (walkDownDOM c cb) (λ _, siblings cs')
    end.

(** [Step R m]: running [m] takes every state to an [R]-related one,
    however it completes. *)
Definition Step {DeepState : Type} (R : relation (@State DeepState)) {A}
    (m : M A) : Prop :=
  ∀ s, R s (m s).2.

(** The state after [cleanupElementRemovals el]. *)
Definition flushed {DeepState : Type} (el : nat) (s : @State DeepState)
    : State :=
  match removals s !! el with
  | Some fns =>
      set_removals (delete el (removals s)) (add_calls (CallRemoval <$> fns) s)
  | None => s
  end.

(** One application of a preprocessor: a single [matchAll] over the text as
    it stands, then one [replace] for each match found by it. *)
Definition applyProcessor (processor : Preprocesser) (expression : string)
    : string :=
  fold_left (applyMatch processor) (matchAll (regexp processor) expression)
    expression.

(** The first occurrence of each preprocessor identity not in [seen]. *)
Fixpoint firstByRef (processors : list Preprocesser) (seen : gset nat)
    : list Preprocesser :=
  match processors with
  | [] => []
  | processor :: rest =>
      if bool_decide (pp_ref processor ∈ seen) then firstByRef rest seen
      else processor :: firstByRef rest ({[pp_ref processor]} ∪ seen)
  end.

(** The four validations of an attribute occurrence, each as the error it
    raises when the occurrence is checked by it alone. *)
Definition tagViolation (p : AttributePlugin) (el : Element) (dsKey : string)
    : option Error :=
  match allowedTagRegexps p with
  | Some regexps =>
      if existsb (λ r, matches r (JS.toLowerCase (tagName el))) regexps
      then None else Some (TagNotAllowed (tagName el) dsKey)
  | None => None
  end.

Definition keyOf (p : AttributePlugin) (dsKey : string) : string :=
  hd "" (JS.split "." (JS.slice dsKey (String.length (prefix p)))).

Definition keyViolation (p : AttributePlugin) (dsKey : string) : option Error :=
  if mustHaveEmptyKey p && negb (bool_decide (String.length (keyOf p dsKey) = 0))
  then Some (MustHaveEmptyKey dsKey)
  else if mustNotEmptyKey p && bool_decide (String.length (keyOf p dsKey) = 0)
  then Some (MustHaveNonEmptyKey dsKey)
  else None.

Definition modifierLabels (p : AttributePlugin) (dsKey : string) : list string :=
  (λ m, (parseModifier m).1)
    <$> tl (JS.split "." (JS.slice dsKey (String.length (prefix p)))).

Definition modifierViolation (p : AttributePlugin) (dsKey : string)
    : option Error :=
  match allowedModifiers p with
  | Some allowed =>
      ModifierNotAllowed
        <$> List.find (λ l, negb (bool_decide (l ∈ allowed)))
              (modifierLabels p dsKey)
  | None => None
  end.

Definition expressionViolation (p : AttributePlugin) (dsKey expression : string)
    : option Error :=
  if mustHaveEmptyExpression p
     && negb (bool_decide (String.length expression = 0))
  then Some (MustHaveEmptyExpression dsKey)
  else if mustNotEmptyExpression p
          && bool_decide (String.length expression = 0)
  then Some (MustHaveNonEmptyExpression dsKey)
  else None.

(** The error of the first check that fails. *)
Fixpoint firstError (checks : list (option Error)) : option Error :=
  match checks with
  | [] => None
  | Some e :: _ => Some e
  | None :: rest => firstError rest
  end.

(** The order the specification gives: key, tag, modifiers, expression. *)
Definition violationInStatedOrder (p : AttributePlugin) (el : Element)
    (dsKey expression : string) : option Error :=
  firstError [keyViolation p dsKey; tagViolation p el dsKey;
              modifierViolation p dsKey; expressionViolation p dsKey expression].

(** The order of lines 103-149: tag, key, modifiers, expression. *)
Definition violationInSourceOrder (p : AttributePlugin) (el : Element)
    (dsKey expression : string) : option Error :=
  firstError [tagViolation p el dsKey; keyViolation p dsKey;
              modifierViolation p dsKey; expressionViolation p dsKey expression].

(** The writes of lines 101-204 for plugin [pi] on element [el] each make
    an [R]-step. *)
Definition AttributeWrites {DeepState : Type} (R : relation (@State DeepState))
    (pi : nat) (el : Element) : Prop :=
  (∀ e, Step R (console_error e))
  ∧ (∀ ctx, ctx_el ctx = el_ref el → Step R (call (CallOnLoad pi ctx)))
  ∧ (∀ removal, Step R (addRemoval (el_ref el) removal)).

(** No element id, and not the counter, is written. *)
Definition sameIds {DeepState : Type} (s s' : @State DeepState) : Prop :=
  elementId s' = elementId s ∧ missingIDNext s' = missingIDNext s
  ∧ parentID s' = parentID s.

(** The same, when element [el] has an id to begin with. *)
Definition sameIdsFrom {DeepState : Type} (el : nat) (s s' : @State DeepState)
    : Prop :=
  id_of s el ≠ "" → sameIds s s'.

(** From [s] to [s'] the elements [es], which had no id, were given the ids
    made from the successive values of the counter, in this order, and no
    other id was written. *)
Definition idsAssigned {DeepState : Type} (s s' : @State DeepState) : Prop :=
  ∃ es : list nat,
    NoDup es
    ∧ missingIDNext s' = missingIDNext s + length es
    ∧ parentID s' = parentID s
    ∧ (∀ k e, es !! k = Some e →
         id_of s e = ""
         ∧ id_of s' e = missingID (parentID s) (missingIDNext s + k))
    ∧ (∀ e, e ∉ es → id_of s' e = id_of s e).

(** The counter can still be incremented. *)
Definition belowLimit (n : nat) : Prop := (N.of_nat n < 2 ^ 53)%N.

(** From [s] to [s'] the counter does not decrease, and while it stays
    below the limit the ids given are made from its successive values. *)
Definition countsUp {DeepState : Type} (s s' : @State DeepState) : Prop :=
  (missingIDNext s ≤ missingIDNext s')%nat
  ∧ (belowLimit (missingIDNext s') → idsAssigned s s').

(** From [s] to [s'] an element that has an id keeps it. *)
Definition idsKept {DeepState : Type} (s s' : @State DeepState) : Prop :=
  ∀ e, id_of s e ≠ "" → id_of s' e = id_of s e.

(** The teardowns registered for an element. *)
Definition registered {DeepState : Type} (s : @State DeepState) (e : nat)
    : list OnRemovalFn :=
  default [] (removals s !! e).

(** From [s] to [s'] the only calls made are [onLoad] calls on element [el];
    no other element's registry entry is written and the entry of [el], if
    there is one, only grows. *)
Definition loadsOn {DeepState : Type} (el : nat) (s s' : @State DeepState)
    : Prop :=
  (∃ t, calls s' = (calls s ++ t)%list
        ∧ Forall (λ c, ∃ pi ctx, c = CallOnLoad pi ctx ∧ ctx_el ctx = el) t)
  ∧ (∀ e, e ≠ el → removals s' !! e = removals s !! e)
  ∧ (∀ fns, removals s !! el = Some fns →
       ∃ fns', removals s' !! el = Some fns' ∧ fns ⊆ fns').

(** From [s] to [s'] no teardown is called and no registry entry is
    deleted or shrunk. *)
Definition neverFlushes {DeepState : Type} (s s' : @State DeepState) : Prop :=
  (∃ t, calls s' = (calls s ++ t)%list ∧ Forall (λ c, isRemoval c = false) t)
  ∧ (∀ e fns, removals s !! e = Some fns →
       ∃ fns', removals s' !! e = Some fns' ∧ fns ⊆ fns').

(** From [s] to [s'] the only calls made are [onLoad] calls on elements the
    walk from [root] visits, and no registry entry is deleted or shrunk. *)
Definition loadsOnVisited {DeepState : Type} (root : Element)
    (s s' : @State DeepState) : Prop :=
  (∃ t, calls s' = (calls s ++ t)%list
        ∧ Forall (λ c, ∃ pi ctx el, c = CallOnLoad pi ctx
                                    ∧ el ∈ visited root
                                    ∧ ctx_el ctx = el_ref el) t)
  ∧ (∀ e fns, removals s !! e = Some fns →
       ∃ fns', removals s' !! e = Some fns' ∧ fns ⊆ fns').

(** In the calls made from [s] to [s'], every [onLoad] call on an element
    comes after the calls of all the teardowns that were registered for that
    element in [s]; a teardown registered in [s] and not called is still
    registered in [s']. *)
Definition flushedBeforeLoad {DeepState : Type} (s s' : @State DeepState)
    : Prop :=
  ∃ t, calls s' = (calls s ++ t)%list
       ∧ (∀ t1 pi ctx t2, t = (t1 ++ CallOnLoad pi ctx :: t2)%list →
            ∀ fn, fn ∈ registered s (ctx_el ctx) → CallRemoval fn ∈ t1)
       ∧ (∀ e fn, fn ∈ registered s e →
            fn ∈ registered s' e ∨ CallRemoval fn ∈ t).

(** The [onLoad] calls of a state: plugin index, element and parsed key. *)
Definition loads {DeepState : Type} (s : @State DeepState)
    : list (nat * nat * string) :=
  omap (λ c, (λ '(pi, ctx), (pi, ctx_el ctx, ctx_key ctx)) <$> onLoadOf c)
    (calls s).


(** The calls of the [onGlobalInit] loop of [run]: one for each plugin that
    has the hook, in registration order, with the store handle [h]. *)
Fixpoint globalInits (ps : list AttributePlugin) (i : nat) (h : nat)
    : list Call :=
  match ps with
  | [] => []
  | p :: ps' =>
      ((if onGlobalInit p then [CallOnGlobalInit i h] else [])
       ++ globalInits ps' (S i) h)%list
  end.

(** The modifiers map of lines 128-142 for an attribute name. *)
Definition modifiersOf (p : AttributePlugin) (dsKey : string)
    : gmap string (list string) :=
  fold_left (λ acc modifier, <[modifier.1 := modifier.2]> acc)
    (parseModifier
       <$> tl (JS.split "." (JS.slice dsKey (String.length (prefix p))))) ∅.

(** [m] throws only errors in [E], and completes by the callback's
    [return] only if [mayReturn]. *)
Definition Ends {DeepState A : Type} (E : Error → Prop) (mayReturn : Prop)
    (m : @M DeepState A) : Prop :=
  ∀ s, match (m s).1 with
       | Normal _ => True
       | Return => mayReturn
       | Throw e => E e
       end.

(** [e] is the validation error of an attribute of an element that the walk
    from [root] visits, for one of the plugins [ps]. *)
Definition rejects (ps : list AttributePlugin) (root : Element) (e : Error)
    : Prop :=
  ∃ p el dsKey value,
    p ∈ ps ∧ el ∈ visited root ∧ (dsKey, value) ∈ dataset el
    ∧ JS.startsWith dsKey (prefix p) = true
    ∧ violationInSourceOrder p el dsKey value = Some e.

(** The plugin indexes of the [onLoad] calls in a list of calls. *)
Definition loadIndexes (t : list Call) : list nat :=
  omap (λ c, fst <$> onLoadOf c) t.

(** From [s] to [s'] every [onLoad] call made is by plugin [i]. *)
Definition loadsOfPlugin {DeepState : Type} (i : nat) (s s' : @State DeepState)
    : Prop :=
  ∃ t, calls s' = (calls s ++ t)%list
       ∧ Forall (λ c, ∀ pi ctx, c = CallOnLoad pi ctx → pi = i) t.

(** What the host and the plugins can ask of a dispatcher once it is
    constructed. *)
Inductive Operation (DeepState : Type) :=
| OpRun (body : Element)
| OpApplyPlugins (rootElement : Element)
| OpMergeStore (patch : DeepState)
| OpCleanupElementRemovals (element : nat).
Arguments OpRun {DeepState} body.
Arguments OpApplyPlugins {DeepState} rootElement.
Arguments OpMergeStore {DeepState} patch.
Arguments OpCleanupElementRemovals {DeepState} element.

Definition perform {DeepState : Type} (apply : DeepState → DeepState → DeepState)
    (emptyObject : DeepState) (compiles : string → bool)
    (CorePreprocessors : list Preprocesser) (op : Operation DeepState)
    : M unit :=
  match op with
  | OpRun body => run compiles CorePreprocessors body
  | OpApplyPlugins rootElement =>
      applyPlugins compiles CorePreprocessors rootElement
  | OpMergeStore patch => mergeStore apply emptyObject patch
  | OpCleanupElementRemovals element => cleanupElementRemovals element
  end.

(** The state after a sequence of operations; an operation that throws
    leaves the dispatcher in the state it had reached. *)
Fixpoint performAll {DeepState : Type}
    (apply : DeepState → DeepState → DeepState) (emptyObject : DeepState)
    (compiles : string → bool) (CorePreprocessors : list Preprocesser)
    (ops : list (Operation DeepState)) (s : State) : State :=
  match ops with
  | [] => s
  | op :: ops' =>
      performAll apply emptyObject compiles CorePreprocessors ops'
        (perform apply emptyObject compiles CorePreprocessors op s).2
  end.

(** What every state of a dispatcher's lifetime satisfies. *)
Definition WellFormed {DeepState : Type} (ps : list AttributePlugin)
    (s : @State DeepState) : Prop :=
  plugins s = ps
  ∧ parentID s = ""
  ∧ store s < length (signals s)
  ∧ ∀ e fns, removals s !! e = Some fns → NoDup fns.

Definition keepsWellFormed {DeepState : Type} (ps : list AttributePlugin)
    (s s' : @State DeepState) : Prop :=
  WellFormed ps s → WellFormed ps s'.

(** A context as it is before the expression function is set. *)
Definition withoutFunction (ctx : AttributeContext) : AttributeContext :=
  {| ctx_store := ctx_store ctx; ctx_el := ctx_el ctx; ctx_key := ctx_key ctx;
     ctx_expression := ctx_expression ctx; ctx_expressionFn := None;
     ctx_modifiers := ctx_modifiers ctx |}.

(** The condition of line 184 under which an expression function is made. *)
Definition wantsFunction (p : AttributePlugin) (ctx : AttributeContext) : bool :=
  negb match bypassExpressionFunctionCreation p with
       | Some f => f (withoutFunction ctx)
       | None => false
       end
  && negb (mustHaveEmptyExpression p)
  && negb (bool_decide (String.length (ctx_expression ctx) = 0)).

(** [ctx] is the context made by plugin [pi] for an attribute that is on an
    element the walk from [root] visits, starts with the plugin's prefix and
    passes the plugin's validations, while the store handle is [h]. *)
Definition contextOfAttribute (compiles : string → bool)
    (CorePreprocessors : list Preprocesser) (ps : list AttributePlugin)
    (root : Element) (h : nat) (pi : nat) (ctx : AttributeContext) : Prop :=
  ∃ p el dsKey value,
    ps !! pi = Some p ∧ el ∈ visited root ∧ (dsKey, value) ∈ dataset el
    ∧ JS.startsWith dsKey (prefix p) = true
    ∧ violationInSourceOrder p el dsKey value = None
    ∧ ctx_store ctx = h
    ∧ ctx_el ctx = el_ref el
    ∧ ctx_key ctx = lowerFirst (keyOf p dsKey)
    ∧ ctx_modifiers ctx = modifiersOf p dsKey
    ∧ ctx_expression ctx = preprocess CorePreprocessors p value
    ∧ ctx_expressionFn ctx
      = (if wantsFunction p ctx
         then Some (functionContent (ctx_expression ctx)) else None)
    ∧ (wantsFunction p ctx = true →
       compiles (functionContent (ctx_expression ctx)) = true).

(** While the store handle is [h], it stays [h] and every [onLoad] call made
    is given such a context. *)
Definition contextsFrom {DeepState : Type} (compiles : string → bool)
    (CorePreprocessors : list Preprocesser) (ps : list AttributePlugin)
    (root : Element) (h : nat) (s s' : @State DeepState) : Prop :=
  store s = h →
  store s' = h
  ∧ ∃ t, calls s' = (calls s ++ t)%list
         ∧ Forall (λ c, ∀ pi ctx, c = CallOnLoad pi ctx →
                     contextOfAttribute compiles CorePreprocessors ps root h
                       pi ctx) t.

(** Whether the character occurs in the text. *)
Fixpoint occursIn (c : Ascii.ascii) (s : string) : bool :=
  match s with
  | EmptyString => false
  | String c' s' => Ascii.eqb c' c || occursIn c s'
  end.

(** Each of the texts with the separator before it. *)
Fixpoint sepBy (c : Ascii.ascii) (ys : list string) : string :=
  match ys with
  | [] => EmptyString
  | y :: ys' => String c (y +:+ sepBy c ys')
  end.

(** A modifier as it is written in an attribute name: [label_arg_arg]. *)
Definition modifierToken (m : string * list string) : string :=
  m.1 +:+ sepBy "_" m.2.

(** A [dataset] name: prefix, key, then [.modifier] for each modifier. *)
Definition attributeName (pfx key : string)
    (mods : list (string * list string)) : string :=
  pfx +:+ key +:+ sepBy "." (modifierToken <$> mods).

(** Neither separator occurs in the label or in an argument. *)
Definition plainModifier (m : string * list string) : Prop :=
  occursIn "." m.1 = false ∧ occursIn "_" m.1 = false
  ∧ Forall (λ a, occursIn "." a = false ∧ occursIn "_" a = false) m.2.

(** From [s] to [s'] calls are only added, and a teardown registered in
    [s'] was registered in [s] or was returned by an [onLoad] call made
    since, by a plugin of [ps] on that element. *)
Definition registeredBy {DeepState : Type} (ps : list AttributePlugin)
    (s s' : @State DeepState) : Prop :=
  calls s `prefix_of` calls s'
  ∧ ∀ e fn, fn ∈ registered s' e →
      fn ∈ registered s e
      ∨ ∃ i pi ctx p,
          (length (calls s) ≤ i)%nat ∧ calls s' !! i = Some (CallOnLoad pi ctx)
          ∧ ctx_el ctx = e ∧ ps !! pi = Some p ∧ onLoad p ctx = Some fn.

(** The plugin list is not written. *)
Definition samePlugins {DeepState : Type} (s s' : @State DeepState) : Prop :=
  plugins s' = plugins s.

(** Every visited element that has an attribute for one of the plugins has
    an id. *)
Definition allHaveIds {DeepState : Type} (ps : list AttributePlugin)
    (root : Element) (s : @State DeepState) : Prop :=
  ∀ p el, p ∈ ps → el ∈ visited root →
    (∃ dsKey value,
        (dsKey, value) ∈ dataset el ∧ JS.startsWith dsKey (prefix p) = true) →
    id_of s (el_ref el) ≠ "".

(** Once they all have, no id and not the counter is written. *)
Definition idsSettled {DeepState : Type} (ps : list AttributePlugin)
    (root : Element) (s s' : @State DeepState) : Prop :=
  allHaveIds ps root s → sameIds s s'.

(** The first character, if there is one, is in the ASCII range, where
    [lowerFirst] is [key[0].toLowerCase() + key.slice(1)]. *)
Definition asciiHead (key : string) : Prop :=
  match key with
  | EmptyString => True
  | String c _ => nat_of_ascii c < 128
  end.

(** The first character, if there is one, is an ASCII character that is not
    an upper-case letter. *)
Definition lowerCaseHead (key : string) : Prop :=
  match key with
  | EmptyString => True
  | String c _ =>
      (nat_of_ascii c < 65 ∨ 90 < nat_of_ascii c) ∧ nat_of_ascii c < 128
  end.

(** [ctx] is made by plugin [pi] from an attribute that is on an element the
    walk from [root] visits, starts with the plugin's prefix and passes the
    plugin's validations. *)
Definition builtFromAttribute (compiles : string → bool)
    (CorePreprocessors : list Preprocesser) (ps : list AttributePlugin)
    (root : Element) (pi : nat) (ctx : AttributeContext) : Prop :=
  ∃ p el dsKey value,
    ps !! pi = Some p ∧ el ∈ visited root ∧ (dsKey, value) ∈ dataset el
    ∧ JS.startsWith dsKey (prefix p) = true
    ∧ violationInSourceOrder p el dsKey value = None
    ∧ ctx_el ctx = el_ref el
    ∧ (asciiHead (keyOf p dsKey) → ctx_key ctx = lowerFirst (keyOf p dsKey))
    ∧ ctx_modifiers ctx = modifiersOf p dsKey
    ∧ ctx_expression ctx = preprocess CorePreprocessors p value
    ∧ ctx_expressionFn ctx
      = (if wantsFunction p ctx
         then Some (functionContent (ctx_expression ctx)) else None)
    ∧ (wantsFunction p ctx = true →
       compiles (functionContent (ctx_expression ctx)) = true).

(** *** Closures that act *)

(** The closure makes no call and returns. *)
Definition quiet {DeepState : Type} (c : Reentrant.Conduct DeepState) : Prop :=
  Reentrant.uses c = [] ∧ Reentrant.raises c = None.


(** The closure does not call [applyPlugins]. *)
Definition noReentry {DeepState : Type} (c : Reentrant.Conduct DeepState)
    : Prop :=
  Forall (λ u, ∀ rootElement, u ≠ Reentrant.UseApplyPlugins rootElement)
    (Reentrant.uses c).

(** No closure of the plugins makes a call or throws. *)
Definition Quiet {DeepState : Type} (closures : Reentrant.Closures DeepState)
    : Prop :=
  (∀ pi ctx, quiet (Reentrant.onLoadConduct closures pi ctx))
  ∧ (∀ pi ctx, quiet (Reentrant.bypassConduct closures pi ctx))
  ∧ (∀ removal, quiet (Reentrant.removalConduct closures removal))
  ∧ (∀ pi h, Reentrant.onGlobalInitMerges closures pi h = [])
  ∧ (∀ pi h, Reentrant.onGlobalInitRaises closures pi h = None)
  ∧ (∀ processor g, Reentrant.replacerRaises closures processor g = None).

(** The patterns of the preprocessors that plugin [p] uses have the [g]
    flag. *)
Definition globalPatterns (CorePreprocessors : list Preprocesser)
    (p : AttributePlugin) : Prop :=
  ∀ processor,
    processor ∈ (CorePreprocessors ++ default [] (preprocessors p))%list →
    global (regexp processor) = true.

(** Each of the three methods makes [R]-steps. *)
Definition Sound {DeepState : Type} (R : relation (@State DeepState))
    (this : @Reentrant.Methods DeepState) : Prop :=
  (∀ patch, Step R (Reentrant.this_mergeStore this patch))
  ∧ (∀ rootElement, Step R (Reentrant.this_applyPlugins this rootElement))
  ∧ (∀ element, Step R (Reentrant.this_cleanupElementRemovals this element)).

(** [flushedBeforeLoad], except that an [onLoad] call on an element in [F]
    may come before the teardowns registered for it in [s] are called. *)
Definition flushedBeforeLoadUnless {DeepState : Type} (F : nat → Prop)
    (s s' : @State DeepState) : Prop :=
  ∃ t, calls s' = (calls s ++ t)%list
       ∧ (∀ t1 pi ctx t2, t = (t1 ++ CallOnLoad pi ctx :: t2)%list →
            F (ctx_el ctx)
            ∨ ∀ fn, fn ∈ registered s (ctx_el ctx) → CallRemoval fn ∈ t1)
       ∧ (∀ e fn, fn ∈ registered s e →
            fn ∈ registered s' e ∨ CallRemoval fn ∈ t).


(** ** Concrete collaborators and documents

    Instances of the section's variables and small documents, used to run
    the dispatcher on concrete inputs. *)

Module Fixture.

(** Store values. *)
#[warnings="-register-all"]
Inductive Json :=
| JNull
| JNum (n : Z)
| JStr (s : string)
| JObj (fields : list (string * Json)).

Fixpoint field (k : string) (fs : list (string * Json)) : option Json :=
  match fs with
  | [] => None
  | (k', v) :: fs' => if String.eqb k k' then Some v else field k fs'
  end.

Fixpoint removeField (k : string) (fs : list (string * Json))
  : list (string * Json) :=
  match fs with
  | [] => []
  | (k', v) :: fs' =>
      if String.eqb k k' then removeField k fs' else (k', v) :: removeField k fs'
  end.

Fixpoint setField (k : string) (v : Json) (fs : list (string * Json))
  : list (string * Json) :=
  match fs with
  | [] => [(k, v)]
  | (k', v') :: fs' =>
      if String.eqb k k' then (k, v) :: fs' else (k', v') :: setField k v fs'
  end.

(** Modelled from the spec: [apply] of [external/ts-merge-patch], which is
    not part of [core.ts]: a recursive object merge in which primitives
    replace and a null value deletes the key. *)
Fixpoint mergePatch (target patch : Json) : Json :=
  match patch with
  | JObj ps =>
      let fs := match target with JObj fs => fs | _ => [] end in
      JObj ((fix go (ps : list (string * Json)) (acc : list (string * Json)) :=
               match ps with
               | [] => acc
               | (k, v) :: ps' =>
                   go ps'
                     match v with
                     | JNull => removeField k acc
                     | _ => setField k
                              (mergePatch (default JNull (field k acc)) v) acc
                     end
               end) ps fs)
  | _ => patch
  end.

(** A stand-in for the host's parser: a function body compiles when its
    parentheses are balanced. *)
Fixpoint balanced (s : string) (depth : nat) : bool :=
  match s with
  | EmptyString => bool_decide (depth = 0)
  | String "("%char s' => balanced s' (S depth)
  | String ")"%char s' =>
      match depth with O => false | S d => balanced s' d end
  | String _ s' => balanced s' depth
  end.

Definition compiles (body : string) : bool := balanced body 0.

(** The pattern [/^tag$/]. *)
Definition exactly (tag : string) : RegExp :=
  {| matches := String.eqb tag; matchAll := λ _, []; global := false |}.

(** Occurrences of [pat] in [s] from left to right, without overlap;
    [fuel] bounds the scan by the length of the text. *)
Fixpoint occurrences (fuel : nat) (pat s : string) : nat :=
  match fuel with
  | O => 0
  | S fuel' =>
      match JS.cut pat s with
      | Some (_, after) => S (occurrences fuel' pat after)
      | None => 0
      end
  end.

(** The pattern [/(?<whole>pat)/g] for a literal, non-empty [pat]. *)
Definition literal (pat : string) : RegExp :=
  {| matches := λ s, bool_decide (is_Some (JS.cut pat s));
     matchAll := λ s,
       replicate (occurrences (String.length s) pat s)
         {| groups := Some {[ "whole" := pat ]} |};
     global := true |}.

(** A preprocessor that doubles every [a]: its output matches its own
    pattern again. *)
Definition doubling : Preprocesser :=
  {| pp_ref := 1; regexp := literal "a"; replacer := λ _, "aa" |}.

(** [$name] to [ctx.store.name], for the one signal called [input]. *)
Definition signalInput : Preprocesser :=
  {| pp_ref := 2; regexp := literal "$input";
     replacer := λ _, "ctx.store.input" |}.

Definition plain (pfx : string) : AttributePlugin :=
  {| prefix := pfx; requiredPluginPrefixes := None; onGlobalInit := false;
     onLoad := λ _, None; allowedTagRegexps := None;
     allowedModifiers := None; mustHaveEmptyKey := false;
     mustNotEmptyKey := false; mustHaveEmptyExpression := false;
     mustNotEmptyExpression := false; preprocessors := None;
     bypassExpressionFunctionCreation := None |}.

(** [data-on-<event>]: needs a key and an expression, restricts its
    modifiers and returns a teardown named after the key's length. *)
Definition onPlugin : AttributePlugin :=
  {| prefix := "on"; requiredPluginPrefixes := None; onGlobalInit := false;
     onLoad := λ ctx, Some (100 + String.length (ctx_key ctx));
     allowedTagRegexps := None;
     allowedModifiers := Some {[ "throttle"; "debounce" ]};
     mustHaveEmptyKey := false; mustNotEmptyKey := true;
     mustHaveEmptyExpression := false; mustNotEmptyExpression := true;
     preprocessors := None; bypassExpressionFunctionCreation := None |}.

(** [data-model]: only on [input] and [select], with a key. *)
Definition modelPlugin : AttributePlugin :=
  {| prefix := "model"; requiredPluginPrefixes := None;
     onGlobalInit := false; onLoad := λ _, None;
     allowedTagRegexps := Some [exactly "input"; exactly "select"];
     allowedModifiers := None; mustHaveEmptyKey := false;
     mustNotEmptyKey := true; mustHaveEmptyExpression := false;
     mustNotEmptyExpression := false; preprocessors := None;
     bypassExpressionFunctionCreation := None |}.

(** A plugin that needs [on] to be registered before it. *)
Definition needsOn : AttributePlugin :=
  {| prefix := "teleport"; requiredPluginPrefixes := Some ["on"];
     onGlobalInit := true; onLoad := λ _, Some 7;
     allowedTagRegexps := None; allowedModifiers := None;
     mustHaveEmptyKey := false; mustNotEmptyKey := false;
     mustHaveEmptyExpression := false; mustNotEmptyExpression := false;
     preprocessors := None; bypassExpressionFunctionCreation := None |}.

(** A second plugin that also claims the prefix [on]. *)
Definition otherOn : AttributePlugin :=
  {| prefix := "on"; requiredPluginPrefixes := None; onGlobalInit := false;
     onLoad := λ _, Some 9; allowedTagRegexps := None;
     allowedModifiers := None; mustHaveEmptyKey := false;
     mustNotEmptyKey := false; mustHaveEmptyExpression := false;
     mustNotEmptyExpression := false; preprocessors := None;
     bypassExpressionFunctionCreation := None |}.

(** A state with the given plugins, counter and ids, and nothing else. *)
Definition stateWith (ps : list AttributePlugin) (next : nat)
    (ids : gmap nat string) (rm : gmap nat (list OnRemovalFn)) : @State Json :=
  {| plugins := ps; store := 0; parentID := ""; missingIDNext := next;
     removals := rm; signals := [JObj []]; elementId := ids;
     console := []; calls := [] |}.

(** [<button data-on-click="(" data-on-focus="f()">] inside a [div]. *)
Definition badButton : Element :=
  Elem 2 true "BUTTON" [("onClick", "("); ("onFocus", "f()")] [].

Definition goodButton : Element :=
  Elem 2 true "BUTTON" [("onClick", "g()"); ("onFocus", "f()")] [].

Definition page (button : Element) : Element :=
  Elem 1 true "DIV" [] [button; Elem 3 true "SPAN" [("onHover", "h()")] []].

(** Closures that make no call and return. *)
Definition still : Reentrant.Conduct Json :=
  {| Reentrant.uses := []; Reentrant.raises := None |}.

Definition stillClosures : Reentrant.Closures Json :=
  {| Reentrant.onLoadConduct := λ _ _, still;
     Reentrant.bypassConduct := λ _ _, still;
     Reentrant.removalConduct := λ _, still;
     Reentrant.onGlobalInitMerges := λ _ _, [];
     Reentrant.onGlobalInitRaises := λ _ _, None;
     Reentrant.replacerRaises := λ _ _, None |}.

(** The handler of the second plugin starts by flushing its element:
    [ctx.cleanupElementRemovals(ctx.el)]. *)
Definition flushingClosures : Reentrant.Closures Json :=
  {| Reentrant.onLoadConduct := λ pi ctx,
       if bool_decide (pi = 1)
       then {| Reentrant.uses :=
                 [Reentrant.UseCleanupElementRemovals (ctx_el ctx)];
               Reentrant.raises := None |}
       else still;
     Reentrant.bypassConduct := λ _ _, still;
     Reentrant.removalConduct := λ _, still;
     Reentrant.onGlobalInitMerges := λ _ _, [];
     Reentrant.onGlobalInitRaises := λ _ _, None;
     Reentrant.replacerRaises := λ _ _, None |}.


End Fixture.

(** * Properties *)

(** ** The plugin registry *)

Section Registry.

Lemma checkRequired_None p required all :
  (∀ r, r ∈ required → r ∈ all) → checkRequired p required all = None.
Proof.
  induction required as [|r rest IH]; intros Hall; simpl; [done|].
  rewrite bool_decide_eq_true_2 by (apply Hall; left).
  apply IH. intros r' Hr'. apply Hall. by right.
Qed.

Lemma checkRequired_missing p required all r :
  r ∈ required → r ∉ all →
  ∃ r', checkRequired p required all = Some (PluginRequires (prefix p) r').
Proof.
  induction required as [|r0 rest IH]; intros Hin Hnot.
  - by apply elem_of_nil in Hin.
  - simpl. case_bool_decide as Hr0; [|by eexists].
    apply elem_of_cons in Hin as [->|Hin]; [done|]. by apply IH.
Qed.

Lemma registerAll_ok ps : ∀ all registered,
  (∀ i p r, ps !! i = Some p → r ∈ default [] (requiredPluginPrefixes p) →
     r ∈ all ∨ ∃ j q, j < i ∧ ps !! j = Some q ∧ prefix q = r) →
  registerAll ps all registered = inr (registered ++ ps)%list.
Proof.
  induction ps as [|p rest IH]; intros all registered Hdeps; simpl.
  - by rewrite app_nil_r.
  - rewrite checkRequired_None.
    + rewrite IH; [by rewrite <- app_assoc|].
      intros i q r Hq Hr.
      destruct (Hdeps (S i) q r Hq Hr) as [Hall|(j & q' & Hj & Hq' & Hpre)].
      * left. set_solver.
      * destruct j as [|j]; simpl in Hq'.
        -- left. injection Hq' as <-. set_solver.
        -- right. exists j, q'. split; [lia|done].
    + intros r Hr.
      destruct (Hdeps 0 p r eq_refl Hr) as [Hall|(j & _ & Hj & _)]; [done|lia].
Qed.

Lemma registerAll_missing ps : ∀ all registered i p r,
  ps !! i = Some p → r ∈ default [] (requiredPluginPrefixes p) → r ∉ all →
  (∀ j q, j < i → ps !! j = Some q → prefix q ≠ r) →
  ∃ q r', registerAll ps all registered = inl (PluginRequires q r').
Proof.
  induction ps as [|p0 rest IH]; intros all registered i p r Hp Hr Hnot Hearlier.
  - by rewrite lookup_nil in Hp.
  - simpl. destruct (checkRequired p0 _ all) as [e|] eqn:Hcheck.
    + destruct i as [|i]; simpl in Hp.
      * injection Hp as ->.
        destruct (checkRequired_missing p _ all r Hr Hnot) as [r' Hr'].
        rewrite Hr' in Hcheck. injection Hcheck as <-. by eexists _, _.
      * clear IH. revert Hcheck. generalize (default [] (requiredPluginPrefixes p0)).
        intros l. induction l as [|x l IHl]; simpl; [done|].
        case_bool_decide; [done|]. intros [= <-]. by eexists _, _.
    + destruct i as [|i]; simpl in Hp.
      * injection Hp as ->.
        destruct (checkRequired_missing p _ all r Hr Hnot) as [r' Hr'].
        by rewrite Hr' in Hcheck.
      * apply (IH _ _ i p r Hp Hr).
        -- assert (prefix p0 ≠ r) as Hne by (apply (Hearlier 0); [lia|done]).
           rewrite elem_of_union, elem_of_singleton.
           intros [Heq|Hin]; [by apply Hne|by apply Hnot].
        -- intros j q Hj Hq. apply (Hearlier (S j)); [lia|done].
Qed.

Lemma registerAll_error ps : ∀ all registered e,
  registerAll ps all registered = inl e → e ≠ NoPluginsProvided.
Proof.
  induction ps as [|p rest IH]; intros all registered e; simpl; [done|].
  destruct (checkRequired p _ all) as [e'|] eqn:Hcheck; [|by apply IH].
  intros [= <-]. revert Hcheck.
  generalize (default [] (requiredPluginPrefixes p)).
  intros l. induction l as [|x l IHl]; simpl; [done|].
  case_bool_decide; [done|]. by intros [= <-].
Qed.

End Registry.

(** ** Claims about construction *)

Section Construction.

Context {DeepState : Type} (emptyObject : DeepState).
Variable CorePlugins : list AttributePlugin.

(** Construction succeeds on every non-empty combined list whose required
    prefixes are provided earlier, and registers that list as it is. *)
Lemma constructor_ok ids userPlugins :
  (CorePlugins ++ userPlugins)%list ≠ [] →
  providedEarlier (CorePlugins ++ userPlugins) →
  ∃ st, constructor emptyObject CorePlugins ids userPlugins = inr st
        ∧ plugins st = (CorePlugins ++ userPlugins)%list.
Proof.
  intros Hne Hdeps. unfold constructor.
  rewrite bool_decide_eq_false_2
    by (intros Hlen; by apply nil_length_inv in Hlen).
  rewrite registerAll_ok; [by eexists|].
  intros i p r Hp Hr. right. by apply (Hdeps i p r).
Qed.

(** C3, as the code has it: a plugin whose prefix is that of an earlier
    plugin is registered like any other. When the required prefixes of the
    combined list are provided earlier, construction succeeds and both
    plugins of the pair are in [this.plugins], each at its own position. *)
Theorem C3_shared_prefix_is_registered ids userPlugins i j p q :
  i < j →
  (CorePlugins ++ userPlugins)%list !! i = Some p →
  (CorePlugins ++ userPlugins)%list !! j = Some q →
  prefix p = prefix q →
  providedEarlier (CorePlugins ++ userPlugins) →
  ∃ st, constructor emptyObject CorePlugins ids userPlugins = inr st
        ∧ plugins st !! i = Some p ∧ plugins st !! j = Some q.
Proof.
  intros _ Hp Hq _ Hdeps.
  destruct (constructor_ok ids userPlugins) as (st & Hst & Hps); [|done|].
  - intros Hnil. rewrite Hnil in Hp. by rewrite lookup_nil in Hp.
  - exists st. by rewrite Hps.
Qed.

(** C4: a required prefix that no plugin at a smaller index of the combined
    list provides makes construction throw 'Plugin ... requires plugin ...',
    whatever comes later in the list. *)
Theorem C4_dependencies_are_positional ids userPlugins i p r :
  (CorePlugins ++ userPlugins)%list !! i = Some p →
  r ∈ default [] (requiredPluginPrefixes p) →
  (∀ j q, j < i → (CorePlugins ++ userPlugins)%list !! j = Some q →
     prefix q ≠ r) →
  ∃ q r', constructor emptyObject CorePlugins ids userPlugins
          = inl (PluginRequires q r').
Proof.
  intros Hp Hr Hearlier. unfold constructor.
  rewrite bool_decide_eq_false_2.
  - destruct (registerAll_missing _ ∅ [] i p r Hp Hr) as (q & r' & ->);
      [set_solver|done|by eexists _, _].
  - intros Hlen. apply nil_length_inv in Hlen.
    rewrite Hlen in Hp. by rewrite lookup_nil in Hp.
Qed.

(** C8, as the code has it: 'No plugins provided' is thrown exactly when
    the combined list, built-ins followed by user plugins, is empty. *)
Theorem C8_no_plugins_iff_combined_list_empty ids userPlugins :
  constructor emptyObject CorePlugins ids userPlugins = inl NoPluginsProvided
  ↔ CorePlugins = [] ∧ userPlugins = [].
Proof.
  unfold constructor. split.
  - case_bool_decide as Hlen.
    + intros _. apply nil_length_inv in Hlen. by apply app_eq_nil.
    + destruct (registerAll _ ∅ []) as [e|ps] eqn:Hreg; [|done].
      intros [= ->]. by apply registerAll_error in Hreg.
  - intros [-> ->]. done.
Qed.

End Construction.

(** ** Reasoning about the monad

    For a preorder [R], [Step R] is closed under every control construct of
    the dispatcher, so a property of a whole pass follows from the same
    property of the few writes it is made of. *)

Lemma Element_ind' (P : Element → Prop)
    (H : ∀ r b t d cs, Forall P cs → P (Elem r b t d cs)) :
  ∀ e, P e.
Proof.
  fix IH 1. intros [r b t d cs]. apply H.
  induction cs as [|c cs IHcs]; constructor; [apply IH|exact IHcs].
Qed.

Section Steps.

Context {DeepState : Type}.
Variable R : relation (@State DeepState).
Context `{!PreOrder R}.

Lemma Step_ret {A} (a : A) : Step R (ret a).
Proof. intros s. simpl. reflexivity. Qed.

Lemma Step_throw {A} e : Step R (throw (A := A) e).
Proof. intros s. simpl. reflexivity. Qed.

Lemma Step_return_ {A} : Step R (return_ (A := A)).
Proof. intros s. simpl. reflexivity. Qed.

Lemma Step_gets {A} (f : State → A) : Step R (gets f).
Proof. intros s. simpl. reflexivity. Qed.

Lemma Step_modify f : (∀ s, R s (f s)) → Step R (modify f).
Proof. intros Hf s. apply Hf. Qed.

Lemma Step_bind {A B} (m : M A) (k : A → M B) :
  Step R m → (∀ a, Step R (k a)) → Step R (bind m k).
Proof.
  intros Hm Hk s. unfold bind. specialize (Hm s).
  destruct (m s) as [[a| |e] s1]; simpl in *; [|done..].
  etrans; [exact Hm|apply Hk].
Qed.

(** [bind] when the continuation relies on a property of the value. *)
Lemma Step_bind_value {A B} (Q : A → Prop) (m : M A) (k : A → M B) :
  Step R m → (∀ s a, (m s).1 = Normal a → Q a) →
  (∀ a, Q a → Step R (k a)) → Step R (bind m k).
Proof.
  intros Hm HQ Hk s. unfold bind. specialize (Hm s). specialize (HQ s).
  destruct (m s) as [[a| |e] s1]; simpl in *; [|done..].
  etrans; [exact Hm|]. by apply Hk, HQ.
Qed.

Lemma Step_when b m : Step R m → Step R (when b m).
Proof. destruct b; [done|]. intros _. apply Step_ret. Qed.

Lemma Step_endOfFunction m : Step R m → Step R (endOfFunction m).
Proof.
  intros Hm s. unfold endOfFunction. specialize (Hm s).
  by destruct (m s) as [[[]| |e] s1].
Qed.

Lemma Step_forEach {A} (l : list A) f :
  (∀ x, Step R (f x)) → Step R (forEach l f).
Proof.
  intros Hf. induction l as [|x l IH]; simpl; [apply Step_ret|].
  apply Step_bind; [apply Hf|done].
Qed.

Lemma Step_forEachIndexed {A} (l : list A) f : ∀ i,
  (∀ x j, Step R (f x j)) → Step R (forEachIndexed l i f).
Proof.
  induction l as [|x l IH]; intros i Hf; simpl; [apply Step_ret|].
  apply Step_bind; [apply Hf|]. intros _. by apply IH.
Qed.

Lemma Step_walkDownDOM cb :
  (∀ el, Step R (cb el)) → ∀ root, Step R (walkDownDOM root cb).
Proof.
  intros Hcb root. induction root as [r b t d cs IH] using Element_ind'.
  simpl. destruct b; simpl; [|apply Step_ret].
  apply Step_bind; [apply Hcb|]. intros _.
  induction IH as [|c cs Hc _ IHcs]; [apply Step_ret|].
  apply Step_bind; [exact Hc|]. intros _. exact IHcs.
Qed.


Lemma walkDownDOM_unfold (cb : Element → @M DeepState unit) r b t d cs :
  walkDownDOM (Elem r b t d cs) cb
  = if negb b then ret tt
    else bind (cb (Elem r b t d cs)) (λ _, walkSiblings cb cs).
Proof. reflexivity. Qed.

Lemma visited_unfold r b t d cs :
  visited (Elem r b t d cs)
  = if negb b then [] else Elem r b t d cs :: flat_map visited cs.
Proof.
  by destruct b.
Qed.

Lemma Step_walkSiblings cb cs :
  (∀ el, Step R (cb el)) → Step R (walkSiblings cb cs).
Proof.
  intros Hcb. induction cs as [|c cs IH]; simpl; [apply Step_ret|].
  apply Step_bind; [by apply Step_walkDownDOM|done].
Qed.

Lemma elem_of_flat_map_visited c cs el :
  c ∈ cs → el ∈ visited c → el ∈ flat_map visited cs.
Proof.
  intros Hc Hel. induction cs as [|c' cs IH]; [by apply elem_of_nil in Hc|].
  simpl. apply elem_of_app. apply elem_of_cons in Hc as [->|Hc]; auto.
Qed.

(** The callback only has to make [R]-steps on the elements visited. *)
Lemma Step_walkDownDOM_visited cb root :
  (∀ el, el ∈ visited root → Step R (cb el)) → Step R (walkDownDOM root cb).
Proof.
  induction root as [r b t d cs IH] using Element_ind'. intros Hcb.
  rewrite walkDownDOM_unfold. rewrite visited_unfold in Hcb.
  destruct b; simpl in Hcb |- *; [|apply Step_ret].
  apply Step_bind; [apply Hcb; by left|]. intros _.
  assert (∀ c el, c ∈ cs → el ∈ visited c → Step R (cb el)) as Hcs.
  { intros c el Hc Hel. apply Hcb. right.
    by apply (elem_of_flat_map_visited c). }
  clear Hcb. induction IH as [|c cs Hc _ IHcs]; simpl; [apply Step_ret|].
  apply Step_bind.
  - apply Hc. intros el Hel. apply (Hcs c); [by left|done].
  - intros _. apply IHcs. intros c' el Hc' Hel. apply (Hcs c'); [by right|done].
Qed.

Lemma walkDownDOM_turns cb :
  (∀ el, Step R (cb el)) →
  ∀ root s,
    (walkDownDOM root cb s).1 = Normal tt →
    ∀ el, el ∈ visited root →
      ∃ s1, R s s1 ∧ (cb el s1).1 = Normal tt
            ∧ R (cb el s1).2 (walkDownDOM root cb s).2.
Proof.
  intros Hcb root.
  induction root as [r b t d cs IH] using Element_ind'.
  intros s Hnormal el Hel.
  rewrite walkDownDOM_unfold in Hnormal |- *. rewrite visited_unfold in Hel.
  destruct b; simpl in Hnormal, Hel |- *; [|by apply elem_of_nil in Hel].
  unfold bind in Hnormal |- *.
  pose proof (Hcb (Elem r true t d cs) s) as Hfirst.
  destruct (cb (Elem r true t d cs) s) as [[[]| |e] s1] eqn:Hrun;
    simpl in Hnormal, Hfirst |- *; [|done..].
  apply elem_of_cons in Hel as [->|Hel].
  { exists s. rewrite Hrun. simpl. split_and!; [reflexivity|done|].
    by apply Step_walkSiblings. }
  assert (∃ s2, R s1 s2 ∧ (cb el s2).1 = Normal tt
                ∧ R (cb el s2).2 (walkSiblings cb cs s1).2)
    as (s2 & Hs2 & Hrun2 & Hend).
  { clear Hrun Hfirst. revert s1 Hnormal Hel.
    induction IH as [|c cs Hc _ IHcs]; intros s1 Hnormal Hel.
    { by apply elem_of_nil in Hel. }
    simpl in Hnormal, Hel |- *. unfold bind in Hnormal |- *.
    pose proof (Step_walkDownDOM cb Hcb c s1) as Hstep.
    pose proof (Hc s1) as Hc1.
    destruct (walkDownDOM c cb s1) as [[[]| |e] s2]; simpl in *; [|done..].
    apply elem_of_app in Hel as [Hel|Hel].
    - destruct (Hc1 eq_refl el Hel) as (s3 & Hs3 & Hrun3 & Hend3).
      exists s3. split_and!; [done..|].
      etrans; [exact Hend3|]. by apply Step_walkSiblings.
    - destruct (IHcs s2 Hnormal Hel) as (s3 & Hs3 & Hrun3 & Hend3).
      exists s3. split_and!; [by etrans|done..]. }
  exists s2. split_and!; [by etrans|done..].
Qed.

End Steps.

(** [Step R] through the dispatcher, from the writes it performs. *)

Ltac step :=
  repeat first
    [ assumption
    | progress lazy zeta
    | match goal with
      | |- Step ?R (ret _) => apply (Step_ret R)
      | |- Step ?R (throw _) => apply (Step_throw R)
      | |- Step ?R return_ => apply (Step_return_ R)
      | |- Step ?R (gets _) => apply (Step_gets R)
      | |- Step ?R (when _ _) => apply (Step_when R)
      | |- Step ?R (endOfFunction _) => apply (Step_endOfFunction R)
      | |- Step ?R (forEach _ _) => apply (Step_forEach R); intros ?
      | |- Step ?R (bind _ _) => apply (Step_bind R); [|intros ?]
      | |- Step _ (match ?x with _ => _ end) => destruct x
      end
    | solve [auto] ].

Section StepsOfTheDispatcher.

Context {DeepState : Type}.
Variable compiles : string → bool.
Variable CorePreprocessors : list Preprocesser.
Variable R : relation (@State DeepState).
Context `{!PreOrder R}.

Lemma Step_invokePlugin p pi el key modifiers expression :
  AttributeWrites R pi el →
  Step R (invokePlugin compiles CorePreprocessors p pi el key modifiers
            expression).
Proof.
  intros (Hconsole & HonLoad & Hadd). unfold invokePlugin. lazy zeta.
  apply (Step_bind R); [step|]. intros h.
  apply (Step_bind_value R (λ ctx, ctx_el ctx = el_ref el)).
  - step.
  - intros s ctx. destruct (negb _ && _ && _); [|by intros [= <-]].
    destruct (compiles _); [by intros [= <-]|done].
  - intros ctx Hctx. step.
Qed.

Lemma Step_processAttribute p pi el dsKey expression :
  AttributeWrites R pi el →
  Step R (processAttribute compiles CorePreprocessors p pi el dsKey expression).
Proof.
  intros Hwrites. unfold processAttribute. step.
  by apply Step_invokePlugin.
Qed.

Lemma Step_attribute p pi el dsKey value :
  AttributeWrites R pi el → Step R (assignMissingID el) →
  Step R (attribute compiles CorePreprocessors p pi el dsKey value).
Proof.
  intros Hwrites Hid. unfold attribute. step.
  by apply Step_processAttribute.
Qed.

Lemma Step_attributes p pi el (attrs : list (string * string)) :
  AttributeWrites R pi el → Step R (assignMissingID el) →
  Step R (forEach attrs
            (λ kv, attribute compiles CorePreprocessors p pi el kv.1 kv.2)).
Proof. intros Hwrites Hid. step. by apply Step_attribute. Qed.

(** The callback of a plugin that is not the first one. *)
Lemma Step_callback_later p pi el :
  pi ≠ 0 → AttributeWrites R pi el → Step R (assignMissingID el) →
  Step R (callback compiles CorePreprocessors p pi el).
Proof.
  intros Hpi Hwrites Hid. unfold callback.
  rewrite bool_decide_eq_false_2 by done.
  unfold when at 1. step. by apply Step_attribute.
Qed.

Lemma Step_callback p pi el :
  AttributeWrites R pi el → Step R (assignMissingID el) →
  Step R (cleanupElementRemovals (el_ref el)) →
  Step R (callback compiles CorePreprocessors p pi el).
Proof.
  intros Hwrites Hid Hclean. unfold callback. step.
  by apply Step_attribute.
Qed.

Lemma Step_passes_later root ps : ∀ i,
  i ≠ 0 →
  (∀ pi el, pi ≠ 0 → AttributeWrites R pi el) →
  (∀ el, Step R (assignMissingID el)) →
  Step R (forEachIndexed ps i (λ p pi,
            walkDownDOM root (callback compiles CorePreprocessors p pi))).
Proof.
  induction ps as [|p ps IH]; intros i Hi Hwrites Hid; simpl.
  - apply (Step_ret R).
  - apply (Step_bind R).
    + apply (Step_walkDownDOM R). intros el.
      apply Step_callback_later; auto.
    + intros _. apply IH; auto.
Qed.

Lemma Step_applyPlugins root :
  (∀ pi el, AttributeWrites R pi el) →
  (∀ el, Step R (assignMissingID el)) →
  (∀ el, Step R (cleanupElementRemovals el)) →
  Step R (applyPlugins compiles CorePreprocessors root).
Proof.
  intros Hwrites Hid Hclean. unfold applyPlugins. step.
  apply (Step_forEachIndexed R).
  intros p pi. apply (Step_walkDownDOM R). intros el.
  by apply Step_callback.
Qed.

End StepsOfTheDispatcher.

(** ** The removal registry *)

Section Removals.

Context {DeepState : Type}.
Implicit Types s : @State DeepState.

Lemma add_calls_nil s : add_calls [] s = s.
Proof. destruct s. unfold add_calls. simpl. by rewrite app_nil_r. Qed.

Lemma add_calls_app cs1 cs2 s :
  add_calls cs2 (add_calls cs1 s) = add_calls (cs1 ++ cs2) s.
Proof. unfold add_calls. simpl. by rewrite app_assoc. Qed.

Lemma forEach_removals (fns : list OnRemovalFn) s :
  forEach fns (λ removal, call (CallRemoval removal)) s
  = (Normal tt, add_calls (CallRemoval <$> fns) s).
Proof.
  revert s. induction fns as [|fn fns IH]; intros s; simpl.
  - by rewrite add_calls_nil.
  - unfold bind, call, modify. rewrite IH. by rewrite add_calls_app.
Qed.

Lemma cleanup_flushed el s :
  cleanupElementRemovals el s = (Normal tt, flushed el s).
Proof.
  unfold cleanupElementRemovals, flushed, bind, gets.
  destruct (removals s !! el) as [fns|]; [|done].
  by rewrite forEach_removals.
Qed.

Lemma set_add_NoDup fn (fns : list OnRemovalFn) :
  NoDup fns → NoDup (set_add fn fns).
Proof.
  intros Hnd. unfold set_add. case_bool_decide as Hin; [done|].
  apply NoDup_app. split_and!; [done| |apply NoDup_singleton].
  intros x Hx Hx'. apply list_elem_of_singleton in Hx'. by subst.
Qed.

End Removals.

(** ** The store handle *)

Section Store.

Context {DeepState : Type}.
Variable apply : DeepState → DeepState → DeepState.
Variable emptyObject : DeepState.

(** C1, as the code has it: [mergeStore] makes one new store instance,
    holding the patched value of the current one, and points [this.store]
    at it. A handle issued before the merge, such as the [store] field of
    a context built earlier, is not the new handle and still reads the
    value it read before. *)
Theorem C1_merge_replaces_only_the_field patch (s : State) h :
  h < length (signals s) →
  let s' := (mergeStore apply emptyObject patch s).2 in
  (mergeStore apply emptyObject patch s).1 = Normal tt
  ∧ store s' = length (signals s)
  ∧ length (signals s') = S (length (signals s))
  ∧ value_of emptyObject s' (store s')
    = apply (value_of emptyObject s (store s)) patch
  ∧ store s' ≠ h
  ∧ value_of emptyObject s' h = value_of emptyObject s h.
Proof.
  intros Hh. simpl. unfold value_of. simpl. split_and!.
  - done.
  - done.
  - rewrite length_app. simpl. lia.
  - by rewrite list_lookup_middle.
  - lia.
  - by rewrite lookup_app_l.
Qed.

End Store.

(** ** The preprocessor pipeline *)

Section Preprocessors.

Lemma runProcessors_firstByRef processors : ∀ seen expression,
  (runProcessors processors seen expression).2
  = fold_left (λ e processor, applyProcessor processor e)
      (firstByRef processors seen) expression.
Proof.
  induction processors as [|pp rest IH]; intros seen expression; simpl.
  - done.
  - case_bool_decide; simpl; by rewrite IH.
Qed.

Lemma firstByRef_fresh processors : ∀ seen pp,
  pp ∈ firstByRef processors seen → (pp_ref pp ∉ seen) ∧ pp ∈ processors.
Proof.
  induction processors as [|pp0 rest IH]; intros seen pp; simpl.
  - intros Hin. by apply elem_of_nil in Hin.
  - case_bool_decide as Hseen.
    + intros Hin. destruct (IH _ _ Hin). split; [done|by right].
    + intros Hin. apply elem_of_cons in Hin as [->|Hin].
      * split; [done|by left].
      * destruct (IH _ _ Hin) as [Hfresh ?]. split; [|by right].
        intros Hs. apply Hfresh. apply elem_of_union. by right.
Qed.

Lemma firstByRef_NoDup processors : ∀ seen,
  NoDup (pp_ref <$> firstByRef processors seen).
Proof.
  induction processors as [|pp0 rest IH]; intros seen; simpl.
  - apply NoDup_nil_2.
  - case_bool_decide as Hseen; [apply IH|].
    rewrite fmap_cons. apply NoDup_cons. split; [|apply IH].
    intros Hin. apply list_elem_of_fmap in Hin as (pp & Href & Hpp).
    apply firstByRef_fresh in Hpp as [Hfresh _]. apply Hfresh.
    apply elem_of_union. left. by apply elem_of_singleton.
Qed.

Variable CorePreprocessors : list Preprocesser.

(** C7: preprocessing one attribute occurrence is a chain of preprocessor
    applications, core-wide ones first, in which no preprocessor identity
    occurs twice; an application scans the text once, as it stands when
    the preprocessor is reached, and rewrites the matches of that scan
    only, so text produced by a rewrite is never scanned by the
    preprocessor that produced it. *)
Theorem C7_each_preprocessor_applies_once p expression :
  let processors :=
    (CorePreprocessors ++ default [] (preprocessors p))%list in
  let applied := firstByRef processors ∅ in
  preprocess CorePreprocessors p expression
  = fold_left (λ e processor, applyProcessor processor e) applied expression
  ∧ NoDup (pp_ref <$> applied)
  ∧ (∀ processor, processor ∈ applied → processor ∈ processors).
Proof.
  simpl. split_and!.
  - apply runProcessors_firstByRef.
  - apply firstByRef_NoDup.
  - intros pp Hpp. by apply firstByRef_fresh in Hpp as [_ ?].
Qed.

End Preprocessors.

(** ** Validation of an attribute occurrence *)

Section Validation.

Context {DeepState : Type}.
Variable compiles : string → bool.
Variable CorePreprocessors : list Preprocesser.
Implicit Types s : @State DeepState.

Lemma forEach_modifiers (allowed : gset string) (ms : list (string * list string)) s :
  forEach ms (λ modifier,
    when (negb (bool_decide (modifier.1 ∈ allowed)))
      (throw (ModifierNotAllowed modifier.1))) s
  = match List.find (λ l, negb (bool_decide (l ∈ allowed))) (fst <$> ms) with
    | Some l => (Throw (ModifierNotAllowed l), s)
    | None => (Normal tt, s)
    end.
Proof.
  induction ms as [|[l args] ms IH]; simpl; [done|].
  unfold bind. destruct (negb (bool_decide (l ∈ allowed))); simpl; [done|].
  apply IH.
Qed.

(** Lines 151-204 never throw. *)
Lemma invokePlugin_no_throw p pi el key modifiers expression s e :
  (invokePlugin compiles CorePreprocessors p pi el key modifiers expression s).1
  ≠ Throw e.
Proof.
  unfold invokePlugin, bind, gets. lazy zeta.
  destruct (negb _ && negb (mustHaveEmptyExpression p) && _); simpl.
  - destruct (compiles _); simpl; [|done].
    by destruct (onLoad p _).
  - by destruct (onLoad p _).
Qed.

(** A [return] ends the loop over the remaining items. *)
Lemma forEach_Return {A} (f : A → M unit) x rest s :
  (f x s).1 = Return → forEach (x :: rest) f s = f x s.
Proof.
  intros Hret. simpl. unfold bind.
  by destruct (f x s) as [[[]| |e] s1]; simpl in Hret.
Qed.

(** The context handed to [onLoad] holds the store handle that is current
    when the attribute is processed. *)
Lemma invokePlugin_captures_store p pi el key modifiers expression s :
  let s' :=
    (invokePlugin compiles CorePreprocessors p pi el key modifiers expression
       s).2 in
  store s' = store s
  ∧ ∃ t, calls s' = (calls s ++ t)%list
         ∧ ∀ c, c ∈ t → ∃ ctx, c = CallOnLoad pi ctx ∧ ctx_store ctx = store s.
Proof.
  unfold invokePlugin, bind, gets. lazy zeta.
  destruct (negb _ && negb (mustHaveEmptyExpression p) && _); simpl.
  - destruct (compiles _); simpl.
    + destruct (onLoad p _); simpl; (split; [done|]); eexists [_];
        (split; [done|]); intros c ->%list_elem_of_singleton; by eexists.
    + split; [done|]. exists []. split; [by rewrite app_nil_r|].
      intros c Hc. by apply elem_of_nil in Hc.
  - destruct (onLoad p _); simpl; (split; [done|]); eexists [_];
      (split; [done|]); intros c ->%list_elem_of_singleton; by eexists.
Qed.

(** When the body does not compile, lines 191-194 log the failure and leave
    the callback: [onLoad] is not called and nothing is registered. *)
Lemma invokePlugin_compile_failure p pi el key modifiers expression s :
  let text := preprocess CorePreprocessors p expression in
  let ctx :=
    {| ctx_store := store s; ctx_el := el_ref el; ctx_key := key;
       ctx_expression := text; ctx_expressionFn := None;
       ctx_modifiers := modifiers |} in
  match bypassExpressionFunctionCreation p with
  | Some f => f ctx
  | None => false
  end = false →
  mustHaveEmptyExpression p = false →
  String.length text ≠ 0 →
  compiles (functionContent text) = false →
  let r :=
    invokePlugin compiles CorePreprocessors p pi el key modifiers expression s in
  r.1 = Return
  ∧ calls r.2 = calls s
  ∧ removals r.2 = removals s
  ∧ console r.2
    = (console s
       ++ [SyntaxErrorOf (functionContent text);
           Message ("Error evaluating expression '" +:+ functionContent text
                    +:+ "' on "
                    +:+ (if bool_decide (String.length (id_of s (el_ref el)) = 0)
                         then tagName el
                         else "#" +:+ id_of s (el_ref el)))])%list.
Proof.
  intros text ctx Hbypass Hmust Hlen Hcompile.
  unfold invokePlugin, bind, gets. lazy zeta.
  fold text. fold ctx. rewrite Hbypass, Hmust, Hcompile.
  rewrite bool_decide_eq_false_2 by done. simpl.
  by rewrite <- app_assoc.
Qed.

Lemma processAttribute_validates p pi el dsKey expression s :
  processAttribute compiles CorePreprocessors p pi el dsKey expression s
  = match violationInSourceOrder p el dsKey expression with
    | Some e => (Throw e, s)
    | None =>
        invokePlugin compiles CorePreprocessors p pi el
          (lowerFirst (keyOf p dsKey))
          (fold_left (λ acc modifier, <[modifier.1 := modifier.2]> acc)
             (parseModifier
                <$> tl (JS.split "."
                          (JS.slice dsKey (String.length (prefix p))))) ∅)
          expression s
    end.
Proof.
  unfold violationInSourceOrder, processAttribute, firstError.
  unfold tagViolation, keyViolation, modifierViolation, modifierLabels,
    expressionViolation, keyOf.
  lazy zeta.
  assert (∀ (k : unit → M unit), bind (ret tt) k s = k tt s) as Hret by done.
  assert (∀ e (k : unit → M unit),
            bind (when true (throw e)) k s = (Throw e, s)) as Hthrow by done.
  assert (∀ e (k : unit → M unit),
            bind (when false (throw e)) k s = k tt s) as Hpass by done.
  destruct (allowedTagRegexps p) as [regexps|].
  2: rewrite Hret.
  1: destruct (existsb _ regexps); cbn [negb];
       [rewrite Hpass|by rewrite Hthrow].
  all: destruct (mustHaveEmptyKey p && _); [by rewrite Hthrow|rewrite Hpass].
  all: destruct (mustNotEmptyKey p && _); [by rewrite Hthrow|rewrite Hpass].
  all: destruct (allowedModifiers p) as [allowed|]; [|rewrite Hret].
  1,3: unfold bind at 1; rewrite forEach_modifiers, <- list_fmap_compose;
       unfold compose;
       destruct (List.find _ _);
       cbn [fmap option_fmap option_map]; [done|].
  all: destruct (mustHaveEmptyExpression p && _);
       [by rewrite Hthrow|rewrite Hpass].
  all: destruct (mustNotEmptyExpression p && _);
       [by rewrite Hthrow|by rewrite Hpass].
Qed.

Lemma assignMissingID_normal el s :
  (assignMissingID el s).1 = Normal tt.
Proof.
  unfold assignMissingID, bind, gets. by destruct (bool_decide _).
Qed.

Lemma attribute_matching p pi el dsKey value s :
  JS.startsWith dsKey (prefix p) = true →
  attribute compiles CorePreprocessors p pi el dsKey value s
  = processAttribute compiles CorePreprocessors p pi el dsKey value
      (assignMissingID el s).2.
Proof.
  intros Hprefix. unfold attribute. rewrite Hprefix. cbn [negb].
  unfold bind at 1. pose proof (assignMissingID_normal el s) as Hid.
  destruct (assignMissingID el s) as [c s1]. simpl in Hid. by subst c.
Qed.

(** C5, as the code has it: an attribute occurrence that matches the
    plugin's prefix is checked against the tag allow-list first, then the
    key requirement, then the modifier allow-list, then the expression
    requirement; the error thrown is that of the first of these checks
    that fails, and nothing is thrown when none fails. *)
Theorem C5_validation_order p pi el dsKey value s :
  JS.startsWith dsKey (prefix p) = true →
  match violationInSourceOrder p el dsKey value with
  | Some e =>
      (attribute compiles CorePreprocessors p pi el dsKey value s).1 = Throw e
  | None =>
      ∀ e,
        (attribute compiles CorePreprocessors p pi el dsKey value s).1 ≠ Throw e
  end.
Proof.
  intros Hprefix.
  rewrite attribute_matching, processAttribute_validates by done.
  destruct (violationInSourceOrder p el dsKey value); [done|].
  intros e. apply invokePlugin_no_throw.
Qed.

End Validation.

(** ** Generated element ids *)

Section Ids.

Context {DeepState : Type}.
Implicit Types s : @State DeepState.

Lemma Step_weaken (R R' : relation (@State DeepState)) {A} (m : M A) :
  (∀ s s', R s s' → R' s s') → Step R m → Step R' m.
Proof. intros Hsub Hm s. apply Hsub, Hm. Qed.


#[local] Instance sameIds_preorder : PreOrder (@sameIds DeepState).
Proof.
  split.
  - by intros s.
  - intros s1 s2 s3 (H1 & H2 & H3) (H4 & H5 & H6).
    unfold sameIds. by rewrite H4, H5, H6.
Qed.

#[local] Instance sameIdsFrom_preorder el : PreOrder (@sameIdsFrom DeepState el).
Proof.
  split.
  - by intros s _.
  - intros s1 s2 s3 H12 H23 Hid. specialize (H12 Hid).
    etrans; [exact H12|]. apply H23.
    unfold id_of in *. destruct H12 as (-> & _). done.
Qed.

Lemma missingID_not_empty parent n : missingID parent n ≠ "".
Proof. done. Qed.

Lemma sameIds_idsAssigned s s' : sameIds s s' → idsAssigned s s'.
Proof.
  intros (Hids & Hnext & Hparent). exists []. split_and!.
  - apply NoDup_nil_2.
  - simpl. lia.
  - done.
  - intros k e Hk. by rewrite lookup_nil in Hk.
  - intros e _. unfold id_of. by rewrite Hids.
Qed.

#[local] Instance idsAssigned_preorder : PreOrder (@idsAssigned DeepState).
Proof.
  split.
  - intros s. by apply sameIds_idsAssigned.
  - intros s1 s2 s3 (es1 & Hnd1 & Hn1 & Hp1 & Hin1 & Hout1)
                    (es2 & Hnd2 & Hn2 & Hp2 & Hin2 & Hout2).
    assert (∀ e, e ∈ es1 → e ∉ es2) as Hdisjoint.
    { intros e He1 He2.
      apply list_elem_of_lookup in He1 as [k1 Hk1].
      apply list_elem_of_lookup in He2 as [k2 Hk2].
      destruct (Hin1 _ _ Hk1) as [_ Hnew]. destruct (Hin2 _ _ Hk2) as [Hold _].
      rewrite Hnew in Hold. by apply missingID_not_empty in Hold. }
    exists (es1 ++ es2)%list. split_and!.
    + apply NoDup_app. split_and!; [done| |done]. exact Hdisjoint.
    + rewrite length_app. lia.
    + congruence.
    + intros k e Hk. apply lookup_app_Some in Hk as [Hk|[Hlen Hk]].
      * destruct (Hin1 _ _ Hk) as [Hold Hnew]. split; [done|].
        rewrite Hout2; [done|]. apply Hdisjoint.
        apply list_elem_of_lookup. by exists k.
      * destruct (Hin2 _ _ Hk) as [Hold Hnew].
        assert (e ∉ es1) as Hnot.
        { intros He. apply list_elem_of_lookup in He as [k1 Hk1].
          destruct (Hin1 _ _ Hk1) as [_ Hnew1]. rewrite Hnew1 in Hold.
          by apply missingID_not_empty in Hold. }
        split; [by rewrite <- Hout1|].
        rewrite Hnew, Hp1, Hn1. f_equal. lia.
    + intros e He. rewrite Hout2, Hout1; [done|..];
        intros Hin; apply He, elem_of_app; auto.
Qed.



Lemma increment_below n : belowLimit n → increment n = S n.
Proof.
  intros Hn. unfold increment. by rewrite (proj2 (N.ltb_lt _ _) Hn).
Qed.



Lemma belowLimit_le n m : (n ≤ m)%nat → belowLimit m → belowLimit n.
Proof.
  unfold belowLimit. intros Hle Hm.
  eapply N.le_lt_trans; [|exact Hm]. lia.
Qed.

#[local] Instance countsUp_preorder : PreOrder (@countsUp DeepState).
Proof.
  split.
  - intros s. split; [done|]. intros _. reflexivity.
  - intros s1 s2 s3 [Hle1 H1] [Hle2 H2]. split; [by etrans|].
    intros Hbelow. etrans; [|by apply H2].
    apply H1. by apply (belowLimit_le _ _ Hle2).
Qed.

#[local] Instance idsKept_preorder : PreOrder (@idsKept DeepState).
Proof.
  split.
  - by intros s e _.
  - intros s1 s2 s3 H12 H23 e He. rewrite H23, H12; [done..|].
    by rewrite H12.
Qed.






Variable compiles : string → bool.
Variable CorePreprocessors : list Preprocesser.


(** The callback flushes first, for the first plugin only, and then
    turns to the attributes. *)
Lemma callback_flushes_first p pi el s :
  callback compiles CorePreprocessors p pi el s
  = endOfFunction
      (forEach (dataset el)
         (λ kv, attribute compiles CorePreprocessors p pi el kv.1 kv.2))
      (if bool_decide (pi = 0) then flushed (el_ref el) s else s).
Proof.
  unfold callback, endOfFunction, bind.
  case_bool_decide; simpl when; [|done].
  by rewrite cleanup_flushed.
Qed.

Lemma sameIds_id_of s s' e : sameIds s s' → id_of s' e = id_of s e.
Proof. intros (Hids & _). unfold id_of. by rewrite Hids. Qed.









End Ids.

(** ** Flushing during a dispatch pass *)

Section Flush.

Context {DeepState : Type}.
Implicit Types s : @State DeepState.

#[local] Instance loadsOn_preorder el : PreOrder (@loadsOn DeepState el).
Proof.
  split.
  - intros s. split_and!.
    + exists []. by rewrite app_nil_r.
    + done.
    + intros fns Hfns. by exists fns.
  - intros s1 s2 s3 ((ta & Ha & Hta) & Hothers1 & Hgrow1)
                    ((tb & Hb & Htb) & Hothers2 & Hgrow2).
    split_and!.
    + exists (ta ++ tb)%list. split.
      * by rewrite Hb, Ha, app_assoc.
      * by apply Forall_app.
    + intros e He. by rewrite Hothers2, Hothers1.
    + intros fns Hfns.
      destruct (Hgrow1 _ Hfns) as (fns1 & Hfns1 & Hsub1).
      destruct (Hgrow2 _ Hfns1) as (fns2 & Hfns2 & Hsub2).
      exists fns2. split; [done|]. by etrans.
Qed.

#[local] Instance neverFlushes_preorder : PreOrder (@neverFlushes DeepState).
Proof.
  split.
  - intros s. split.
    + exists []. by rewrite app_nil_r.
    + intros e fns Hfns. by exists fns.
  - intros s1 s2 s3 ((ta & Ha & Hta) & Hgrow1) ((tb & Hb & Htb) & Hgrow2).
    split.
    + exists (ta ++ tb)%list. split.
      * by rewrite Hb, Ha, app_assoc.
      * by apply Forall_app.
    + intros e fns Hfns.
      destruct (Hgrow1 _ _ Hfns) as (fns1 & Hfns1 & Hsub1).
      destruct (Hgrow2 _ _ Hfns1) as (fns2 & Hfns2 & Hsub2).
      exists fns2. split; [done|]. by etrans.
Qed.


#[local] Instance flushedBeforeLoad_preorder :
  PreOrder (@flushedBeforeLoad DeepState).
Proof.
  split.
  - intros s. exists []. split_and!.
    + by rewrite app_nil_r.
    + intros t1 pi ctx t2 Ht. by destruct t1.
    + intros e fn Hfn. by left.
  - intros s1 s2 s3 (ta & Ha & Horda & Hkepta) (tb & Hb & Hordb & Hkeptb).
    exists (ta ++ tb)%list. split_and!.
    + by rewrite Hb, Ha, app_assoc.
    + intros t1 pi ctx t2 Ht fn Hfn.
      apply app_eq_inv in Ht as [(k & -> & Hk)|(k & -> & ->)].
      * destruct k as [|c k].
        -- rewrite app_nil_r in *. simpl in Hk.
           destruct (Hkepta _ _ Hfn) as [Hstill|Hcalled]; [|done].
           exfalso. eapply elem_of_nil.
           by apply (Hordb [] pi ctx t2 (eq_sym Hk) fn).
        -- simpl in Hk. injection Hk as <- ->.
           by apply (Horda t1 pi ctx k).
      * apply elem_of_app.
        destruct (Hkepta _ _ Hfn) as [Hstill|Hcalled]; [|by left].
        right. by apply (Hordb k pi ctx t2).
    + intros e fn Hfn. rewrite elem_of_app.
      destruct (Hkepta _ _ Hfn) as [Hstill|Hcalled]; [|by auto].
      destruct (Hkeptb _ _ Hstill); by auto.
Qed.

Lemma loadsOn_same el s s' :
  calls s' = calls s → removals s' = removals s → loadsOn el s s'.
Proof.
  intros Hcalls Hrem. split_and!.
  - exists []. by rewrite app_nil_r.
  - intros e _. by rewrite Hrem.
  - intros fns Hfns. exists fns. by rewrite Hrem.
Qed.

Lemma set_add_subseteq fn (fns : list OnRemovalFn) : fns ⊆ set_add fn fns.
Proof.
  unfold set_add. case_bool_decide; [done|].
  intros x Hx. apply elem_of_app. by left.
Qed.

Lemma loadsOn_writes pi el :
  AttributeWrites (@loadsOn DeepState (el_ref el)) pi el.
Proof.
  split_and!.
  - intros e s. by apply loadsOn_same.
  - intros ctx Hctx s. split_and!.
    + exists [CallOnLoad pi ctx]. split; [done|].
      apply Forall_singleton. by exists pi, ctx.
    + done.
    + intros fns Hfns. by exists fns.
  - intros removal s. split_and!.
    + exists []. by rewrite app_nil_r.
    + intros e He. simpl. by rewrite lookup_insert_ne.
    + intros fns Hfns. simpl. rewrite lookup_insert_eq, Hfns. simpl.
      eexists. split; [done|]. apply set_add_subseteq.
Qed.

Lemma loadsOn_assignMissingID el el' :
  Step (@loadsOn DeepState el) (assignMissingID el').
Proof.
  intros s. unfold assignMissingID, bind, gets.
  case_bool_decide; by apply loadsOn_same.
Qed.

Lemma flushed_calls el s :
  calls (flushed el s) = (calls s ++ (CallRemoval <$> registered s el))%list.
Proof.
  unfold flushed, registered. destruct (removals s !! el); simpl; [done|].
  by rewrite app_nil_r.
Qed.

Lemma flushed_removals el s :
  removals (flushed el s) = delete el (removals s).
Proof.
  unfold flushed. destruct (removals s !! el) eqn:Hel; simpl; [done|].
  by rewrite delete_id.
Qed.

Variable compiles : string → bool.
Variable CorePreprocessors : list Preprocesser.

(** One visit by the first plugin. *)
Lemma callback_flushedBeforeLoad p el :
  Step (@flushedBeforeLoad DeepState)
    (callback compiles CorePreprocessors p 0 el).
Proof.
  intros s. rewrite callback_flushes_first.
  rewrite bool_decide_eq_true_2 by done.
  set (s0 := flushed (el_ref el) s).
  assert (loadsOn (el_ref el) s0
            (endOfFunction
               (forEach (dataset el)
                  (λ kv, attribute compiles CorePreprocessors p 0 el kv.1 kv.2))
               s0).2) as ((t & Ht & Hloads) & Hothers & _).
  { apply (Step_endOfFunction (loadsOn (el_ref el))).
    apply Step_attributes; [apply _|apply loadsOn_writes|].
    apply loadsOn_assignMissingID. }
  exists ((CallRemoval <$> registered s (el_ref el)) ++ t)%list. split_and!.
  - rewrite Ht. subst s0. by rewrite flushed_calls, app_assoc.
  - intros t1 pi ctx t2 Hsplit fn Hfn.
    apply app_eq_inv in Hsplit as [(k & Hk1 & Hk2)|(k & -> & ->)].
    + destruct k as [|c k].
      * rewrite app_nil_r in Hk1. simpl in Hk2. subst t.
        apply Forall_cons in Hloads as [(pi' & ctx' & [= <- <-] & Hel) _].
        rewrite <- Hk1. apply list_elem_of_fmap. exists fn.
        by rewrite <- Hel.
      * simpl in Hk2. injection Hk2 as <- _.
        assert (CallOnLoad pi ctx ∈ CallRemoval <$> registered s (el_ref el))
          as Hin.
        { rewrite Hk1. apply elem_of_app. right. by left. }
        by apply list_elem_of_fmap in Hin as (? & ? & _).
    + apply Forall_app in Hloads as [_ Hloads].
      apply Forall_cons in Hloads as [(pi' & ctx' & [= <- <-] & Hel) _].
      apply elem_of_app. left. apply list_elem_of_fmap. exists fn.
      by rewrite <- Hel.
  - intros e fn Hfn. destruct (decide (e = el_ref el)) as [->|Hne].
    + right. apply elem_of_app. left. apply list_elem_of_fmap. by exists fn.
    + left. unfold registered. rewrite (Hothers e Hne). subst s0.
      by rewrite flushed_removals, lookup_delete_ne.
Qed.

Lemma applyPlugins_first_then_rest root s p0 rest :
  plugins s = p0 :: rest →
  applyPlugins compiles CorePreprocessors root s
  = bind (walkDownDOM root (callback compiles CorePreprocessors p0 0))
      (λ _, forEachIndexed rest 1 (λ p pi,
              walkDownDOM root (callback compiles CorePreprocessors p pi)))
      s.
Proof. intros Hps. unfold applyPlugins, bind at 1, gets. by rewrite Hps. Qed.

#[local] Instance loadsOnVisited_preorder root :
  PreOrder (@loadsOnVisited DeepState root).
Proof.
  split.
  - intros s. split.
    + exists []. by rewrite app_nil_r.
    + intros e fns Hfns. by exists fns.
  - intros s1 s2 s3 ((ta & Ha & Hta) & Hgrow1) ((tb & Hb & Htb) & Hgrow2).
    split.
    + exists (ta ++ tb)%list. split.
      * by rewrite Hb, Ha, app_assoc.
      * by apply Forall_app.
    + intros e fns Hfns.
      destruct (Hgrow1 _ _ Hfns) as (fns1 & Hfns1 & Hsub1).
      destruct (Hgrow2 _ _ Hfns1) as (fns2 & Hfns2 & Hsub2).
      exists fns2. split; [done|]. by etrans.
Qed.

Lemma loadsOn_loadsOnVisited root el s s' :
  el ∈ visited root → loadsOn (el_ref el) s s' → loadsOnVisited root s s'.
Proof.
  intros Hel ((t & Ht & Hloads) & Hothers & Hgrow). split.
  - exists t. split; [done|].
    eapply Forall_impl; [exact Hloads|].
    intros c (pi & ctx & -> & Hctx). by exists pi, ctx, el.
  - intros e fns Hfns. destruct (decide (e = el_ref el)) as [->|Hne].
    + by apply Hgrow.
    + exists fns. by rewrite Hothers.
Qed.

Lemma later_passes_loadsOnVisited root ps : ∀ i,
  i ≠ 0 →
  Step (@loadsOnVisited DeepState root)
    (forEachIndexed ps i (λ p pi,
       walkDownDOM root (callback compiles CorePreprocessors p pi))).
Proof.
  induction ps as [|p ps IH]; intros i Hi; simpl.
  - apply (Step_ret (loadsOnVisited root)).
  - apply (Step_bind (loadsOnVisited root)); [|intros _; by apply IH].
    apply (Step_walkDownDOM_visited (loadsOnVisited root)). intros el Hel.
    apply (Step_weaken (loadsOn (el_ref el)));
      [intros ? ?; by apply loadsOn_loadsOnVisited|].
    apply Step_callback_later; [apply _|done|apply loadsOn_writes|].
    apply loadsOn_assignMissingID.
Qed.

(** A visit by the first plugin calls every teardown registered for the
    element. *)
Lemma callback_calls_registered p el s :
  ∃ t, calls (callback compiles CorePreprocessors p 0 el s).2
       = (calls s ++ t)%list
       ∧ ∀ fn, fn ∈ registered s (el_ref el) → CallRemoval fn ∈ t.
Proof.
  rewrite callback_flushes_first. rewrite bool_decide_eq_true_2 by done.
  set (s0 := flushed (el_ref el) s).
  assert (loadsOn (el_ref el) s0
            (endOfFunction
               (forEach (dataset el)
                  (λ kv, attribute compiles CorePreprocessors p 0 el kv.1 kv.2))
               s0).2) as ((t & Ht & _) & _).
  { apply (Step_endOfFunction (loadsOn (el_ref el))).
    apply Step_attributes; [apply _|apply loadsOn_writes|].
    apply loadsOn_assignMissingID. }
  exists ((CallRemoval <$> registered s (el_ref el)) ++ t)%list. split.
  - rewrite Ht. subst s0. by rewrite flushed_calls, app_assoc.
  - intros fn Hfn. apply elem_of_app. left. apply list_elem_of_fmap.
    by exists fn.
Qed.

Lemma first_pass_flushedBeforeLoad root p :
  Step (@flushedBeforeLoad DeepState)
    (walkDownDOM root (callback compiles CorePreprocessors p 0)).
Proof.
  apply (Step_walkDownDOM flushedBeforeLoad).
  intros el. apply callback_flushedBeforeLoad.
Qed.

(** A first pass that completes has called the teardowns that were
    registered for the elements it visited. *)
Lemma first_pass_calls_registered root p s el fn t0 :
  (walkDownDOM root (callback compiles CorePreprocessors p 0) s).1 = Normal tt →
  calls (walkDownDOM root (callback compiles CorePreprocessors p 0) s).2
  = (calls s ++ t0)%list →
  el ∈ visited root → fn ∈ registered s (el_ref el) → CallRemoval fn ∈ t0.
Proof.
  intros Hnormal Ht0 Hel Hfn.
  destruct (walkDownDOM_turns flushedBeforeLoad
              (callback compiles CorePreprocessors p 0)
              (callback_flushedBeforeLoad p) root s Hnormal el Hel)
    as (sa & (ta & Ha & _ & Hkept) & _ & (tb & Hb & _)).
  destruct (callback_calls_registered p el sa) as (tc & Hc & Hall).
  rewrite Hb, Hc, Ha, <- !app_assoc in Ht0.
  apply app_inv_head in Ht0. subst t0.
  rewrite !elem_of_app.
  destruct (Hkept _ _ Hfn) as [Hstill|Hcalled]; [|by left].
  right. left. by apply Hall.
Qed.

(** A whole dispatch pass: whichever plugin's [onLoad] is called on an
    element, the teardowns registered for the element when the pass began
    have been called before. *)
Lemma applyPlugins_flushedBeforeLoad root :
  Step (@flushedBeforeLoad DeepState)
    (applyPlugins compiles CorePreprocessors root).
Proof.
  intros s. destruct (plugins s) as [|p0 rest] eqn:Hps.
  { unfold applyPlugins, bind, gets. rewrite Hps. simpl. reflexivity. }
  rewrite (applyPlugins_first_then_rest root s p0 rest Hps). unfold bind.
  pose proof (first_pass_flushedBeforeLoad root p0 s) as Hfirst.
  pose proof (first_pass_calls_registered root p0 s) as Hcalled.
  destruct (walkDownDOM root _ s) as [[[]| |e] s1]; simpl in *; [|done..].
  pose proof (later_passes_loadsOnVisited root rest 1 (Nat.neq_succ_0 0) s1)
    as ((t' & Ht' & Hloads) & Hgrow).
  destruct Hfirst as (t0 & Ht0 & Hord & Hkept).
  exists (t0 ++ t')%list. split_and!.
  - by rewrite Ht', Ht0, app_assoc.
  - intros t1 pi ctx t2 Hsplit fn Hfn.
    assert (CallOnLoad pi ctx ∈ t' → CallRemoval fn ∈ t0) as Hlater.
    { intros Hin. rewrite Forall_forall in Hloads.
      destruct (Hloads _ Hin) as (pi' & ctx' & el & [= <- <-] & Hel & Hctx).
      apply (Hcalled el fn t0 eq_refl Ht0 Hel). by rewrite <- Hctx. }
    apply app_eq_inv in Hsplit as [(k & -> & Hk)|(k & -> & ->)].
    + destruct k as [|c k].
      * rewrite app_nil_r in *. simpl in Hk. apply Hlater.
        rewrite <- Hk. by left.
      * simpl in Hk. injection Hk as <- ->. by apply (Hord t1 pi ctx k).
    + apply elem_of_app. left. apply Hlater.
      apply elem_of_app. right. by left.
  - intros e fn Hfn. rewrite elem_of_app.
    destruct (Hkept _ _ Hfn) as [Hstill|Hcalled0]; [|by auto].
    left. unfold registered in Hstill |- *.
    destruct (removals s1 !! e) as [fns|] eqn:He; simpl in Hstill;
      [|by apply elem_of_nil in Hstill].
    destruct (Hgrow _ _ He) as (fns' & -> & Hsub). simpl. by apply Hsub.
Qed.

End Flush.

(** * The dispatcher on concrete documents *)

Section Concrete.

Import Fixture.

(** Parsing [data-on-click.throttle_500="$post('/x')"]. *)
Example parse_key_and_modifiers :
  calls (attribute compiles [] onPlugin 0 (Elem 1 true "BUTTON" [] [])
           "onClick.throttle_500" "$post('/x')" (stateWith [onPlugin] 0 ∅ ∅)).2
  = [CallOnLoad 0
       {| ctx_store := 0; ctx_el := 1; ctx_key := "click";
          ctx_expression := "$post('/x')";
          ctx_expressionFn := Some "return $post('/x')";
          ctx_modifiers := {[ "throttle" := ["500"] ]} |}].
Proof. vm_compute. reflexivity. Qed.

(** An attribute that does not start with the prefix is left alone. *)
Example other_prefix_is_skipped (s : @State Json) :
  attribute compiles [] onPlugin 0 (Elem 1 true "BUTTON" [] [])
    "textContent" "x" s = (Normal tt, s).
Proof. reflexivity. Qed.

(** [run]: the global hooks come before the walk. *)
Example run_calls_global_hooks_first :
  calls (run compiles [] (Elem 1 true "DIV" [("teleportBody", "")] [])
           (stateWith [onPlugin; needsOn] 0 ∅ ∅)).2
  = [CallOnGlobalInit 1 0;
     CallOnLoad 1
       {| ctx_store := 0; ctx_el := 1; ctx_key := "body";
          ctx_expression := ""; ctx_expressionFn := None;
          ctx_modifiers := ∅ |}].
Proof. vm_compute. reflexivity. Qed.

(** The last statement of an expression is returned. *)
Example functionContent_of_statements :
  functionContent "a = 1; b = 2; a + b" = "a = 1; b = 2;return  a + b".
Proof. reflexivity. Qed.

(** Merges add up. *)
Example merges_are_additive :
  let s1 := (mergeStore mergePatch (JObj []) (JObj [("a", JNum 1)])
               (stateWith [] 0 ∅ ∅)).2 in
  let s2 := (mergeStore mergePatch (JObj []) (JObj [("b", JNum 2)]) s1).2 in
  value_of (JObj []) s2 (store s2) = JObj [("a", JNum 1); ("b", JNum 2)].
Proof. reflexivity. Qed.

(** A preprocessor whose output matches its own pattern is still applied
    to the one scan of the original text. *)
Example doubling_does_not_loop :
  preprocess [doubling] (plain "text") "a" = "aa"
  ∧ matchAll (regexp doubling) "aa" ≠ []
  ∧ preprocess [doubling; doubling] (plain "text") "a" = "aa"
  ∧ preprocess [signalInput] (plain "text") "$input.toUpperCase()"
    = "ctx.store.input.toUpperCase()".
Proof. by vm_compute. Qed.

(** *** The store handle (C1) *)

(** A context built before a merge keeps the handle of the instance that
    was current then: after the merge it is not [this.store], and reading
    through it gives the old value, not the merged one. *)
Lemma C1_counterexample :
  let doc := Elem 1 true "DIV" [("text", "$input")] [] in
  let s1 := (applyPlugins compiles [] doc (stateWith [plain "text"] 0 ∅ ∅)).2 in
  let s2 :=
    (mergeStore mergePatch (JObj []) (JObj [("input", JStr "hi")]) s1).2 in
  ∃ ctx,
    calls s2 = [CallOnLoad 0 ctx]
    ∧ ctx_store ctx ≠ store s2
    ∧ value_of (JObj []) s2 (ctx_store ctx) = JObj []
    ∧ value_of (JObj []) s2 (store s2) = JObj [("input", JStr "hi")].
Proof. simpl. eexists. by split_and!; [reflexivity|..]. Qed.

Lemma C1_witness :
  let s := stateWith [plain "text"] 0 ∅ ∅ in
  let s' := (mergeStore mergePatch (JObj []) (JObj [("a", JNum 1)]) s).2 in
  0 < length (signals s)
  ∧ store s' ≠ 0
  ∧ value_of (JObj []) s' 0 = value_of (JObj []) s 0.
Proof.
  intros s s'.
  assert (0 < length (signals s)) as Hissued by (simpl; lia).
  split; [exact Hissued|].
  pose proof (C1_merge_replaces_only_the_field mergePatch (JObj [])
                (JObj [("a", JNum 1)]) s 0 Hissued)
    as (_ & _ & _ & _ & Hother & Hvalue).
  by split.
Defined.

(** *** Compilation failure (C2) *)

(** C2 on [<button data-on-click="(" data-on-focus="f()">]: the failure
    to compile [(] is logged with the element's id and the body text, and
    the pass goes on to the next element, but [onLoad] is never called for
    [data-on-focus] of the same button; with a first expression that
    compiles, it is. *)
Theorem C2_compile_failure_abandons_the_element :
  let bad := applyPlugins compiles [] (page badButton)
               (stateWith [onPlugin] 0 ∅ ∅) in
  let good := applyPlugins compiles [] (page goodButton)
                (stateWith [onPlugin] 0 ∅ ∅) in
  bad.1 = Normal tt
  ∧ console bad.2
    = [SyntaxErrorOf "return (";
       Message "Error evaluating expression 'return (' on #ds--0"]
  ∧ loads bad.2 = [(0, 3, "hover")]
  ∧ loads good.2 = [(0, 2, "click"); (0, 2, "focus"); (0, 3, "hover")].
Proof. by vm_compute. Qed.

(** *** Registration (C3, C4, C8) *)

(** Two plugins with the prefix [on] are both registered, and in a pass
    each of them handles the attributes that start with [on]. *)
Lemma C3_counterexample :
  prefix onPlugin = prefix otherOn
  ∧ ∃ st,
      constructor (JObj []) [] ∅ [onPlugin; otherOn] = inr st
      ∧ plugins st = [onPlugin; otherOn]
      ∧ loads (applyPlugins compiles []
                 (Elem 1 true "BUTTON" [("onClick", "f()")] []) st).2
        = [(0, 1, "click"); (1, 1, "click")].
Proof. split; [done|]. eexists. split; [reflexivity|]. by vm_compute. Qed.

Lemma providedEarlier_on_twice : providedEarlier ([] ++ [onPlugin; otherOn]).
Proof.
  intros [|[|i]] p r Hp Hr; simpl in Hp; [| |done];
    injection Hp as <-; by apply elem_of_nil in Hr.
Defined.

Lemma C3_witness :
  ∃ st,
    constructor (JObj []) [] ∅ [onPlugin; otherOn] = inr st
    ∧ plugins st !! 0 = Some onPlugin ∧ plugins st !! 1 = Some otherOn.
Proof.
  apply (C3_shared_prefix_is_registered (JObj []) [] ∅ [onPlugin; otherOn]
           0 1 onPlugin otherOn).
  - lia.
  - reflexivity.
  - reflexivity.
  - reflexivity.
  - exact providedEarlier_on_twice.
Defined.

(** [teleport] requires [on] and is listed before it. *)
Lemma C4_witness :
  ∃ q r', constructor (JObj []) [] ∅ [needsOn; onPlugin]
          = inl (PluginRequires q r').
Proof.
  apply (C4_dependencies_are_positional (JObj []) [] ∅ [needsOn; onPlugin]
           0 needsOn "on").
  - reflexivity.
  - simpl. apply list_elem_of_here.
  - intros j q Hj. lia.
Defined.

(** With a built-in plugin, an empty user list constructs a dispatcher. *)
Lemma C8_counterexample :
  ∃ st, constructor (JObj []) [plain "ref"] ∅ [] = inr st
        ∧ plugins st = [plain "ref"].
Proof. eexists. split; reflexivity. Qed.

Lemma C8_witness :
  constructor (JObj []) [] ∅ [] = inl NoPluginsProvided
  ∧ constructor (JObj []) [plain "ref"] ∅ [] ≠ inl NoPluginsProvided.
Proof.
  split.
  - apply (C8_no_plugins_iff_combined_list_empty (JObj []) [] ∅ []). by split.
  - intros Hthrown.
    apply (C8_no_plugins_iff_combined_list_empty (JObj []) [plain "ref"] ∅ [])
      in Hthrown as [Hcore _].
    discriminate Hcore.
Defined.

(** *** Validation order (C5) *)

(** [data-model] without a key on a [div]: the key requirement and the tag
    allow-list are both violated, and the error thrown is the tag's. *)
Lemma C5_counterexample :
  let el := Elem 1 true "DIV" [("model", "")] [] in
  keyViolation modelPlugin "model" = Some (MustHaveNonEmptyKey "model")
  ∧ tagViolation modelPlugin el "model" = Some (TagNotAllowed "DIV" "model")
  ∧ violationInStatedOrder modelPlugin el "model" ""
    = Some (MustHaveNonEmptyKey "model")
  ∧ (attribute compiles [] modelPlugin 0 el "model" ""
       (stateWith [modelPlugin] 0 ∅ ∅)).1
    = Throw (TagNotAllowed "DIV" "model").
Proof. by vm_compute. Qed.

Lemma C5_witness :
  JS.startsWith "onClick.once" (prefix onPlugin) = true
  ∧ (attribute compiles [] onPlugin 0 (Elem 1 true "BUTTON" [] [])
       "onClick.once" "f()" (stateWith [onPlugin] 0 ∅ ∅)).1
    = Throw (ModifierNotAllowed "once").
Proof.
  split; [reflexivity|].
  exact (C5_validation_order compiles [] onPlugin 0
           (Elem 1 true "BUTTON" [] []) "onClick.once" "f()"
           (stateWith [onPlugin] 0 ∅ ∅) eq_refl).
Defined.

(** *** Flushing (C6, C9) *)

(** *** Preprocessing (C7) *)

(** The same preprocessor listed core-wide and by the plugin. *)
Lemma C7_witness :
  let p :=
    {| prefix := "text"; requiredPluginPrefixes := None;
       onGlobalInit := false; onLoad := λ _, None;
       allowedTagRegexps := None; allowedModifiers := None;
       mustHaveEmptyKey := false; mustNotEmptyKey := false;
       mustHaveEmptyExpression := false; mustNotEmptyExpression := false;
       preprocessors := Some [doubling; signalInput];
       bypassExpressionFunctionCreation := None |} in
  preprocess [doubling] p "a + $input"
  = applyProcessor signalInput (applyProcessor doubling "a + $input")
  ∧ preprocess [doubling] p "a + $input" = "aa + ctx.store.input".
Proof.
  intros p.
  pose proof (C7_each_preprocessor_applies_once [doubling] p "a + $input")
    as (Hchain & _ & _).
  split; [exact Hchain|]. by vm_compute.
Defined.

(** *** Generated ids (C10) *)




End Concrete.

(** * Further properties of the code *)

(** ** Construction, in full *)

Section ConstructionInFull.

Context {DeepState : Type} (emptyObject : DeepState).
Variable CorePlugins : list AttributePlugin.

Lemma checkRequired_first_missing p required all e :
  checkRequired p required all = Some e →
  ∃ before r after,
    required = (before ++ r :: after)%list
    ∧ e = PluginRequires (prefix p) r
    ∧ (r ∉ all)
    ∧ ∀ x, x ∈ before → x ∈ all.
Proof.
  induction required as [|r0 rest IH]; simpl; [done|].
  case_bool_decide as Hr0.
  - intros Hrest. destruct (IH Hrest) as (before & r & after & -> & -> & Hr & Hb).
    exists (r0 :: before), r, after. split_and!; [done..|].
    intros x [->|Hx]%elem_of_cons; auto.
  - intros [= <-]. exists [], r0, rest. split_and!; [done..|].
    intros x Hx. by apply elem_of_nil in Hx.
Qed.

Lemma checkRequired_None_inv p required all :
  checkRequired p required all = None → ∀ r, r ∈ required → r ∈ all.
Proof.
  induction required as [|r0 rest IH]; simpl.
  - intros _ r Hr. by apply elem_of_nil in Hr.
  - case_bool_decide as Hr0; [|done].
    intros Hrest r [->|Hr]%elem_of_cons; auto.
Qed.

(** What [allPluginPrefixes] holds when the loop reaches index [i]. *)
Lemma registerAll_inr ps : ∀ all registered res,
  registerAll ps all registered = inr res →
  res = (registered ++ ps)%list
  ∧ ∀ i p r, ps !! i = Some p → r ∈ default [] (requiredPluginPrefixes p) →
      r ∈ all ∨ ∃ j q, j < i ∧ ps !! j = Some q ∧ prefix q = r.
Proof.
  induction ps as [|p0 rest IH]; intros all registered res; simpl.
  - intros [= <-]. split; [by rewrite app_nil_r|].
    intros i p r Hp. by rewrite lookup_nil in Hp.
  - destruct (checkRequired p0 _ all) eqn:Hcheck; [done|].
    intros Hres. destruct (IH _ _ _ Hres) as [-> Hdeps].
    split; [by rewrite <- app_assoc|].
    intros [|i] p r Hp Hr; simpl in Hp.
    + injection Hp as <-. left.
      by apply (checkRequired_None_inv p0 _ all Hcheck).
    + destruct (Hdeps i p r Hp Hr) as [Hall|(j & q & Hj & Hq & Hpre)].
      * apply elem_of_union in Hall as [->%elem_of_singleton|Hall]; [|by left].
        right. exists 0, p0. split; [lia|done].
      * right. exists (S j), q. split; [lia|done].
Qed.

Lemma registerAll_inl ps : ∀ all registered e,
  registerAll ps all registered = inl e →
  ∃ i p before r after,
    ps !! i = Some p
    ∧ e = PluginRequires (prefix p) r
    ∧ default [] (requiredPluginPrefixes p) = (before ++ r :: after)%list
    ∧ ((r ∉ all) ∧ ∀ j q, j < i → ps !! j = Some q → prefix q ≠ r)
    ∧ (∀ x, x ∈ before →
         x ∈ all ∨ ∃ j q, j < i ∧ ps !! j = Some q ∧ prefix q = x)
    ∧ (∀ k q x, k < i → ps !! k = Some q →
         x ∈ default [] (requiredPluginPrefixes q) →
         x ∈ all ∨ ∃ j q', j < k ∧ ps !! j = Some q' ∧ prefix q' = x).
Proof.
  induction ps as [|p0 rest IH]; intros all registered e; simpl; [done|].
  destruct (checkRequired p0 _ all) as [e0|] eqn:Hcheck.
  - intros [= <-].
    destruct (checkRequired_first_missing _ _ _ _ Hcheck)
      as (before & r & after & Hreq & -> & Hr & Hb).
    exists 0, p0, before, r, after. split_and!; try done.
    + intros j q Hj. lia.
    + intros x Hx. left. by apply Hb.
    + intros k q x Hk. lia.
  - intros Hrest.
    destruct (IH _ _ _ Hrest)
      as (i & p & before & r & after & Hp & -> & Hreq & [Hr Hearlier] & Hb & Hmin).
    exists (S i), p, before, r, after. split_and!; try done.
    + set_solver.
    + intros [|j] q Hj Hq; simpl in Hq.
      * injection Hq as <-. set_solver.
      * apply (Hearlier j); [lia|done].
    + intros x Hx. destruct (Hb x Hx) as [Hall|(j & q & Hj & Hq & Hpre)].
      * apply elem_of_union in Hall as [->%elem_of_singleton|Hall]; [|by left].
        right. exists 0, p0. split; [lia|done].
      * right. exists (S j), q. split; [lia|done].
    + intros [|k] q x Hk Hq Hx; simpl in Hq.
      * injection Hq as <-. left.
        by apply (checkRequired_None_inv p0 _ all Hcheck).
      * destruct (Hmin k q x) as [Hall|(j & q' & Hj & Hq' & Hpre)];
          [lia|done|done| |].
        -- apply elem_of_union in Hall as [->%elem_of_singleton|Hall];
             [|by left].
           right. exists 0, p0. split; [lia|done].
        -- right. exists (S j), q'. split; [lia|done].
Qed.

(** Construction succeeds exactly on a non-empty combined list in which
    every required prefix is provided by an earlier plugin, and then gives
    the initial dispatcher: the combined list registered in order, a first
    store instance holding the empty object, counter 0, an empty registry. *)
Theorem constructor_succeeds_iff ids userPlugins st :
  constructor emptyObject CorePlugins ids userPlugins = inr st
  ↔ (CorePlugins ++ userPlugins)%list ≠ []
    ∧ providedEarlier (CorePlugins ++ userPlugins)
    ∧ st = {| plugins := (CorePlugins ++ userPlugins)%list; store := 0;
              parentID := ""; missingIDNext := 0; removals := ∅;
              signals := [emptyObject]; elementId := ids;
              console := []; calls := [] |}.
Proof.
  unfold constructor. split.
  - case_bool_decide as Hlen; [done|].
    destruct (registerAll _ ∅ []) as [e|res] eqn:Hreg; [done|].
    intros [= <-]. destruct (registerAll_inr _ _ _ _ Hreg) as [-> Hdeps].
    split_and!.
    + intros Hnil. by rewrite Hnil in Hlen.
    + intros i p r Hp Hr.
      destruct (Hdeps i p r Hp Hr) as [Hall|?]; [set_solver|done].
    + done.
  - intros (Hne & Hdeps & ->).
    rewrite bool_decide_eq_false_2
      by (intros Hlen; by apply nil_length_inv in Hlen).
    rewrite registerAll_ok; [done|].
    intros i p r Hp Hr. right. by apply (Hdeps i p r).
Qed.

(** The error of a failed dependency check names the first plugin of the
    combined list one of whose required prefixes is not provided earlier,
    and the first such prefix in that plugin's list; every plugin before it
    has its requirements provided earlier. *)
Theorem constructor_names_first_missing ids userPlugins q r :
  constructor emptyObject CorePlugins ids userPlugins
  = inl (PluginRequires q r) →
  ∃ i p before after,
    (CorePlugins ++ userPlugins)%list !! i = Some p
    ∧ q = prefix p
    ∧ default [] (requiredPluginPrefixes p) = (before ++ r :: after)%list
    ∧ (∀ j p', j < i → (CorePlugins ++ userPlugins)%list !! j = Some p' →
         prefix p' ≠ r)
    ∧ (∀ x, x ∈ before →
         ∃ j p', j < i ∧ (CorePlugins ++ userPlugins)%list !! j = Some p'
                 ∧ prefix p' = x)
    ∧ providedEarlier (take i (CorePlugins ++ userPlugins)).
Proof.
  unfold constructor. case_bool_decide as Hlen; [done|].
  destruct (registerAll _ ∅ []) as [e|res] eqn:Hreg; [|done].
  intros [= ->].
  destruct (registerAll_inl _ _ _ _ Hreg)
    as (i & p & before & r' & after & Hp & [= -> ->] & Hreq & [_ Hearlier]
        & Hb & Hmin).
  exists i, p, before, after. split_and!; [done..| |].
  - intros x Hx. destruct (Hb x Hx) as [Hall|?]; [set_solver|done].
  - intros k p' x Hk Hx.
    pose proof (lookup_lt_Some _ _ _ Hk) as Hlt. rewrite length_take in Hlt.
    rewrite lookup_take_lt in Hk by lia.
    destruct (Hmin k p' x) as [Hall|(j & q' & Hj & Hq' & Hpre)];
      [lia|done|done|set_solver|].
    exists j, q'. split; [lia|]. split; [|done].
    rewrite lookup_take_lt by lia. done.
Qed.

End ConstructionInFull.

(** ** The walk and [run] *)

Section Walk.

Context {DeepState : Type}.
Implicit Types s : @State DeepState.

Lemma forEach_app {A} (l1 l2 : list A) (f : A → M unit) s :
  forEach (l1 ++ l2) f s
  = match forEach l1 f s with
    | (Normal _, s') => forEach l2 f s'
    | r => r
    end.
Proof.
  revert s. induction l1 as [|x l1 IH]; intros s; simpl; [done|].
  unfold bind. destruct (f x s) as [[[]| |e] s1]; [apply IH|done..].
Qed.

Lemma walkSiblings_preorder (cb : Element → @M DeepState unit) cs :
  Forall (λ c, ∀ s, walkDownDOM c cb s = forEach (visited c) cb s) cs →
  ∀ s, walkSiblings cb cs s = forEach (flat_map visited cs) cb s.
Proof.
  induction 1 as [|c cs Hc _ IH]; intros s; simpl; [done|].
  rewrite forEach_app. unfold bind. rewrite Hc.
  destruct (forEach (visited c) cb s) as [[[]| |e] s1]; [apply IH|done..].
Qed.

Lemma walk_as_forEach (cb : Element → @M DeepState unit) root s :
  walkDownDOM root cb s = forEach (visited root) cb s.
Proof.
  revert s. induction root as [r b t d cs IH] using Element_ind'. intros s.
  rewrite walkDownDOM_unfold, visited_unfold.
  destruct b; simpl; [|done].
  unfold bind. destruct (cb _ s) as [[[]| |e] s1]; [|done..].
  by apply walkSiblings_preorder.
Qed.


Lemma globalInit_loop ps : ∀ i s,
  forEachIndexed ps i
    (λ p pi, when (onGlobalInit p)
               (bind (gets store) (λ h, call (CallOnGlobalInit pi h)))) s
  = (Normal tt, add_calls (globalInits ps i (store s)) s).
Proof.
  induction ps as [|p ps IH]; intros i s; simpl.
  - by rewrite add_calls_nil.
  - unfold bind at 1. destruct (onGlobalInit p); simpl.
    + rewrite IH. simpl. by rewrite add_calls_app.
    + by rewrite IH.
Qed.

Variable compiles : string → bool.
Variable CorePreprocessors : list Preprocesser.

Lemma run_as_applyPlugins body s :
  run compiles CorePreprocessors body s
  = applyPlugins compiles CorePreprocessors body
      (add_calls (globalInits (plugins s) 0 (store s)) s).
Proof.
  unfold run, bind at 1 2, gets. simpl.
  by rewrite globalInit_loop.
Qed.

Lemma attributes_all_skipped p pi el attrs s :
  (∀ dsKey value,
     (dsKey, value) ∈ attrs → JS.startsWith dsKey (prefix p) = false) →
  forEach attrs
    (λ kv, attribute compiles CorePreprocessors p pi el kv.1 kv.2) s
  = (Normal tt, s).
Proof.
  induction attrs as [|[k v] attrs IH]; intros Hskip; simpl; [done|].
  unfold bind, attribute. simpl. rewrite (Hskip k v) by by left. simpl.
  apply IH. intros dsKey value Hin. apply (Hskip dsKey value). by right.
Qed.

(** An element none of whose attributes starts with the plugin's prefix is
    left as it is by that plugin's callback, except that the first plugin's
    callback flushes its teardowns: nothing is called for it, no id is
    given to it and nothing is logged. *)
Theorem callback_ignores_other_prefixes p pi el s :
  (∀ dsKey value,
     (dsKey, value) ∈ dataset el → JS.startsWith dsKey (prefix p) = false) →
  callback compiles CorePreprocessors p pi el s
  = (Normal tt, if bool_decide (pi = 0) then flushed (el_ref el) s else s).
Proof.
  intros Hskip. rewrite callback_flushes_first. unfold endOfFunction.
  by rewrite attributes_all_skipped.
Qed.

End Walk.

(** ** One attribute occurrence, case by case *)

Section AttributeCases.

Context {DeepState : Type}.
Implicit Types s : @State DeepState.
Variable compiles : string → bool.
Variable CorePreprocessors : list Preprocesser.

(** The three ways a turn of the loop over [el.dataset] goes. *)
Lemma attribute_cases p pi el dsKey value s :
  (JS.startsWith dsKey (prefix p) = false
   ∧ attribute compiles CorePreprocessors p pi el dsKey value s = (Normal tt, s))
  ∨ (JS.startsWith dsKey (prefix p) = true
     ∧ ∃ e, violationInSourceOrder p el dsKey value = Some e
            ∧ attribute compiles CorePreprocessors p pi el dsKey value s
              = (Throw e, (assignMissingID el s).2))
  ∨ (JS.startsWith dsKey (prefix p) = true
     ∧ violationInSourceOrder p el dsKey value = None
     ∧ attribute compiles CorePreprocessors p pi el dsKey value s
       = invokePlugin compiles CorePreprocessors p pi el
           (lowerFirst (keyOf p dsKey)) (modifiersOf p dsKey) value
           (assignMissingID el s).2).
Proof.
  destruct (JS.startsWith dsKey (prefix p)) eqn:Hprefix.
  - right. rewrite attribute_matching, processAttribute_validates by done.
    destruct (violationInSourceOrder p el dsKey value) as [e|].
    + left. split; [done|]. by exists e.
    + right. by split_and!.
  - left. split; [done|]. unfold attribute. by rewrite Hprefix.
Qed.

(** An attribute that fails validation has already caused its element to be
    given an id if it had none, and the counter to move on if it was below
    [2^53]; apart from that the failed attribute leaves no trace: nothing
    is called, registered or logged for it. *)
Theorem rejected_attribute_keeps_generated_id p pi el dsKey value s e :
  JS.startsWith dsKey (prefix p) = true →
  violationInSourceOrder p el dsKey value = Some e →
  let r := attribute compiles CorePreprocessors p pi el dsKey value s in
  r.1 = Throw e
  ∧ calls r.2 = calls s ∧ removals r.2 = removals s ∧ console r.2 = console s
  ∧ (id_of s (el_ref el) = "" →
     id_of r.2 (el_ref el) = missingID (parentID s) (missingIDNext s)
     ∧ (belowLimit (missingIDNext s) →
        missingIDNext r.2 = S (missingIDNext s)))
  ∧ (id_of s (el_ref el) ≠ "" →
     elementId r.2 = elementId s ∧ missingIDNext r.2 = missingIDNext s).
Proof.
  intros Hprefix Hviolation. simpl.
  rewrite attribute_matching, processAttribute_validates, Hviolation by done.
  simpl. unfold assignMissingID, bind, gets.
  case_bool_decide as Hlen; simpl.
  - split_and!; [done..| |].
    + intros _. split.
      * unfold id_of. simpl. by rewrite lookup_insert_eq.
      * apply increment_below.
    + intros Hid. by destruct (id_of s (el_ref el)).
  - split_and!; [done..| |done].
    intros Hid. by rewrite Hid in Hlen.
Qed.

End AttributeCases.

(** ** How a dispatch pass can end *)

Section Endings.

Context {DeepState : Type}.
Implicit Types s : @State DeepState.
Variable E : Error → Prop.

Lemma Ends_weaken {A} (m : @M DeepState A) (P Q : Prop) :
  (P → Q) → Ends E P m → Ends E Q m.
Proof.
  intros HPQ Hm s. specialize (Hm s). destruct (m s).1; auto.
Qed.

Lemma Ends_bind {A B} (m : @M DeepState A) (k : A → M B) mayReturn :
  Ends E mayReturn m → (∀ a, Ends E mayReturn (k a)) →
  Ends E mayReturn (bind m k).
Proof.
  intros Hm Hk s. unfold bind. specialize (Hm s).
  destruct (m s) as [[a| |e] s1]; simpl in *; [apply Hk|done..].
Qed.

Lemma Ends_forEach {A} (l : list A) (f : A → @M DeepState unit) mayReturn :
  (∀ x, x ∈ l → Ends E mayReturn (f x)) → Ends E mayReturn (forEach l f).
Proof.
  induction l as [|x l IH]; intros Hf; simpl; [by intros s|].
  apply Ends_bind; [apply Hf; by left|].
  intros _. apply IH. intros y Hy. apply Hf. by right.
Qed.

Lemma Ends_forEachIndexed {A} (l : list A) (f : A → nat → @M DeepState unit)
    mayReturn : ∀ i,
  (∀ x j, x ∈ l → Ends E mayReturn (f x j)) →
  Ends E mayReturn (forEachIndexed l i f).
Proof.
  induction l as [|x l IH]; intros i Hf; simpl; [by intros s|].
  apply Ends_bind; [apply Hf; by left|].
  intros _. apply IH. intros y j Hy. apply Hf. by right.
Qed.

Lemma Ends_endOfFunction (m : @M DeepState unit) mayReturn :
  Ends E True m → Ends E mayReturn (endOfFunction m).
Proof.
  intros Hm s. unfold endOfFunction. specialize (Hm s).
  by destruct (m s) as [[[]| |e] s1].
Qed.

End Endings.

Section EndingsOfTheDispatcher.

Context {DeepState : Type}.
Implicit Types s : @State DeepState.
Variable compiles : string → bool.
Variable CorePreprocessors : list Preprocesser.

Lemma cleanup_ends E mayReturn el :
  Ends (DeepState := DeepState) E mayReturn (cleanupElementRemovals el).
Proof. intros s. by rewrite cleanup_flushed. Qed.

Lemma attribute_ends ps root p pi el dsKey value :
  p ∈ ps → el ∈ visited root → (dsKey, value) ∈ dataset el →
  Ends (DeepState := DeepState) (rejects ps root) True
    (attribute compiles CorePreprocessors p pi el dsKey value).
Proof.
  intros Hp Hel Hattr s.
  destruct (attribute_cases compiles CorePreprocessors p pi el dsKey value s)
    as [[_ ->]|[(Hprefix & e & Hviolation & ->)|(_ & _ & ->)]]; simpl.
  - done.
  - by exists p, el, dsKey, value.
  - pose proof (invokePlugin_no_throw compiles CorePreprocessors p pi el
                  (lowerFirst (keyOf p dsKey)) (modifiersOf p dsKey) value
                  (assignMissingID el s).2) as Hno.
    destruct (invokePlugin _ _ _ _ _ _ _ _ _).1 as [[]| |e]; [done..|].
    by destruct (Hno e).
Qed.

End EndingsOfTheDispatcher.

(** ** Order of the handlers and lifetime invariants *)

Section Lifetime.

Context {DeepState : Type}.
Implicit Types s : @State DeepState.

#[local] Instance loadsOfPlugin_preorder i : PreOrder (@loadsOfPlugin DeepState i).
Proof.
  split.
  - intros s. exists []. by rewrite app_nil_r.
  - intros s1 s2 s3 (ta & Ha & Hta) (tb & Hb & Htb).
    exists (ta ++ tb)%list. split; [by rewrite Hb, Ha, app_assoc|].
    by apply Forall_app.
Qed.

Lemma loadsOfPlugin_same i s s' : calls s' = calls s → loadsOfPlugin i s s'.
Proof. intros Hcalls. exists []. by rewrite app_nil_r. Qed.

Lemma loadsOfPlugin_writes i el : AttributeWrites (@loadsOfPlugin DeepState i) i el.
Proof.
  split_and!.
  - intros e s. by apply loadsOfPlugin_same.
  - intros ctx _ s. exists [CallOnLoad i ctx]. split; [done|].
    apply Forall_singleton. by intros pi ctx' [= -> _].
  - intros removal s. by apply loadsOfPlugin_same.
Qed.

Lemma loadsOfPlugin_cleanup i el :
  Step (@loadsOfPlugin DeepState i) (cleanupElementRemovals el).
Proof.
  intros s. rewrite cleanup_flushed. simpl.
  exists (CallRemoval <$> registered s el). split; [apply flushed_calls|].
  apply Forall_fmap, Forall_true. by intros fn pi ctx.
Qed.

Lemma loadsOfPlugin_assignMissingID i el :
  Step (@loadsOfPlugin DeepState i) (assignMissingID el).
Proof.
  intros s. unfold assignMissingID, bind, gets.
  case_bool_decide; by apply loadsOfPlugin_same.
Qed.

Lemma loadIndexes_of_plugin i t :
  Forall (λ c, ∀ pi ctx, c = CallOnLoad pi ctx → pi = i) t →
  Forall (λ j, j = i) (loadIndexes t).
Proof.
  induction 1 as [|c t Hc _ IH]; simpl; [constructor|].
  destruct c as [| pi ctx |]; simpl; [done| |done].
  constructor; [by eapply Hc|done].
Qed.

Variable compiles : string → bool.
Variable CorePreprocessors : list Preprocesser.

Lemma constant_indexes_sorted i (l : list nat) :
  Forall (λ j, j = i) l → StronglySorted le l.
Proof.
  induction 1 as [|j l -> Hl IH]; constructor; [done|].
  eapply Forall_impl; [exact Hl|]. intros j ->. lia.
Qed.

Lemma passes_in_plugin_order root ps : ∀ i s,
  ∃ t,
    calls (forEachIndexed ps i (λ p pi,
             walkDownDOM root (callback compiles CorePreprocessors p pi)) s).2
    = (calls s ++ t)%list
    ∧ StronglySorted le (loadIndexes t)
    ∧ Forall (λ j, (i ≤ j)%nat) (loadIndexes t).
Proof.
  induction ps as [|p ps IH]; intros i s; simpl.
  { exists []. rewrite app_nil_r. split_and!; constructor. }
  unfold bind.
  assert (loadsOfPlugin i s
            (walkDownDOM root (callback compiles CorePreprocessors p i) s).2)
    as (ta & Ha & Hta).
  { apply (Step_walkDownDOM (loadsOfPlugin i)). intros el.
    apply Step_callback; [apply _|apply loadsOfPlugin_writes|..].
    - apply loadsOfPlugin_assignMissingID.
    - apply loadsOfPlugin_cleanup. }
  apply loadIndexes_of_plugin in Hta.
  assert (Forall (λ j, (i ≤ j)%nat) (loadIndexes ta)) as Hge.
  { eapply Forall_impl; [exact Hta|]. intros j ->. lia. }
  destruct (walkDownDOM root _ s) as [[[]| |e] s1]; simpl in Ha |- *.
  - destruct (IH (S i) s1) as (tb & Hb & Hsorted & Hgt).
    exists (ta ++ tb)%list. unfold loadIndexes in *. rewrite omap_app.
    split_and!.
    + by rewrite Hb, Ha, app_assoc.
    + apply StronglySorted_app. split_and!; [|by eapply constant_indexes_sorted|done].
      intros x1 x2 Hx1 Hx2. rewrite Forall_forall in Hta, Hgt.
      rewrite (Hta _ Hx1). specialize (Hgt _ Hx2). simpl in Hgt. lia.
    + apply Forall_app. split; [done|].
      eapply Forall_impl; [exact Hgt|]. intros j Hj. simpl in Hj. lia.
  - exists ta. split_and!; [done|by eapply constant_indexes_sorted|done].
  - exists ta. split_and!; [done|by eapply constant_indexes_sorted|done].
Qed.

Variable apply : DeepState → DeepState → DeepState.
Variable emptyObject : DeepState.

#[local] Instance keepsWellFormed_preorder ps :
  PreOrder (@keepsWellFormed DeepState ps).
Proof.
  split.
  - intros s Hs. exact Hs.
  - intros s1 s2 s3 H12 H23 H1. by apply H23, H12.
Qed.

Lemma keepsWellFormed_same ps s s' :
  plugins s' = plugins s → parentID s' = parentID s → store s' = store s →
  signals s' = signals s → removals s' = removals s →
  keepsWellFormed ps s s'.
Proof.
  intros Hps Hparent Hstore Hsignals Hremovals (H1 & H2 & H3 & H4).
  unfold WellFormed. rewrite Hps, Hparent, Hstore, Hsignals, Hremovals.
  by split_and!.
Qed.

Lemma keepsWellFormed_writes ps pi el :
  AttributeWrites (@keepsWellFormed DeepState ps) pi el.
Proof.
  split_and!.
  - intros e s. by apply keepsWellFormed_same.
  - intros ctx _ s. by apply keepsWellFormed_same.
  - intros removal s (H1 & H2 & H3 & H4). split_and!; [done..|].
    intros e fns. simpl. destruct (decide (e = el_ref el)) as [->|Hne].
    + rewrite lookup_insert_eq. intros [= <-]. apply set_add_NoDup.
      destruct (removals s !! el_ref el) as [fns0|] eqn:Hel; simpl.
      * by apply (H4 (el_ref el)).
      * apply NoDup_nil_2.
    + rewrite lookup_insert_ne by done. apply H4.
Qed.

Lemma keepsWellFormed_assignMissingID ps el :
  Step (@keepsWellFormed DeepState ps) (assignMissingID el).
Proof.
  intros s. unfold assignMissingID, bind, gets.
  case_bool_decide; by apply keepsWellFormed_same.
Qed.

Lemma keepsWellFormed_cleanup ps el :
  Step (@keepsWellFormed DeepState ps) (cleanupElementRemovals el).
Proof.
  intros s (H1 & H2 & H3 & H4). rewrite cleanup_flushed. simpl.
  unfold WellFormed. rewrite flushed_removals.
  unfold flushed. destruct (removals s !! el); simpl; split_and!; try done.
  all: intros e fns [_ Hfns]%lookup_delete_Some; by apply (H4 e).
Qed.

Lemma keepsWellFormed_perform ps op :
  Step (@keepsWellFormed DeepState ps)
    (perform apply emptyObject compiles CorePreprocessors op).
Proof.
  assert (∀ root,
            Step (@keepsWellFormed DeepState ps)
              (applyPlugins compiles CorePreprocessors root)) as Hpass.
  { intros root. apply Step_applyPlugins; [apply _|..].
    - intros pi el. apply keepsWellFormed_writes.
    - apply keepsWellFormed_assignMissingID.
    - apply keepsWellFormed_cleanup. }
  destruct op as [body|root|patch|el]; simpl.
  - intros s. rewrite run_as_applyPlugins.
    etrans; [|apply Hpass]. by apply keepsWellFormed_same.
  - apply Hpass.
  - intros s (H1 & H2 & H3 & H4). split_and!; try done.
    unfold mergeStore, modify, set_store. simpl. rewrite length_app. simpl. lia.
  - apply keepsWellFormed_cleanup.
Qed.

(** Through any sequence of calls of [run], [applyPlugins], [mergeStore]
    and [cleanupElementRemovals] made one after another on a constructed
    dispatcher, its plugin list stays the one registered, [parentID] stays
    empty, so that generated ids are [ds--<n>], [this.store] designates a
    store instance that exists, and no registry entry holds a teardown
    twice. *)
Theorem lifetime_invariants CorePlugins ids userPlugins st ops :
  constructor emptyObject CorePlugins ids userPlugins = inr st →
  WellFormed (CorePlugins ++ userPlugins)
    (performAll apply emptyObject compiles CorePreprocessors ops st).
Proof.
  intros Hst.
  assert (WellFormed (CorePlugins ++ userPlugins) st) as Hwf.
  { unfold constructor in Hst. case_bool_decide; [done|].
    destruct (registerAll _ ∅ []) as [e|res] eqn:Hreg; [done|].
    injection Hst as <-. apply registerAll_inr in Hreg as [-> _].
    split_and!; [done|done|simpl; lia|].
    intros e fns. simpl. by rewrite lookup_empty. }
  clear Hst. revert st Hwf.
  induction ops as [|op ops IH]; intros st Hwf; simpl; [done|].
  apply IH. by apply (keepsWellFormed_perform _ op st).
Qed.

End Lifetime.

(** ** A pass, from what each attribute occurrence does *)

Section StepsFromAttributes.

Context {DeepState : Type}.
Variable compiles : string → bool.
Variable CorePreprocessors : list Preprocesser.
Variable R : relation (@State DeepState).
Context `{!PreOrder R}.

Lemma Step_forEach_elem {A} (l : list A) (f : A → @M DeepState unit) :
  (∀ x, x ∈ l → Step R (f x)) → Step R (forEach l f).
Proof.
  induction l as [|x l IH]; intros Hf; simpl; [apply (Step_ret R)|].
  apply (Step_bind R); [apply Hf; by left|].
  intros _. apply IH. intros y Hy. apply Hf. by right.
Qed.

Lemma Step_forEachIndexed_lookup {A} (l : list A)
    (f : A → nat → @M DeepState unit) : ∀ i,
  (∀ k x, l !! k = Some x → Step R (f x (i + k))) →
  Step R (forEachIndexed l i f).
Proof.
  induction l as [|x l IH]; intros i Hf; simpl; [apply (Step_ret R)|].
  apply (Step_bind R).
  - specialize (Hf 0 x eq_refl). by rewrite Nat.add_0_r in Hf.
  - intros _. apply IH. intros k y Hk.
    replace (S i + k) with (i + S k) by lia. by apply Hf.
Qed.

Lemma Step_attribute_from_invoke p pi el dsKey value :
  Step R (assignMissingID el) →
  (JS.startsWith dsKey (prefix p) = true →
   violationInSourceOrder p el dsKey value = None →
   ∀ s, R (assignMissingID el s).2
          (invokePlugin compiles CorePreprocessors p pi el
             (lowerFirst (keyOf p dsKey)) (modifiersOf p dsKey) value
             (assignMissingID el s).2).2) →
  Step R (attribute compiles CorePreprocessors p pi el dsKey value).
Proof.
  intros Hid Hinvoke s.
  destruct (attribute_cases compiles CorePreprocessors p pi el dsKey value s)
    as [[_ ->]|[(_ & e & _ & ->)|(Hprefix & Hviolation & ->)]]; simpl.
  - reflexivity.
  - apply Hid.
  - etrans; [apply Hid|]. by apply Hinvoke.
Qed.

Lemma Step_applyPlugins_from_attributes root ps :
  (∀ pi p el dsKey value,
     ps !! pi = Some p → el ∈ visited root → (dsKey, value) ∈ dataset el →
     Step R (attribute compiles CorePreprocessors p pi el dsKey value)) →
  (∀ el, Step R (cleanupElementRemovals el)) →
  ∀ s, plugins s = ps →
       R s (applyPlugins compiles CorePreprocessors root s).2.
Proof.
  intros Hattr Hclean s Hps. unfold applyPlugins, bind, gets. simpl.
  rewrite Hps. apply Step_forEachIndexed_lookup. intros pi p Hp.
  apply (Step_walkDownDOM_visited R). intros el Hel.
  unfold callback. apply (Step_endOfFunction R), (Step_bind R).
  - apply (Step_when R), Hclean.
  - intros _. apply Step_forEach_elem. intros [dsKey value] Hin.
    by apply Hattr.
Qed.

End StepsFromAttributes.

(** ** The contexts handed to the plugins *)

Section Contexts.

Context {DeepState : Type}.
Implicit Types s : @State DeepState.
Variable compiles : string → bool.
Variable CorePreprocessors : list Preprocesser.
Variable ps : list AttributePlugin.
Variable root : Element.
Variable h : nat.

#[local] Instance contextsFrom_preorder :
  PreOrder (@contextsFrom DeepState compiles CorePreprocessors ps root h).
Proof.
  split.
  - intros s Hs. split; [done|]. exists []. by rewrite app_nil_r.
  - intros s1 s2 s3 H12 H23 H1.
    destruct (H12 H1) as (H2 & ta & Ha & Hta).
    destruct (H23 H2) as (H3 & tb & Hb & Htb).
    split; [done|]. exists (ta ++ tb)%list.
    split; [by rewrite Hb, Ha, app_assoc|by apply Forall_app].
Qed.

Lemma contextsFrom_same s s' :
  store s' = store s → calls s' = calls s →
  contextsFrom compiles CorePreprocessors ps root h s s'.
Proof.
  intros Hstore Hcalls Hs. split; [by rewrite Hstore|].
  exists []. by rewrite app_nil_r.
Qed.

Lemma contextsFrom_assignMissingID el :
  Step (@contextsFrom DeepState compiles CorePreprocessors ps root h)
    (assignMissingID el).
Proof.
  intros s. unfold assignMissingID, bind, gets.
  case_bool_decide; by apply contextsFrom_same.
Qed.

Lemma contextsFrom_cleanup el :
  Step (@contextsFrom DeepState compiles CorePreprocessors ps root h)
    (cleanupElementRemovals el).
Proof.
  intros s Hs. rewrite cleanup_flushed. simpl. split.
  - unfold flushed. by destruct (removals s !! el).
  - exists (CallRemoval <$> registered s el). split; [apply flushed_calls|].
    apply Forall_fmap, Forall_true. by intros fn pi ctx.
Qed.

Lemma contextsFrom_invokePlugin p pi el dsKey value s :
  ps !! pi = Some p → el ∈ visited root → (dsKey, value) ∈ dataset el →
  JS.startsWith dsKey (prefix p) = true →
  violationInSourceOrder p el dsKey value = None →
  contextsFrom compiles CorePreprocessors ps root h s
    (invokePlugin compiles CorePreprocessors p pi el
       (lowerFirst (keyOf p dsKey)) (modifiersOf p dsKey) value s).2.
Proof.
  intros Hp Hel Hattr Hprefix Hviolation Hs.
  unfold invokePlugin, bind, gets. lazy zeta.
  pose (ctx0 := {| ctx_store := store s; ctx_el := el_ref el;
                  ctx_key := lowerFirst (keyOf p dsKey);
                  ctx_expression := preprocess CorePreprocessors p value;
                  ctx_expressionFn := None;
                  ctx_modifiers := modifiersOf p dsKey |}).
  assert (∀ ctx, withoutFunction ctx = ctx0 →
                 ctx_expressionFn ctx
                 = (if wantsFunction p ctx
                    then Some (functionContent (ctx_expression ctx)) else None) →
                 (wantsFunction p ctx = true →
                  compiles (functionContent (ctx_expression ctx)) = true) →
                 contextOfAttribute compiles CorePreprocessors ps root h pi ctx)
    as Hgood.
  { intros ctx Hctx Hfn Hcompiles. exists p, el, dsKey, value.
    destruct ctx as [st e k x fn m]. unfold withoutFunction in Hctx.
    simpl in *. injection Hctx as -> -> -> -> ->.
    by split_and!. }
  destruct (negb _ && negb (mustHaveEmptyExpression p) && _) eqn:Hwants; simpl.
  - destruct (compiles _) eqn:Hcompiles; simpl.
    + destruct (onLoad p _); simpl;
        (split; [done|]); eexists [_]; (split; [done|]);
        apply Forall_singleton; intros pi' ctx [= <- <-];
        (apply Hgood; [done|..]);
        unfold wantsFunction, withoutFunction;
        cbn [ctx_store ctx_el ctx_key ctx_expression ctx_expressionFn
             ctx_modifiers];
        by rewrite Hwants.
    + split; [done|]. exists []. by rewrite app_nil_r.
  - destruct (onLoad p _); simpl;
      (split; [done|]); eexists [_]; (split; [done|]);
      apply Forall_singleton; intros pi' ctx [= <- <-];
      (apply Hgood; [done|..]);
      unfold wantsFunction, withoutFunction;
      cbn [ctx_store ctx_el ctx_key ctx_expression ctx_expressionFn
           ctx_modifiers];
      by rewrite Hwants.
Qed.

Lemma applyPlugins_contextsFrom s :
  plugins s = ps →
  contextsFrom compiles CorePreprocessors ps root h s
    (applyPlugins compiles CorePreprocessors root s).2.
Proof.
  apply Step_applyPlugins_from_attributes; [apply _| |].
  - intros pi p el dsKey value Hp Hel Hattr.
    apply Step_attribute_from_invoke; [apply _|apply contextsFrom_assignMissingID|].
    intros Hprefix Hviolation s'. by apply contextsFrom_invokePlugin.
  - apply contextsFrom_cleanup.
Qed.

End Contexts.

(** ** What the handlers are given *)

Section Handlers.

Context {DeepState : Type}.
Implicit Types s : @State DeepState.
Variable compiles : string → bool.
Variable CorePreprocessors : list Preprocesser.

Lemma violation_None_inv p el dsKey value :
  violationInSourceOrder p el dsKey value = None →
  tagViolation p el dsKey = None ∧ keyViolation p dsKey = None
  ∧ modifierViolation p dsKey = None
  ∧ expressionViolation p dsKey value = None.
Proof.
  unfold violationInSourceOrder. simpl.
  destruct (tagViolation p el dsKey); [done|].
  destruct (keyViolation p dsKey); [done|].
  destruct (modifierViolation p dsKey); [done|].
  by destruct (expressionViolation p dsKey value).
Qed.

Lemma lowerFirst_empty key : lowerFirst key = "" ↔ key = "".
Proof. by destruct key. Qed.

Lemma modifiers_fold_domain (ms : list (string * list string)) :
  ∀ (m0 : gmap string (list string)) l,
  is_Some (fold_left (λ acc modifier, <[modifier.1 := modifier.2]> acc) ms m0
           !! l) →
  is_Some (m0 !! l) ∨ l ∈ ms.*1.
Proof.
  induction ms as [|[l0 a0] ms IH]; intros m0 l; simpl; [by left|].
  intros Hl. destruct (IH _ _ Hl) as [Hm|Hin].
  - destruct (decide (l0 = l)) as [->|Hne].
    + right. by left.
    + left. by rewrite lookup_insert_ne in Hm.
  - right. by right.
Qed.

Lemma modifierLabels_fst p dsKey :
  modifierLabels p dsKey
  = (parseModifier
       <$> tl (JS.split "." (JS.slice dsKey (String.length (prefix p))))).*1.
Proof. unfold modifierLabels. by rewrite <- list_fmap_compose. Qed.

(** What validation has established about a context. *)
Lemma contextOfAttribute_validated ps root h pi ctx :
  contextOfAttribute compiles CorePreprocessors ps root h pi ctx →
  ∃ p el,
    ps !! pi = Some p ∧ el ∈ visited root ∧ ctx_el ctx = el_ref el
    ∧ (mustNotEmptyKey p = true → ctx_key ctx ≠ "")
    ∧ (mustHaveEmptyKey p = true → ctx_key ctx = "")
    ∧ (∀ allowed, allowedModifiers p = Some allowed →
         ∀ l, is_Some (ctx_modifiers ctx !! l) → l ∈ allowed)
    ∧ (∀ regexps, allowedTagRegexps p = Some regexps →
         ∃ r, r ∈ regexps ∧ matches r (JS.toLowerCase (tagName el)) = true)
    ∧ (mustHaveEmptyExpression p = true → ctx_expressionFn ctx = None).
Proof.
  intros (p & el & dsKey & value & Hp & Hel & _ & _ & Hviolation & _ & Hctx_el
          & Hkey & Hmods & _ & Hfn & _).
  apply violation_None_inv in Hviolation as (Htag & Hk & Hm & _).
  exists p, el. split_and!; [done..| | | | |].
  - intros Hmust. rewrite Hkey, lowerFirst_empty. unfold keyViolation in Hk.
    rewrite Hmust in Hk. case_bool_decide as Hlen; simpl in Hk.
    + by destruct (mustHaveEmptyKey p).
    + intros Hempty. by rewrite Hempty in Hlen.
  - intros Hmust. rewrite Hkey. apply lowerFirst_empty.
    unfold keyViolation in Hk. rewrite Hmust in Hk.
    case_bool_decide as Hlen; simpl in Hk; [|done].
    by destruct (keyOf p dsKey).
  - intros allowed Hallowed l Hl. rewrite Hmods in Hl.
    apply modifiers_fold_domain in Hl as [Hl|Hl].
    { rewrite lookup_empty in Hl. by destruct Hl. }
    rewrite <- modifierLabels_fst in Hl.
    unfold modifierViolation in Hm. rewrite Hallowed in Hm.
    destruct (List.find _ _) eqn:Hfind; [done|].
    apply list_elem_of_In in Hl.
    pose proof (find_none _ _ Hfind l Hl) as Hok. simpl in Hok.
    apply negb_false_iff in Hok. by apply bool_decide_eq_true in Hok.
  - intros regexps Hregexps. unfold tagViolation in Htag.
    rewrite Hregexps in Htag.
    destruct (existsb _ regexps) eqn:Hexists; [|done].
    apply existsb_exists in Hexists as (r & Hr & Hmatch).
    exists r. split; [by apply list_elem_of_In|done].
  - intros Hmust. rewrite Hfn. unfold wantsFunction. rewrite Hmust.
    by rewrite andb_false_r.
Qed.

(** Each context that a dispatch pass hands to an [onLoad] is made for an
    attribute that is on a visited element, starts with the prefix of the
    plugin registered at the call's index and passes that plugin's
    validations: it holds the element, the modifiers of the name, the
    preprocessed expression and, for a key that begins in the ASCII range,
    the key with its first letter in lower case; its expression function is
    the compiled [functionContent] of that expression when line 184 asks
    for one, the stub otherwise. *)
Theorem applyPlugins_contexts root s :
  ∃ t, calls (applyPlugins compiles CorePreprocessors root s).2
       = (calls s ++ t)%list
       ∧ ∀ pi ctx, CallOnLoad pi ctx ∈ t →
           builtFromAttribute compiles CorePreprocessors (plugins s) root
             pi ctx.
Proof.
  destruct (applyPlugins_contextsFrom compiles CorePreprocessors (plugins s)
              root (store s) s eq_refl eq_refl) as (_ & t & Ht & Hall).
  exists t. split; [done|].
  intros pi ctx Hin. rewrite Forall_forall in Hall.
  destruct (Hall _ Hin pi ctx eq_refl)
    as (p & el & dsKey & value & Hp & Hel & Hattr & Hprefix & Hvalid & _
        & Hctx & Hkey & Hmods & Hexpr & Hfn & Hcomp).
  exists p, el, dsKey, value. by split_and!.
Qed.

(** A handler is only called on what its plugin declares: with a non-empty
    key if it must not be empty, an empty key if it must be empty, modifier
    labels from the allow-list, an element whose lower-cased tag matches one
    of the allowed patterns, and without a compiled function if the
    expression must be empty. *)
Theorem handlers_see_validated_attributes root s :
  ∃ t, calls (applyPlugins compiles CorePreprocessors root s).2
       = (calls s ++ t)%list
       ∧ ∀ pi ctx, CallOnLoad pi ctx ∈ t →
           ∃ p el,
             plugins s !! pi = Some p ∧ el ∈ visited root
             ∧ ctx_el ctx = el_ref el
             ∧ (mustNotEmptyKey p = true → ctx_key ctx ≠ "")
             ∧ (mustHaveEmptyKey p = true → ctx_key ctx = "")
             ∧ (∀ allowed, allowedModifiers p = Some allowed →
                  ∀ l, is_Some (ctx_modifiers ctx !! l) → l ∈ allowed)
             ∧ (∀ regexps, allowedTagRegexps p = Some regexps →
                  ∃ r, r ∈ regexps
                       ∧ matches r (JS.toLowerCase (tagName el)) = true)
             ∧ (mustHaveEmptyExpression p = true →
                ctx_expressionFn ctx = None).
Proof.
  destruct (applyPlugins_contextsFrom compiles CorePreprocessors (plugins s)
              root (store s) s eq_refl eq_refl) as (_ & t & Ht & Hall).
  exists t. split; [done|].
  intros pi ctx Hin. rewrite Forall_forall in Hall.
  apply (contextOfAttribute_validated (plugins s) root (store s)).
  by apply (Hall _ Hin).
Qed.

End Handlers.

(** ** Merging into the store, repeatedly *)

Section Merges.

Context {DeepState : Type}.
Implicit Types s : @State DeepState.
Variable apply : DeepState → DeepState → DeepState.
Variable emptyObject : DeepState.
Variable compiles : string → bool.
Variable CorePreprocessors : list Preprocesser.

(** Merging a sequence of partial updates makes one store instance for each
    of them and leaves [this.store] at the last one, whose value is the
    updates applied in order to the value current at the start; the
    instances that existed keep their place and their value, and nothing
    else of the dispatcher changes. *)
Theorem merges_accumulate (patches : list DeepState) s :
  let s' :=
    performAll apply emptyObject compiles CorePreprocessors
      (OpMergeStore <$> patches) s in
  value_of emptyObject s' (store s')
  = fold_left apply patches (value_of emptyObject s (store s))
  ∧ (∃ made, signals s' = (signals s ++ made)%list
             ∧ length made = length patches)
  ∧ (patches ≠ [] → store s' = length (signals s) + length patches - 1)
  ∧ plugins s' = plugins s ∧ removals s' = removals s
  ∧ elementId s' = elementId s ∧ missingIDNext s' = missingIDNext s
  ∧ calls s' = calls s ∧ console s' = console s.
Proof.
  revert s. induction patches as [|patch patches IH]; intros s.
  { simpl. split_and!; try done. exists []. by rewrite app_nil_r. }
  rewrite fmap_cons. cbn [performAll perform]. cbv zeta.
  set (s1 := (mergeStore apply emptyObject patch s).2).
  destruct (IH s1) as (Hvalue & (made & Hmade & Hlen) & Hstore & Hrest).
  assert (value_of emptyObject s1 (store s1)
          = apply (value_of emptyObject s (store s)) patch) as Hv1.
  { unfold s1, value_of. simpl. by rewrite list_lookup_middle. }
  split_and!.
  - by rewrite Hvalue, Hv1.
  - exists (apply (value_of emptyObject s (store s)) patch :: made).
    split; [|simpl; by rewrite Hlen].
    rewrite Hmade. unfold s1. simpl. by rewrite <- app_assoc.
  - intros _. destruct patches as [|patch' patches].
    + simpl. lia.
    + rewrite Hstore by done. unfold s1. simpl. rewrite length_app. simpl. lia.
  - by destruct Hrest as (-> & _).
  - by destruct Hrest as (_ & -> & _).
  - by destruct Hrest as (_ & _ & -> & _).
  - by destruct Hrest as (_ & _ & _ & -> & _).
  - by destruct Hrest as (_ & _ & _ & _ & -> & _).
  - by destruct Hrest as (_ & _ & _ & _ & _ & ->).
Qed.

End Merges.

(** ** Expressions that no preprocessor matches *)

Section Unmatched.

Variable CorePreprocessors : list Preprocesser.

Lemma matches_without_groups processor expression found :
  Forall (λ m, groups m = None) found →
  fold_left (applyMatch processor) found expression = expression.
Proof.
  induction 1 as [|m found Hm _ IH]; simpl; [done|].
  unfold applyMatch at 2. by rewrite Hm.
Qed.

Lemma runProcessors_unmatched processors : ∀ seen expression,
  (∀ processor, processor ∈ processors →
     Forall (λ m, groups m = None) (matchAll (regexp processor) expression)) →
  (runProcessors processors seen expression).2 = expression.
Proof.
  induction processors as [|pp rest IH]; intros seen expression Hnone; simpl.
  - done.
  - case_bool_decide.
    + apply IH. intros q Hq. apply Hnone. by right.
    + rewrite matches_without_groups by (apply Hnone; by left).
      apply IH. intros q Hq. apply Hnone. by right.
Qed.

Lemma preprocess_unmatched p expression :
  (∀ processor,
     processor ∈ (CorePreprocessors ++ default [] (preprocessors p))%list →
     Forall (λ m, groups m = None) (matchAll (regexp processor) expression)) →
  preprocess CorePreprocessors p expression = expression.
Proof. intros Hnone. by apply runProcessors_unmatched. Qed.

End Unmatched.

(** ** Parsing of attribute names and expressions *)

Section Parsing.

Lemma split_cons c s : ∃ h t, JS.split c s = h :: t.
Proof.
  induction s as [|ch s IH]; simpl; [by eexists _, _|].
  destruct (Ascii.eqb ch c); [by eexists _, _|].
  destruct IH as (h & t & ->). by eexists _, _.
Qed.

Lemma split_without_separator c s :
  occursIn c s = false → JS.split c s = [s].
Proof.
  induction s as [|ch s IH]; simpl; [done|].
  destruct (Ascii.eqb ch c); simpl; [done|].
  intros Hs. by rewrite IH.
Qed.

Lemma split_with_separator c s :
  occursIn c s = true → ∃ h y l, JS.split c s = h :: y :: l.
Proof.
  induction s as [|ch s IH]; simpl; [done|].
  destruct (Ascii.eqb ch c); simpl.
  - intros _. destruct (split_cons c s) as (h & t & ->). by eexists _, _, _.
  - intros Hs. destruct (IH Hs) as (h & y & l & ->). by eexists _, _, _.
Qed.

Lemma append_cons ch (x y : string) :
  String ch x +:+ y = String ch (x +:+ y).
Proof. reflexivity. Qed.

Lemma append_empty_l (y : string) : "" +:+ y = y.
Proof. reflexivity. Qed.

Lemma append_empty_r (x : string) : x +:+ "" = x.
Proof.
  induction x as [|ch x IH]; [done|]. by rewrite append_cons, IH.
Qed.

Lemma split_sepBy c ys : ∀ x,
  occursIn c x = false → Forall (λ y, occursIn c y = false) ys →
  JS.split c (x +:+ sepBy c ys) = x :: ys.
Proof.
  induction ys as [|y ys IH]; intros x Hx Hys.
  - simpl. rewrite append_empty_r. by apply split_without_separator.
  - apply Forall_cons in Hys as [Hy Hys].
    induction x as [|ch x IHx]; simpl in Hx.
    + rewrite append_empty_l. cbn [sepBy JS.split].
      rewrite Ascii.eqb_refl. f_equal. by apply IH.
    + apply orb_false_iff in Hx as [Hch Hx]. rewrite append_cons.
      cbn [JS.split]. rewrite Hch. by rewrite (IHx Hx).
Qed.

Lemma occursIn_app c a b :
  occursIn c (a +:+ b) = occursIn c a || occursIn c b.
Proof.
  induction a as [|ch a IH]; [done|].
  rewrite append_cons. simpl. by rewrite IH, orb_assoc.
Qed.

Lemma slice_app p x : JS.slice (p +:+ x) (String.length p) = x.
Proof.
  induction p as [|ch p IH]; [by destruct x|].
  rewrite append_cons. simpl. exact IH.
Qed.

Lemma startsWith_app p x : JS.startsWith (p +:+ x) p = true.
Proof.
  unfold JS.startsWith. induction p as [|ch p IH].
  - rewrite append_empty_l. by destruct x.
  - rewrite append_cons. simpl.
    destruct (Ascii.ascii_dec ch ch); [done|congruence].
Qed.

Lemma occursIn_sepBy_other c c' ys :
  Ascii.eqb c' c = false → Forall (λ y, occursIn c y = false) ys →
  occursIn c (sepBy c' ys) = false.
Proof.
  intros Hne. induction 1 as [|y ys Hy _ IH]; simpl; [done|].
  by rewrite Hne, occursIn_app, Hy, IH.
Qed.

Lemma parseModifier_token m :
  plainModifier m → parseModifier (modifierToken m) = m.
Proof.
  destruct m as [label args]. intros (_ & Hlabel & Hargs).
  unfold parseModifier, modifierToken. simpl in *.
  rewrite split_sepBy; [done|done|].
  eapply Forall_impl; [exact Hargs|]. by intros a [_ Ha].
Qed.

Lemma token_without_dot m :
  plainModifier m → occursIn "." (modifierToken m) = false.
Proof.
  destruct m as [label args]. intros (Hlabel & _ & Hargs).
  unfold modifierToken. simpl in *.
  rewrite occursIn_app, Hlabel. simpl.
  apply occursIn_sepBy_other; [done|].
  eapply Forall_impl; [exact Hargs|]. by intros a [Ha _].
Qed.

Lemma parse_attributeName p key mods :
  occursIn "." key = false → Forall plainModifier mods →
  JS.startsWith (attributeName (prefix p) key mods) (prefix p) = true
  ∧ keyOf p (attributeName (prefix p) key mods) = key
  ∧ parseModifier
      <$> tl (JS.split "."
                (JS.slice (attributeName (prefix p) key mods)
                   (String.length (prefix p))))
    = mods.
Proof.
  intros Hkey Hmods. unfold attributeName, keyOf.
  rewrite startsWith_app, slice_app, split_sepBy; [|done|].
  - split_and!; [done..|]. simpl. rewrite <- list_fmap_compose.
    clear Hkey. induction Hmods as [|m mods Hm _ IH]; [done|].
    rewrite fmap_cons, IH. simpl. by rewrite parseModifier_token.
  - apply Forall_fmap. eapply Forall_impl; [exact Hmods|].
    intros m Hm. by apply token_without_dot.
Qed.

Lemma lowerFirst_lowerCaseHead key : lowerCaseHead key → lowerFirst key = key.
Proof.
  destruct key as [|c key]; [done|]. intros [Hc _]. simpl. f_equal.
  unfold JS.lowerChar.
  destruct (Nat.leb_spec 65 (nat_of_ascii c));
    destruct (Nat.leb_spec (nat_of_ascii c) 90); simpl; try done; lia.
Qed.

(** Parsing the name made from a prefix, a key and modifiers gives the
    handler back the key and the modifiers, each label with its arguments
    in order, when the key holds no dot and does not begin with an
    upper-case letter or outside the ASCII range, and the labels and
    arguments hold neither a dot nor an underscore. *)
Theorem attribute_name_round_trip p key mods :
  occursIn "." key = false → lowerCaseHead key →
  Forall plainModifier mods →
  JS.startsWith (attributeName (prefix p) key mods) (prefix p) = true
  ∧ lowerFirst (keyOf p (attributeName (prefix p) key mods)) = key
  ∧ modifiersOf p (attributeName (prefix p) key mods)
    = fold_left (λ acc modifier, <[modifier.1 := modifier.2]> acc) mods ∅
  ∧ parseModifier
      <$> tl (JS.split "."
                (JS.slice (attributeName (prefix p) key mods)
                   (String.length (prefix p))))
    = mods.
Proof.
  intros Hkey Hhead Hmods. unfold modifiersOf.
  destruct (parse_attributeName p key mods Hkey Hmods) as (Hstart & -> & ->).
  split_and!; [done| |done..].
  by apply lowerFirst_lowerCaseHead.
Qed.

Lemma modifiers_fold_other (ms : list (string * list string)) :
  ∀ (m0 : gmap string (list string)) l,
  l ∉ ms.*1 →
  fold_left (λ acc modifier, <[modifier.1 := modifier.2]> acc) ms m0 !! l
  = m0 !! l.
Proof.
  induction ms as [|[l0 a0] ms IH]; intros m0 l Hl; simpl; [done|].
  rewrite IH by (intros Hin; apply Hl; by right).
  rewrite lookup_insert_ne; [done|]. intros ->. apply Hl. by left.
Qed.

(** When a label occurs more than once in an attribute name, the map of
    modifiers given to the handler holds the arguments of its last
    occurrence; a label that does not occur is not in the map. *)
Theorem repeated_modifier_last_wins p key mods l :
  occursIn "." key = false → Forall plainModifier mods →
  (∀ before args after,
     mods = (before ++ (l, args) :: after)%list → l ∉ after.*1 →
     modifiersOf p (attributeName (prefix p) key mods) !! l = Some args)
  ∧ (l ∉ mods.*1 →
     modifiersOf p (attributeName (prefix p) key mods) !! l = None).
Proof.
  intros Hkey Hmods. unfold modifiersOf.
  destruct (parse_attributeName p key mods Hkey Hmods) as (_ & _ & ->).
  split.
  - intros before args after -> Hafter.
    rewrite fold_left_app. simpl.
    rewrite modifiers_fold_other by done. by rewrite lookup_insert_eq.
  - intros Hl. by rewrite modifiers_fold_other.
Qed.

Lemma functionContent_of_one_statement e :
  occursIn ";" e = false → functionContent e = "return " +:+ e.
Proof.
  intros He. unfold functionContent. by rewrite split_without_separator.
Qed.

Lemma returnLast_cons (x y : string) l :
  <[length (x :: y :: l) - 1
    := "return " +:+ default "" ((x :: y :: l) !! (length (x :: y :: l) - 1))]>
    (x :: y :: l)
  = x :: <[length (y :: l) - 1
           := "return " +:+ default "" ((y :: l) !! (length (y :: l) - 1))]>
           (y :: l).
Proof. simpl. by rewrite Nat.sub_0_r. Qed.

Lemma join_insert_cons sep n (v x y : string) l :
  JS.join sep (x :: <[n:=v]> (y :: l))
  = x +:+ sep +:+ JS.join sep (<[n:=v]> (y :: l)).
Proof. by destruct n. Qed.

Lemma functionContent_semicolon s :
  functionContent (String ";" s) = String ";" (functionContent s).
Proof.
  unfold functionContent. cbn [JS.split]. rewrite Ascii.eqb_refl.
  destruct (split_cons ";" s) as (h & t & ->).
  by rewrite returnLast_cons, join_insert_cons.
Qed.

Lemma functionContent_other ch s :
  Ascii.eqb ch ";" = false → occursIn ";" s = true →
  functionContent (String ch s) = String ch (functionContent s).
Proof.
  intros Hch Hs. unfold functionContent. cbn [JS.split]. rewrite Hch.
  destruct (split_with_separator ";" s Hs) as (h & y & l & ->).
  by rewrite !returnLast_cons, !join_insert_cons.
Qed.

(** The function body made from an expression keeps everything up to and
    including the last semicolon and returns what follows it; an expression
    without a semicolon is returned whole. *)
Theorem functionContent_returns_last_statement before last :
  occursIn ";" last = false →
  functionContent last = "return " +:+ last
  ∧ functionContent (before +:+ ";" +:+ last)
    = before +:+ ";return " +:+ last.
Proof.
  intros Hlast. split; [by apply functionContent_of_one_statement|].
  induction before as [|ch before IH].
  - rewrite !append_empty_l. change (";" +:+ last) with (String ";" last).
    by rewrite functionContent_semicolon, functionContent_of_one_statement.
  - rewrite (append_cons ch before (";" +:+ last)),
      (append_cons ch before (";return " +:+ last)).
    destruct (Ascii.eqb ch ";") eqn:Hch.
    + apply Ascii.eqb_eq in Hch as ->.
      by rewrite functionContent_semicolon, IH.
    + rewrite functionContent_other, IH; [done..|].
      rewrite occursIn_app. change (";" +:+ last) with (String ";" last).
      simpl. by rewrite orb_true_r.
Qed.

End Parsing.

(** ** Where the registered teardowns come from *)

Section Registered.

Context {DeepState : Type}.
Implicit Types s : @State DeepState.
Variable compiles : string → bool.
Variable CorePreprocessors : list Preprocesser.
Variable ps : list AttributePlugin.

#[local] Instance registeredBy_preorder : PreOrder (@registeredBy DeepState ps).
Proof.
  split.
  - intros s. split; [done|]. intros e fn Hfn. by left.
  - intros s1 s2 s3 [Hpre12 H12] [Hpre23 H23]. split; [by etrans|].
    intros e fn Hfn.
    destruct (H23 _ _ Hfn) as [Hfn2|(i & pi & ctx & p & Hi & Hcall & Hrest)].
    + destruct (H12 _ _ Hfn2)
        as [Hfn1|(i & pi & ctx & p & Hi & Hcall & Hrest)]; [by left|].
      destruct Hrest as (? & ? & ?).
      right. exists i, pi, ctx, p. split_and!; try done.
      by eapply prefix_lookup_Some.
    + destruct Hrest as (? & ? & ?).
      right. exists i, pi, ctx, p. split_and!; try done.
      apply prefix_length in Hpre12. lia.
Qed.









End Registered.

(** ** Dispatching the same tree again *)

Section Redispatch.

Context {DeepState : Type}.
Implicit Types s : @State DeepState.
Variable compiles : string → bool.
Variable CorePreprocessors : list Preprocesser.

#[local] Existing Instance sameIds_preorder.

#[local] Instance samePlugins_preorder : PreOrder (@samePlugins DeepState).
Proof.
  split.
  - by intros s.
  - intros s1 s2 s3 H12 H23. unfold samePlugins in *. congruence.
Qed.


#[local] Instance idsSettled_preorder ps root :
  PreOrder (@idsSettled DeepState ps root).
Proof.
  split.
  - by intros s _.
  - intros s1 s2 s3 H12 H23 Hall. specialize (H12 Hall).
    etrans; [exact H12|]. apply H23.
    intros p el Hp Hel Hattr. rewrite (sameIds_id_of _ _ _ H12).
    exact (Hall p el Hp Hel Hattr).
Qed.





End Redispatch.

(** ** Steps of the dispatcher with closures that act *)

Section ReentrantSteps.

Context {DeepState : Type}.
Variable apply : DeepState → DeepState → DeepState.
Variable emptyObject : DeepState.
Variable compiles : string → bool.
Variable CorePreprocessors : list Preprocesser.
Variable closures : Reentrant.Closures DeepState.
Variable R : relation (@State DeepState).
Context `{!PreOrder R}.

Lemma Step_act this u : Sound R this → Step R (Reentrant.act this u).
Proof.
  intros (Hmerge & Hpass & Hclean). unfold Reentrant.act.
  apply (Step_endOfFunction R). destruct u; auto.
Qed.

Lemma Step_behave_uses this c :
  (∀ u, u ∈ Reentrant.uses c → Step R (Reentrant.act this u)) →
  Step R (Reentrant.behave this c).
Proof.
  intros Huses. unfold Reentrant.behave. apply (Step_bind R).
  - generalize (Reentrant.uses c) Huses. intros l Hl.
    induction l as [|u l IH]; simpl; [apply (Step_ret R)|].
    apply (Step_bind R); [apply Hl; by left|]. intros _.
    apply IH. intros u' Hu'. apply Hl. by right.
  - intros _. destruct (Reentrant.raises c); [apply (Step_throw R)|].
    apply (Step_ret R).
Qed.

Lemma Step_behave this c : Sound R this → Step R (Reentrant.behave this c).
Proof. intros Hthis. apply Step_behave_uses. intros u _. by apply Step_act. Qed.

(** The pipeline from an attribute to the handler, when the closures of the
    plugin at index [pi] make [R]-steps. *)
Lemma Step_invokePlugin_acting this p pi el key modifiers expression :
  AttributeWrites R pi el →
  (∀ ctx, Step R (Reentrant.behave this
                    (Reentrant.onLoadConduct closures pi ctx))) →
  (∀ ctx, Step R (Reentrant.behave this
                    (Reentrant.bypassConduct closures pi ctx))) →
  Step R (Reentrant.invokePlugin compiles CorePreprocessors closures this
            p pi el key modifiers expression).
Proof.
  intros (Hconsole & HonLoad & Hadd) Hload Hbypass.
  unfold Reentrant.invokePlugin.
  destruct (Reentrant.preprocess _ _ _) as [e|expression'];
    [apply (Step_throw R)|].
  lazy zeta. apply (Step_bind R); [step|]. intros h.
  apply (Step_bind R).
  { destruct (bypassExpressionFunctionCreation p); [|apply (Step_ret R)].
    apply (Step_bind R); [apply Hbypass|]. intros _. apply (Step_ret R). }
  intros bypass.
  apply (Step_bind_value R (λ ctx, ctx_el ctx = el_ref el)).
  - step.
  - intros s ctx. destruct (negb _ && _ && _); [|by intros [= <-]].
    destruct (compiles _); [by intros [= <-]|done].
  - intros ctx Hctx. step.
Qed.

Lemma Step_processAttribute_acting this p pi el dsKey expression :
  AttributeWrites R pi el →
  (∀ ctx, Step R (Reentrant.behave this
                    (Reentrant.onLoadConduct closures pi ctx))) →
  (∀ ctx, Step R (Reentrant.behave this
                    (Reentrant.bypassConduct closures pi ctx))) →
  Step R (Reentrant.processAttribute compiles CorePreprocessors closures this
            p pi el dsKey expression).
Proof.
  intros Hwrites Hload Hbypass. unfold Reentrant.processAttribute. step.
  by apply Step_invokePlugin_acting.
Qed.

Lemma Step_attribute_acting this p pi el dsKey value :
  AttributeWrites R pi el → Step R (assignMissingID el) →
  (∀ ctx, Step R (Reentrant.behave this
                    (Reentrant.onLoadConduct closures pi ctx))) →
  (∀ ctx, Step R (Reentrant.behave this
                    (Reentrant.bypassConduct closures pi ctx))) →
  Step R (Reentrant.attribute compiles CorePreprocessors closures this
            p pi el dsKey value).
Proof.
  intros Hwrites Hid Hload Hbypass. unfold Reentrant.attribute. step.
  by apply Step_processAttribute_acting.
Qed.



Lemma Step_callback_acting this p pi el :
  AttributeWrites R pi el → Step R (assignMissingID el) →
  Step R (Reentrant.cleanupElementRemovals closures this (el_ref el)) →
  (∀ ctx, Step R (Reentrant.behave this
                    (Reentrant.onLoadConduct closures pi ctx))) →
  (∀ ctx, Step R (Reentrant.behave this
                    (Reentrant.bypassConduct closures pi ctx))) →
  Step R (Reentrant.callback compiles CorePreprocessors closures this
            p pi el).
Proof.
  intros Hwrites Hid Hclean Hload Hbypass. unfold Reentrant.callback. step.
  by apply Step_attribute_acting.
Qed.

(** A flush, for a relation that the deletion of an entry respects. *)
Lemma Step_cleanup_acting this element :
  (∀ removal, Step R (call (CallRemoval removal))) →
  (∀ s, R s (set_removals (delete element (removals s)) s)) →
  Sound R this →
  Step R (Reentrant.cleanupElementRemovals closures this element).
Proof.
  intros Hcall Hdelete Hthis. unfold Reentrant.cleanupElementRemovals.
  apply (Step_bind R); [step|]. intros [fns|]; [|apply (Step_ret R)].
  apply (Step_bind R).
  - apply (Step_forEach R). intros removal.
    apply (Step_bind R); [apply Hcall|]. intros _. by apply Step_behave.
  - intros _ s. apply Hdelete.
Qed.

(** A whole pass, for such a relation. *)
Lemma Step_applyPlugins_acting this root :
  (∀ pi el, AttributeWrites R pi el) →
  (∀ el, Step R (assignMissingID el)) →
  (∀ removal, Step R (call (CallRemoval removal))) →
  (∀ element s, R s (set_removals (delete element (removals s)) s)) →
  Sound R this →
  Step R (Reentrant.applyPlugins compiles CorePreprocessors closures this root).
Proof.
  intros Hwrites Hid Hcall Hdelete Hthis. unfold Reentrant.applyPlugins. step.
  apply (Step_forEachIndexed R).
  intros p pi. apply (Step_walkDownDOM R). intros el.
  apply Step_callback_acting; [done..| | |].
  - by apply Step_cleanup_acting.
  - intros ctx. by apply Step_behave.
  - intros ctx. by apply Step_behave.
Qed.

(** Hence the bound methods, at every depth. *)
Lemma Sound_bound depth :
  (∀ pi el, AttributeWrites R pi el) →
  (∀ el, Step R (assignMissingID el)) →
  (∀ removal, Step R (call (CallRemoval removal))) →
  (∀ element s, R s (set_removals (delete element (removals s)) s)) →
  (∀ patch, Step R (mergeStore apply emptyObject patch)) →
  Sound R (Reentrant.bound apply emptyObject compiles CorePreprocessors
             closures depth).
Proof.
  intros Hwrites Hid Hcall Hdelete Hmerge.
  induction depth as [|depth IH]; simpl.
  - split_and!; intros ?; apply (Step_throw R).
  - split_and!.
    + done.
    + intros root. by apply Step_applyPlugins_acting.
    + intros element. by apply Step_cleanup_acting.
Qed.

End ReentrantSteps.

(** ** Flushing, with closures that act *)

Section ReentrantFlush.

Context {DeepState : Type}.
Implicit Types s : @State DeepState.
Variable apply : DeepState → DeepState → DeepState.
Variable emptyObject : DeepState.
Variable compiles : string → bool.
Variable CorePreprocessors : list Preprocesser.
Variable closures : Reentrant.Closures DeepState.

#[local] Existing Instance neverFlushes_preorder.
#[local] Existing Instance flushedBeforeLoad_preorder.

#[local] Instance flushedBeforeLoadUnless_preorder F :
  PreOrder (@flushedBeforeLoadUnless DeepState F).
Proof.
  split.
  - intros s. exists []. split_and!.
    + by rewrite app_nil_r.
    + intros t1 pi ctx t2 Ht. by destruct t1.
    + intros e fn Hfn. by left.
  - intros s1 s2 s3 (ta & Ha & Horda & Hkepta) (tb & Hb & Hordb & Hkeptb).
    exists (ta ++ tb)%list. split_and!.
    + by rewrite Hb, Ha, app_assoc.
    + intros t1 pi ctx t2 Ht.
      apply app_eq_inv in Ht as [(k & -> & Hk)|(k & -> & ->)].
      * destruct k as [|c k].
        -- rewrite app_nil_r in *. simpl in Hk.
           destruct (Hordb [] pi ctx t2 (eq_sym Hk)) as [HF|Hall]; [by left|].
           right. intros fn Hfn.
           destruct (Hkepta _ _ Hfn) as [Hstill|Hcalled]; [|done].
           exfalso. eapply elem_of_nil. by apply Hall.
        -- simpl in Hk. injection Hk as <- ->.
           by apply (Horda t1 pi ctx k).
      * destruct (Hordb k pi ctx t2 eq_refl) as [HF|Hall]; [by left|].
        right. intros fn Hfn. apply elem_of_app.
        destruct (Hkepta _ _ Hfn) as [Hstill|Hcalled]; [|by left].
        right. by apply Hall.
    + intros e fn Hfn. rewrite elem_of_app.
      destruct (Hkepta _ _ Hfn) as [Hstill|Hcalled]; [|by auto].
      destruct (Hkeptb _ _ Hstill); by auto.
Qed.












Lemma flush_loop_cons this fn (fns : list OnRemovalFn) s :
  forEach (fn :: fns) (λ removal,
    bind (call (CallRemoval removal))
      (λ _, Reentrant.behave this
              (Reentrant.removalConduct closures removal))) s
  = bind (Reentrant.behave this (Reentrant.removalConduct closures fn))
      (λ _, forEach fns (λ removal,
              bind (call (CallRemoval removal))
                (λ _, Reentrant.behave this
                        (Reentrant.removalConduct closures removal))))
      (add_calls [CallRemoval fn] s).
Proof. reflexivity. Qed.

Lemma cleanup_acting_unfold this element s :
  Reentrant.cleanupElementRemovals closures this element s
  = match removals s !! element with
    | Some fns =>
        bind
          (forEach fns (λ removal,
             bind (call (CallRemoval removal))
               (λ _, Reentrant.behave this
                       (Reentrant.removalConduct closures removal))))
          (λ _, modify (λ s, set_removals (delete element (removals s)) s)) s
    | None => (Normal tt, s)
    end.
Proof.
  unfold Reentrant.cleanupElementRemovals, bind at 1, gets. simpl.
  by destruct (removals s !! element).
Qed.
















End ReentrantFlush.

(** ** The claims about flushing, with closures that act *)

Section ReentrantFlushClaims.

Context {DeepState : Type}.
Implicit Types s : @State DeepState.
Variable apply : DeepState → DeepState → DeepState.
Variable emptyObject : DeepState.
Variable compiles : string → bool.
Variable CorePreprocessors : list Preprocesser.
Variable closures : Reentrant.Closures DeepState.

#[local] Existing Instance neverFlushes_preorder.






Lemma bind_unfold {A B} (m : @M DeepState A) (k : A → @M DeepState B) s :
  bind m k s
  = match m s with
    | (Normal a, s') => k a s'
    | (Return, s') => (Return, s')
    | (Throw e, s') => (Throw e, s')
    end.
Proof. reflexivity. Qed.

Lemma behave_quiet this c s :
  quiet c → Reentrant.behave this c s = (Normal tt, s).
Proof. intros [Huses Hraises]. unfold Reentrant.behave. by rewrite Huses, Hraises. Qed.

Lemma flush_loop_quiet this (fns : list OnRemovalFn) : ∀ s,
  (∀ fn, fn ∈ fns → quiet (Reentrant.removalConduct closures fn)) →
  forEach fns (λ removal,
    bind (call (CallRemoval removal))
      (λ _, Reentrant.behave this
              (Reentrant.removalConduct closures removal))) s
  = (Normal tt, add_calls (CallRemoval <$> fns) s).
Proof.
  induction fns as [|fn fns IH]; intros s Hquiet.
  - simpl. by rewrite add_calls_nil.
  - rewrite flush_loop_cons. unfold bind.
    rewrite behave_quiet by (apply Hquiet; by left).
    rewrite IH by (intros fn' Hfn'; apply Hquiet; by right).
    by rewrite add_calls_app.
Qed.



End ReentrantFlushClaims.

(** ** Closures that make no call: the dispatcher of [Core] *)

Section QuietClosures.

Context {DeepState : Type}.
Implicit Types s : @State DeepState.
Variable apply : DeepState → DeepState → DeepState.
Variable emptyObject : DeepState.
Variable compiles : string → bool.
Variable CorePreprocessors : list Preprocesser.
Variable closures : Reentrant.Closures DeepState.

Lemma bind_ext {A B} (m : @M DeepState A) (k k' : A → @M DeepState B) s :
  (∀ a s', k a s' = k' a s') → bind m k s = bind m k' s.
Proof.
  intros Hk. unfold bind. by destruct (m s) as [[a| |e] s1].
Qed.

Lemma forEach_ext_in {A} (l : list A) (f g : A → @M DeepState unit) : ∀ s,
  (∀ x s', x ∈ l → f x s' = g x s') → forEach l f s = forEach l g s.
Proof.
  induction l as [|x l IH]; intros s Hfg; simpl; [done|].
  unfold bind. rewrite (Hfg x s) by by left.
  destruct (g x s) as [[[]| |e] s1]; [|done..].
  apply IH. intros y s' Hy. apply Hfg. by right.
Qed.

Lemma forEachIndexed_ext_in {A} (l : list A)
    (f g : A → nat → @M DeepState unit) : ∀ i s,
  (∀ x j s', x ∈ l → f x j s' = g x j s') →
  forEachIndexed l i f s = forEachIndexed l i g s.
Proof.
  induction l as [|x l IH]; intros i s Hfg; simpl; [done|].
  unfold bind. rewrite (Hfg x i s) by by left.
  destruct (g x i s) as [[[]| |e] s1]; [|done..].
  apply IH. intros y j s' Hy. apply Hfg. by right.
Qed.

Hypothesis Hquiet : Quiet closures.

Lemma applyMatches_quiet processor found : ∀ expression,
  Reentrant.applyMatches closures processor found expression
  = inr (fold_left (applyMatch processor) found expression).
Proof.
  destruct Hquiet as (_ & _ & _ & _ & _ & Hreplacer).
  induction found as [|m found IH]; intros expression; simpl; [done|].
  destruct (groups m) as [g|] eqn:Hg.
  - by rewrite Hreplacer, IH.
  - rewrite IH. do 2 f_equal. unfold applyMatch. by rewrite Hg.
Qed.

Lemma runProcessors_global processors : ∀ seen expression,
  (∀ processor, processor ∈ processors →
     global (regexp processor) = true) →
  Reentrant.runProcessors closures processors seen expression
  = inr (runProcessors processors seen expression).
Proof.
  induction processors as [|pp rest IH]; intros seen expression Hglobal;
    simpl; [done|].
  case_bool_decide.
  - apply IH. intros q Hq. apply Hglobal. by right.
  - rewrite (Hglobal pp) by by left. simpl. rewrite applyMatches_quiet.
    apply IH. intros q Hq. apply Hglobal. by right.
Qed.

Lemma preprocess_global p expression :
  globalPatterns CorePreprocessors p →
  Reentrant.preprocess CorePreprocessors closures p expression
  = inr (preprocess CorePreprocessors p expression).
Proof.
  intros Hglobal. unfold Reentrant.preprocess, preprocess.
  rewrite runProcessors_global by done.
  by destruct (runProcessors _ ∅ expression).
Qed.

Lemma quiet_cleanup this element s :
  Reentrant.cleanupElementRemovals closures this element s
  = cleanupElementRemovals element s.
Proof.
  destruct Hquiet as (_ & _ & Hremovals & _).
  rewrite cleanup_acting_unfold, cleanup_flushed. unfold flushed.
  destruct (removals s !! element) as [fns|]; [|done].
  rewrite bind_unfold, flush_loop_quiet; [done|]. intros fn _. apply Hremovals.
Qed.

Lemma quiet_invokePlugin this p pi el key modifiers expression s :
  globalPatterns CorePreprocessors p →
  Reentrant.invokePlugin compiles CorePreprocessors closures this p pi el
    key modifiers expression s
  = invokePlugin compiles CorePreprocessors p pi el key modifiers expression s.
Proof.
  intros Hglobal. destruct Hquiet as (Hload & Hbypass & _).
  unfold Reentrant.invokePlugin, invokePlugin.
  rewrite preprocess_global by done. lazy zeta.
  apply bind_ext. intros h s'.
  set (ctx := {| ctx_store := h; ctx_el := el_ref el; ctx_key := key;
                 ctx_expression := preprocess CorePreprocessors p expression;
                 ctx_expressionFn := None; ctx_modifiers := modifiers |}).
  assert ((match bypassExpressionFunctionCreation p with
           | Some f =>
               bind (Reentrant.behave this
                       (Reentrant.bypassConduct closures pi ctx))
                 (λ _, ret (f ctx))
           | None => ret false
           end) s'
          = (Normal match bypassExpressionFunctionCreation p with
                    | Some f => f ctx
                    | None => false
                    end, s')) as Hbypassed.
  { destruct (bypassExpressionFunctionCreation p) as [f|]; [|done].
    by rewrite bind_unfold, (behave_quiet this _ s' (Hbypass pi ctx)). }
  rewrite bind_unfold, Hbypassed.
  apply bind_ext. intros ctx' s''.
  apply bind_ext. intros _ s3.
  by rewrite bind_unfold, (behave_quiet this _ s3 (Hload pi ctx')).
Qed.

Lemma quiet_processAttribute this p pi el dsKey expression s :
  globalPatterns CorePreprocessors p →
  Reentrant.processAttribute compiles CorePreprocessors closures this p pi el
    dsKey expression s
  = processAttribute compiles CorePreprocessors p pi el dsKey expression s.
Proof.
  intros Hglobal. unfold Reentrant.processAttribute, processAttribute.
  lazy zeta. repeat (apply bind_ext; intros _ ?).
  by apply quiet_invokePlugin.
Qed.

Lemma quiet_attribute this p pi el dsKey value s :
  globalPatterns CorePreprocessors p →
  Reentrant.attribute compiles CorePreprocessors closures this p pi el
    dsKey value s
  = attribute compiles CorePreprocessors p pi el dsKey value s.
Proof.
  intros Hglobal. unfold Reentrant.attribute, attribute. lazy zeta.
  destruct (negb _); [done|]. apply bind_ext. intros _ s'.
  by apply quiet_processAttribute.
Qed.

Lemma quiet_callback this p pi el s :
  globalPatterns CorePreprocessors p →
  Reentrant.callback compiles CorePreprocessors closures this p pi el s
  = callback compiles CorePreprocessors p pi el s.
Proof.
  intros Hglobal. unfold Reentrant.callback, callback, endOfFunction.
  assert (bind (when (bool_decide (pi = 0))
                  (Reentrant.cleanupElementRemovals closures this (el_ref el)))
            (λ _, forEach (dataset el)
                    (λ kv, Reentrant.attribute compiles CorePreprocessors
                             closures this p pi el kv.1 kv.2)) s
          = bind (when (bool_decide (pi = 0))
                    (cleanupElementRemovals (el_ref el)))
              (λ _, forEach (dataset el)
                      (λ kv, attribute compiles CorePreprocessors p pi el
                               kv.1 kv.2)) s) as ->; [|done].
  rewrite !bind_unfold.
  assert (when (bool_decide (pi = 0))
            (Reentrant.cleanupElementRemovals closures this (el_ref el)) s
          = when (bool_decide (pi = 0)) (cleanupElementRemovals (el_ref el)) s)
    as ->.
  { destruct (bool_decide (pi = 0)); [|done]. apply quiet_cleanup. }
  destruct (when _ _ s) as [[[]| |e] s1]; [|done..].
  apply forEach_ext_in. intros kv s' _. by apply quiet_attribute.
Qed.

(** With closures that make no call and do not throw, and with global
    patterns, a pass is the pass of [Core], whatever the stack allows. *)
Lemma quiet_applyPlugins this root s :
  (∀ p, p ∈ plugins s → globalPatterns CorePreprocessors p) →
  Reentrant.applyPlugins compiles CorePreprocessors closures this root s
  = applyPlugins compiles CorePreprocessors root s.
Proof.
  intros Hglobal. unfold Reentrant.applyPlugins, applyPlugins.
  unfold bind at 1 2, gets. simpl.
  apply forEachIndexed_ext_in. intros p pi s' Hp.
  rewrite !walk_as_forEach. apply forEach_ext_in. intros el s'' _.
  apply quiet_callback. by apply Hglobal.
Qed.

Lemma quiet_run depth body s :
  (∀ p, p ∈ plugins s → globalPatterns CorePreprocessors p) →
  Reentrant.run apply emptyObject compiles CorePreprocessors closures depth
    body s
  = run compiles CorePreprocessors body s.
Proof.
  intros Hglobal. destruct Hquiet as (_ & _ & _ & Hmerges & Hraises & _).
  assert (∀ ps i s0,
            forEachIndexed ps i (λ p pi,
              when (onGlobalInit p)
                (bind (gets store) (λ h,
                   bind (call (CallOnGlobalInit pi h)) (λ _,
                     bind (forEach (Reentrant.onGlobalInitMerges closures pi h)
                             (mergeStore apply emptyObject))
                       (λ _, match Reentrant.onGlobalInitRaises closures pi h
                             with
                             | Some e => throw e
                             | None => ret tt
                             end))))) s0
            = forEachIndexed ps i (λ p pi,
                when (onGlobalInit p)
                  (bind (gets store) (λ h, call (CallOnGlobalInit pi h)))) s0)
    as Hhooks.
  { intros ps i s0. apply forEachIndexed_ext_in. intros p pi s' _.
    destruct (onGlobalInit p); [|done]. simpl.
    apply bind_ext. intros h s''. by rewrite Hmerges, Hraises. }
  rewrite run_as_applyPlugins.
  change (Reentrant.run apply emptyObject compiles CorePreprocessors closures
            depth body s)
    with (bind
            (forEachIndexed (plugins s) 0 (λ p pi,
               when (onGlobalInit p)
                 (bind (gets store) (λ h,
                    bind (call (CallOnGlobalInit pi h)) (λ _,
                      bind
                        (forEach (Reentrant.onGlobalInitMerges closures pi h)
                           (mergeStore apply emptyObject))
                        (λ _, match Reentrant.onGlobalInitRaises closures pi h
                              with
                              | Some e => throw e
                              | None => ret tt
                              end))))))
            (λ _, Reentrant.applyPlugins compiles CorePreprocessors closures
                    (Reentrant.bound apply emptyObject compiles
                       CorePreprocessors closures depth) body) s).
  rewrite bind_unfold, Hhooks, globalInit_loop.
  by apply quiet_applyPlugins.
Qed.

End QuietClosures.

(** ** Expressions that no preprocessor matches *)

Section UnmatchedText.

Context {DeepState : Type}.
Variable CorePreprocessors : list Preprocesser.
Variable closures : Reentrant.Closures DeepState.

Lemma applyMatches_without_groups processor found expression :
  Forall (λ m, groups m = None) found →
  Reentrant.applyMatches closures processor found expression = inr expression.
Proof.
  induction 1 as [|m found Hm _ IH]; simpl; [done|]. by rewrite Hm.
Qed.

Lemma runProcessors_acting_unmatched processors : ∀ seen expression,
  (∀ processor, processor ∈ processors →
     global (regexp processor) = true) →
  (∀ processor, processor ∈ processors →
     Forall (λ m, groups m = None) (matchAll (regexp processor) expression)) →
  ∃ seen',
    Reentrant.runProcessors closures processors seen expression
    = inr (seen', expression).
Proof.
  induction processors as [|pp rest IH]; intros seen expression Hglobal Hnone;
    simpl.
  - by exists seen.
  - case_bool_decide.
    + apply IH; intros q Hq; [apply Hglobal|apply Hnone]; by right.
    + rewrite (Hglobal pp) by by left. simpl.
      rewrite applyMatches_without_groups by (apply Hnone; by left).
      apply IH; intros q Hq; [apply Hglobal|apply Hnone]; by right.
Qed.

(** When the patterns of the preprocessors have the [g] flag, an expression
    in which none of them finds a match with named groups is left as it
    is, and no replacer is called; a match without named groups rewrites
    nothing. When the pattern of the first preprocessor lacks the flag,
    [matchAll] throws. *)
Theorem preprocess_leaves_unmatched_text p expression :
  (globalPatterns CorePreprocessors p →
   (∀ processor,
      processor ∈ (CorePreprocessors ++ default [] (preprocessors p))%list →
      Forall (λ m, groups m = None)
        (matchAll (regexp processor) expression)) →
   Reentrant.preprocess CorePreprocessors closures p expression
   = inr expression)
  ∧ (∀ processor rest,
       (CorePreprocessors ++ default [] (preprocessors p))%list
       = processor :: rest →
       global (regexp processor) = false →
       Reentrant.preprocess CorePreprocessors closures p expression
       = inl MatchAllWithoutGlobalFlag).
Proof.
  split.
  - intros Hglobal Hnone. unfold Reentrant.preprocess.
    destruct (runProcessors_acting_unmatched
                (CorePreprocessors ++ default [] (preprocessors p)) ∅
                expression Hglobal Hnone) as [seen' ->].
    done.
  - intros processor rest Hlist Hlocal. unfold Reentrant.preprocess.
    rewrite Hlist. simpl. rewrite bool_decide_eq_false_2 by set_solver.
    by rewrite Hlocal.
Qed.

End UnmatchedText.

(** ** The order of the handlers, with closures that act *)

Section ReentrantOrder.

Context {DeepState : Type}.
Implicit Types s : @State DeepState.
Variable apply : DeepState → DeepState → DeepState.
Variable emptyObject : DeepState.
Variable compiles : string → bool.
Variable CorePreprocessors : list Preprocesser.
Variable closures : Reentrant.Closures DeepState.

#[local] Existing Instance loadsOfPlugin_preorder.

Hypothesis Hload : ∀ pi ctx, noReentry (Reentrant.onLoadConduct closures pi ctx).
Hypothesis Hbypass :
  ∀ pi ctx, noReentry (Reentrant.bypassConduct closures pi ctx).
Hypothesis Hremoval :
  ∀ removal, noReentry (Reentrant.removalConduct closures removal).

(** A closure that does not re-enter causes no [onLoad] call. *)
Lemma act_without_reentry i depth : ∀ u,
  (∀ rootElement, u ≠ Reentrant.UseApplyPlugins rootElement) →
  Step (@loadsOfPlugin DeepState i)
    (Reentrant.act
       (Reentrant.bound apply emptyObject compiles CorePreprocessors closures
          depth) u).
Proof.
  induction depth as [|depth IH]; intros u Hu; unfold Reentrant.act;
    apply (Step_endOfFunction (loadsOfPlugin i)).
  - destruct u; apply (Step_throw (loadsOfPlugin i)).
  - destruct u as [patch|rootElement|element]; simpl.
    + intros s. by apply loadsOfPlugin_same.
    + by destruct (Hu rootElement).
    + unfold Reentrant.cleanupElementRemovals.
      apply (Step_bind (loadsOfPlugin i)); [step|].
      intros [fns|]; [|apply (Step_ret (loadsOfPlugin i))].
      apply (Step_bind (loadsOfPlugin i)).
      * apply (Step_forEach (loadsOfPlugin i)). intros removal.
        apply (Step_bind (loadsOfPlugin i)).
        -- intros s. exists [CallRemoval removal]. split; [done|].
           apply Forall_singleton. by intros pi ctx.
        -- intros _. apply (Step_behave_uses (loadsOfPlugin i)).
           intros u' Hu'. apply IH.
           pose proof (Hremoval removal) as Hno. unfold noReentry in Hno.
           rewrite Forall_forall in Hno. by apply Hno.
      * intros _ s. by apply loadsOfPlugin_same.
Qed.

Lemma behave_without_reentry i depth c :
  noReentry c →
  Step (@loadsOfPlugin DeepState i)
    (Reentrant.behave
       (Reentrant.bound apply emptyObject compiles CorePreprocessors closures
          depth) c).
Proof.
  intros Hno. apply (Step_behave_uses (loadsOfPlugin i)). intros u Hu.
  apply act_without_reentry. unfold noReentry in Hno.
  rewrite Forall_forall in Hno. by apply Hno.
Qed.

Lemma cleanup_without_reentry i depth element :
  Step (@loadsOfPlugin DeepState i)
    (Reentrant.cleanupElementRemovals closures
       (Reentrant.bound apply emptyObject compiles CorePreprocessors closures
          depth) element).
Proof.
  unfold Reentrant.cleanupElementRemovals.
  apply (Step_bind (loadsOfPlugin i)); [step|].
  intros [fns|]; [|apply (Step_ret (loadsOfPlugin i))].
  apply (Step_bind (loadsOfPlugin i)).
  - apply (Step_forEach (loadsOfPlugin i)). intros removal.
    apply (Step_bind (loadsOfPlugin i)).
    + intros s. exists [CallRemoval removal]. split; [done|].
      apply Forall_singleton. by intros pi ctx.
    + intros _. by apply behave_without_reentry.
  - intros _ s. by apply loadsOfPlugin_same.
Qed.

Lemma acting_passes_in_plugin_order depth root ps : ∀ i s,
  ∃ t,
    calls (forEachIndexed ps i (λ p pi,
             walkDownDOM root
               (Reentrant.callback compiles CorePreprocessors closures
                  (Reentrant.bound apply emptyObject compiles
                     CorePreprocessors closures depth) p pi)) s).2
    = (calls s ++ t)%list
    ∧ StronglySorted le (loadIndexes t)
    ∧ Forall (λ j, (i ≤ j)%nat) (loadIndexes t).
Proof.
  induction ps as [|p ps IH]; intros i s; simpl.
  { exists []. rewrite app_nil_r. split_and!; constructor. }
  unfold bind.
  assert (loadsOfPlugin i s
            (walkDownDOM root
               (Reentrant.callback compiles CorePreprocessors closures
                  (Reentrant.bound apply emptyObject compiles
                     CorePreprocessors closures depth) p i) s).2)
    as (ta & Ha & Hta).
  { apply (Step_walkDownDOM (loadsOfPlugin i)). intros el.
    apply Step_callback_acting; [apply _|apply loadsOfPlugin_writes|..].
    - apply loadsOfPlugin_assignMissingID.
    - apply cleanup_without_reentry.
    - intros ctx. by apply behave_without_reentry.
    - intros ctx. by apply behave_without_reentry. }
  apply loadIndexes_of_plugin in Hta.
  assert (Forall (λ j, (i ≤ j)%nat) (loadIndexes ta)) as Hge.
  { eapply Forall_impl; [exact Hta|]. intros j ->. lia. }
  destruct (walkDownDOM root _ s) as [[[]| |e] s1]; simpl in Ha |- *.
  - destruct (IH (S i) s1) as (tb & Hb & Hsorted & Hgt).
    exists (ta ++ tb)%list. unfold loadIndexes in *. rewrite omap_app.
    split_and!.
    + by rewrite Hb, Ha, app_assoc.
    + apply StronglySorted_app.
      split_and!; [|by eapply constant_indexes_sorted|done].
      intros x1 x2 Hx1 Hx2. rewrite Forall_forall in Hta, Hgt.
      rewrite (Hta _ Hx1). specialize (Hgt _ Hx2). simpl in Hgt. lia.
    + apply Forall_app. split; [done|].
      eapply Forall_impl; [exact Hgt|]. intros j Hj. simpl in Hj. lia.
  - exists ta. split_and!; [done|by eapply constant_indexes_sorted|done].
  - exists ta. split_and!; [done|by eapply constant_indexes_sorted|done].
Qed.

End ReentrantOrder.

Section ReentrantOrderStated.

Context {DeepState : Type}.
Variable apply : DeepState → DeepState → DeepState.
Variable emptyObject : DeepState.
Variable compiles : string → bool.
Variable CorePreprocessors : list Preprocesser.
Variable closures : Reentrant.Closures DeepState.

(** When no closure of the plugins calls [applyPlugins], the handlers of a
    dispatch pass run plugin by plugin: in the calls of the pass the plugin
    indexes of the [onLoad] calls never decrease, so every call of a plugin
    precedes every call of the plugins registered after it. *)
Theorem applyPlugins_runs_plugin_by_plugin depth root (s : @State DeepState) :
  (∀ pi ctx, noReentry (Reentrant.onLoadConduct closures pi ctx)) →
  (∀ pi ctx, noReentry (Reentrant.bypassConduct closures pi ctx)) →
  (∀ removal, noReentry (Reentrant.removalConduct closures removal)) →
  ∃ t,
    calls (Reentrant.applyPlugins compiles CorePreprocessors closures
             (Reentrant.bound apply emptyObject compiles CorePreprocessors
                closures depth) root s).2
    = (calls s ++ t)%list
    ∧ StronglySorted le (loadIndexes t).
Proof.
  intros Hload Hbypass Hremoval.
  unfold Reentrant.applyPlugins, bind, gets. simpl.
  destruct (acting_passes_in_plugin_order apply emptyObject compiles
              CorePreprocessors closures Hload Hbypass Hremoval depth root
              (plugins s) 0 s) as (t & Ht & Hs & _).
  by exists t.
Qed.

End ReentrantOrderStated.

(** ** The further properties on concrete inputs *)

Section ConcreteDispatch.

Import Fixture.

(** A built-in [ref], then [on], then [teleport], which requires [on]. *)
Lemma constructor_succeeds_iff_witness :
  constructor (JObj []) [plain "ref"] ∅ [onPlugin; needsOn]
  = inr {| plugins := [plain "ref"; onPlugin; needsOn]; store := 0;
           parentID := ""; missingIDNext := 0; removals := ∅;
           signals := [JObj []]; elementId := ∅;
           console := []; calls := [] |}.
Proof.
  apply (constructor_succeeds_iff (JObj []) [plain "ref"] ∅
           [onPlugin; needsOn]).
  split; [discriminate|]. split; [|reflexivity].
  intros [|[|[|i]]] p r Hp Hr; simpl in Hp; [| | |done]; injection Hp as <-.
  - by apply elem_of_nil in Hr.
  - by apply elem_of_nil in Hr.
  - apply list_elem_of_singleton in Hr as ->.
    exists 1, onPlugin. split; [lia|]. split; reflexivity.
Defined.

(** [teleport] is listed before the [on] it requires. *)
Lemma constructor_names_first_missing_witness :
  ∃ i p before after,
    ([plain "ref"] ++ [needsOn; onPlugin])%list !! i = Some p
    ∧ "teleport" = prefix p
    ∧ default [] (requiredPluginPrefixes p) = (before ++ "on" :: after)%list
    ∧ (∀ j p', j < i →
         ([plain "ref"] ++ [needsOn; onPlugin])%list !! j = Some p' →
         prefix p' ≠ "on")
    ∧ (∀ x, x ∈ before →
         ∃ j p', j < i
                 ∧ ([plain "ref"] ++ [needsOn; onPlugin])%list !! j = Some p'
                 ∧ prefix p' = x)
    ∧ providedEarlier (take i ([plain "ref"] ++ [needsOn; onPlugin])).
Proof.
  apply (constructor_names_first_missing (JObj []) [plain "ref"] ∅
           [needsOn; onPlugin] "teleport" "on").
  reflexivity.
Defined.

(** A [span] that only has attributes of other plugins, and a teardown
    from an earlier pass. *)
Lemma callback_ignores_other_prefixes_witness :
  let el := Elem 3 true "SPAN" [("textContent", "x"); ("model", "y")] [] in
  let s := stateWith [onPlugin; otherOn] 0 ∅ {[ 3 := [5] ]} in
  callback compiles [] onPlugin 0 el s = (Normal tt, flushed 3 s)
  ∧ callback compiles [] otherOn 1 el s = (Normal tt, s).
Proof.
  intros el s.
  assert (∀ dsKey value,
            (dsKey, value) ∈ dataset el → JS.startsWith dsKey "on" = false)
    as Hskip.
  { intros dsKey value Hin. simpl in Hin.
    apply elem_of_cons in Hin as [[= -> ->]|Hin]; [reflexivity|].
    apply list_elem_of_singleton in Hin as [= -> ->]. reflexivity. }
  split.
  - exact (callback_ignores_other_prefixes compiles [] onPlugin 0 el s Hskip).
  - exact (callback_ignores_other_prefixes compiles [] otherOn 1 el s Hskip).
Defined.

(** [data-model] on a [div], which has no id: the tag is rejected and the
    [div] keeps the id made for it. *)
Lemma rejected_attribute_keeps_generated_id_witness :
  let el := Elem 1 true "DIV" [("model", "")] [] in
  let s := stateWith [modelPlugin] 4 ∅ ∅ in
  let r := attribute compiles [] modelPlugin 0 el "model" "" s in
  r.1 = Throw (TagNotAllowed "DIV" "model")
  ∧ calls r.2 = [] ∧ console r.2 = []
  ∧ id_of r.2 1 = "ds--4" ∧ missingIDNext r.2 = 5.
Proof.
  intros el s r.
  destruct (rejected_attribute_keeps_generated_id compiles [] modelPlugin 0 el
              "model" "" s (TagNotAllowed "DIV" "model") eq_refl eq_refl)
    as (Hthrow & Hcalls & _ & Hconsole & Hnew & _).
  destruct (Hnew eq_refl) as [Hid Hnext].
  split; [exact Hthrow|]. split; [exact Hcalls|]. split; [exact Hconsole|].
  split; [exact Hid|]. apply Hnext. by vm_compute.
Defined.

(** A run, a merge, a second pass over the page and a flush. *)
Lemma lifetime_invariants_witness :
  ∃ st,
    constructor (JObj []) [] ∅ [onPlugin; otherOn] = inr st
    ∧ WellFormed ([] ++ [onPlugin; otherOn])
        (performAll mergePatch (JObj []) compiles [signalInput]
           [OpRun (page goodButton);
            OpMergeStore (JObj [("input", JStr "hi")]);
            OpApplyPlugins (page badButton);
            OpCleanupElementRemovals 2] st).
Proof.
  eexists. split; [reflexivity|].
  apply (lifetime_invariants compiles [signalInput] mergePatch (JObj []) []
           ∅ [onPlugin; otherOn]).
  reflexivity.
Defined.

(** Two updates, the second of which deletes a key the first has set. *)
Lemma merges_accumulate_witness :
  let s := stateWith [onPlugin] 0 ∅ ∅ in
  let s' :=
    performAll mergePatch (JObj []) compiles []
      [OpMergeStore (JObj [("a", JNum 1); ("b", JNum 2)]);
       OpMergeStore (JObj [("a", JNull)])] s in
  value_of (JObj []) s' (store s') = JObj [("b", JNum 2)]
  ∧ store s' = 2 ∧ value_of (JObj []) s' 0 = JObj [].
Proof.
  intros s s'.
  destruct (merges_accumulate mergePatch (JObj []) compiles []
              [JObj [("a", JNum 1); ("b", JNum 2)]; JObj [("a", JNull)]] s)
    as (Hvalue & _ & Hstore & _).
  split; [exact Hvalue|]. split; [|reflexivity].
  apply Hstore. discriminate.
Defined.

Lemma throttle_and_debounce_plain :
  Forall plainModifier
    [("throttle", ["500"; "leading"]); ("debounce", []); ("throttle", ["1"])].
Proof.
  repeat apply Forall_cons_2; try apply Forall_nil_2;
    (split; [reflexivity|]); (split; [reflexivity|]);
    repeat apply Forall_cons_2; try apply Forall_nil_2; by split.
Defined.

(** The [dataset] name [onclick.throttle_500_leading.debounce.throttle_1]. *)
Lemma attribute_name_round_trip_witness :
  let name := "onclick.throttle_500_leading.debounce.throttle_1" in
  JS.startsWith name "on" = true
  ∧ lowerFirst (keyOf onPlugin name) = "click"
  ∧ modifiersOf onPlugin name !! "throttle" = Some ["1"]
  ∧ parseModifier <$> tl (JS.split "." (JS.slice name 2))
    = [("throttle", ["500"; "leading"]); ("debounce", []);
       ("throttle", ["1"])].
Proof.
  assert (lowerCaseHead "click") as Hhead.
  { unfold lowerCaseHead. split; [right|]; apply Nat.ltb_lt; reflexivity. }
  destruct (attribute_name_round_trip onPlugin "click"
              [("throttle", ["500"; "leading"]); ("debounce", []);
               ("throttle", ["1"])]
              eq_refl Hhead throttle_and_debounce_plain)
    as (Hstart & Hkey & _ & Hparse).
  split; [exact Hstart|]. split; [exact Hkey|]. split; [|exact Hparse].
  by vm_compute.
Defined.

Lemma repeated_modifier_last_wins_witness :
  let name := "onClick.throttle_500_leading.debounce.throttle_1" in
  modifiersOf onPlugin name !! "throttle" = Some ["1"].
Proof.
  destruct (repeated_modifier_last_wins onPlugin "Click"
              [("throttle", ["500"; "leading"]); ("debounce", []);
               ("throttle", ["1"])] "throttle"
              eq_refl throttle_and_debounce_plain) as [Hlast _].
  apply (Hlast [("throttle", ["500"; "leading"]); ("debounce", [])] ["1"] []).
  - reflexivity.
  - apply not_elem_of_nil.
Defined.

Lemma functionContent_returns_last_statement_witness :
  functionContent " a + b" = "return  a + b"
  ∧ functionContent "a = 1; b = 2; a + b" = "a = 1; b = 2;return  a + b".
Proof.
  exact (functionContent_returns_last_statement "a = 1; b = 2" " a + b"
           eq_refl).
Defined.



End ConcreteDispatch.

Section ReentrantConcrete.

Import Fixture.





(** The second plugin's handlers flush their element, and the handlers
    still run plugin by plugin. *)
Lemma applyPlugins_runs_plugin_by_plugin_witness :
  let s := stateWith [onPlugin; otherOn] 0 ∅ {[ 2 := [5; 6] ]} in
  let whole :=
    Reentrant.applyPlugins compiles [] flushingClosures
      (Reentrant.bound mergePatch (JObj []) compiles [] flushingClosures 1)
      (page goodButton) s in
  StronglySorted le (loadIndexes (calls whole.2))
  ∧ loadIndexes (calls whole.2) = [0; 0; 0; 1; 1; 1].
Proof.
  intros s whole.
  destruct (applyPlugins_runs_plugin_by_plugin mergePatch (JObj []) compiles
              [] flushingClosures 1 (page goodButton) s)
    as (t & Ht & Hsorted).
  - intros pi ctx. simpl. case_bool_decide.
    + apply Forall_cons_2; [done|apply Forall_nil_2].
    + apply Forall_nil_2.
  - intros pi ctx. apply Forall_nil_2.
  - intros removal. apply Forall_nil_2.
  - split; [|by vm_compute].
    change (calls whole.2 = t) in Ht. by rewrite Ht.
Defined.

(** [count + 1] has no [$input] in it; a pattern written without the [g]
    flag makes [matchAll] throw. *)
Lemma preprocess_leaves_unmatched_text_witness :
  let local :=
    {| pp_ref := 3; regexp := exactly "input"; replacer := λ _, "" |} in
  Reentrant.preprocess [signalInput] stillClosures (plain "text") "count + 1"
  = inr "count + 1"
  ∧ Reentrant.preprocess [local] stillClosures (plain "text") "count + 1"
    = inl MatchAllWithoutGlobalFlag.
Proof.
  intros local. split.
  - apply (preprocess_leaves_unmatched_text [signalInput] stillClosures
             (plain "text") "count + 1").
    + intros processor Hin. apply list_elem_of_singleton in Hin as ->.
      reflexivity.
    + intros processor Hin. apply list_elem_of_singleton in Hin as ->.
      apply Forall_nil_2.
  - apply (proj2 (preprocess_leaves_unmatched_text [local] stillClosures
                    (plain "text") "count + 1") local []); reflexivity.
Defined.

End ReentrantConcrete.
